(** * Reference counting of [sp::shared_ptr] / [sp::weak_ptr] (src/shared_ptr.h)

    A shallow embedding of the [sp] namespace of [shared_ptr.h]: the control
    block with its split strong/weak counters, the two handle types built on
    it, the casts, [unique_ptr] interop and [enable_shared_from_this].

    Conventions.
    - The counters are [std::atomic<long>]; [long] is taken as the 64-bit
      two's-complement type of LP64 and every [++]/[--] wraps ([long_wrap]).
    - Raw object pointers are numbers, [0] being [nullptr]; the objects
      themselves are opaque.
    - A [control_block_base*] is a [nat]: [0] is [nullptr] and [S i] is the
      [i]-th block ever allocated with [new]. Storage of a block that was
      [delete]d is flagged, never reused, so every allocation has its own
      identity; touching a flagged block is undefined behaviour.
    - The side effects that matter (the deleter being called, a control block
      being deleted) are appended to an event log. *)

From Stdlib Require Import ZArith Lia.
From stdpp Require Import base tactics option list numbers.

Local Open Scope Z_scope.

(** ** Machine integers *)

Definition LONG_MAX : Z := 2 ^ 63 - 1.
Definition LONG_MIN : Z := - 2 ^ 63.

Definition long_wrap (z : Z) : Z := (z + 2 ^ 63) mod 2 ^ 64 - 2 ^ 63.

Definition in_long (z : Z) : Prop := LONG_MIN ≤ z ≤ LONG_MAX.

(** ** Pointers, deleters, events *)

Definition ptr := N.
Definition nullptr : ptr := 0%N.
Definition is_null (p : ptr) : bool := N.eqb p 0.

Definition cbptr := nat.
Definition null_cb : cbptr := O.
Definition cb_is_null (a : cbptr) : bool := Nat.eqb a O.

(** A deleter is a callable value of some type [D]; only its identity and
    the fact that it was called matter here. *)
Inductive deleter_t :=
| default_delete
| custom_deleter (id : nat).

Inductive event :=
| EvDestroy (a : cbptr) (d : deleter_t) (p : ptr)   (* [_deleter(_ptr)] run by block [a] *)
| EvRelease (a : cbptr)                             (* [delete this] of block [a] *)
| EvUniqueDestroy (d : deleter_t) (p : ptr).        (* [_deleter(_ptr)] run by a unique_ptr *)

Inductive exn := bad_weak_ptr.

(** ** Data *)

(** [Ptr<T, D>]: the tuple of the pointer and the deleter. *)
Record Ptr := mkPtr { _impl_ptr : ptr; _impl_deleter : deleter_t }.

(** [control_block<T, D>] *)
Record control_block := mkControlBlock {
  _use_count : Z;
  _weak_use_count : Z;
  _impl : Ptr
}.

Record cell := mkCell { block : control_block; released : bool }.

Record mem := mkMem { cells : list cell; events : list event }.

Record shared_ptr := mkShared { sp_ptr : ptr; sp_control_block : cbptr }.
Record weak_ptr := mkWeak { wp_ptr : ptr; wp_control_block : cbptr }.
Record unique_ptr := mkUnique { up_impl : Ptr }.
Record enable_shared_from_this := mkEsft { weak_this : weak_ptr }.

(** ** Outcomes and the state monad of the embedding *)

Inductive outcome (A : Type) :=
| Ret (x : A) (m : mem)        (* normal return *)
| Raise (e : exn) (m : mem)    (* an exception leaves the function *)
| Terminate                    (* an exception reached a noexcept boundary *)
| Undefined.                   (* null or dangling control block dereferenced *)
Arguments Ret {A} x m.
Arguments Raise {A} e m.
Arguments Terminate {A}.
Arguments Undefined {A}.

Definition M (A : Type) : Type := mem → outcome A.

Definition ret {A} (x : A) : M A := λ m, Ret x m.

Definition bind {A B} (c : M A) (k : A → M B) : M B := λ m,
  match c m with
  | Ret x m' => k x m'
  | Raise e m' => Raise e m'
  | Terminate => Terminate
  | Undefined => Undefined
  end.

#[global] Instance M_ret : MRet M := @ret.
#[global] Instance M_bind : MBind M := λ A B k c, bind c k.

Definition throw {A} (e : exn) : M A := λ m, Raise e m.

Definition noexcept {A} (c : M A) : M A := λ m,
  match c m with
  | Raise _ _ => Terminate
  | r => r
  end.

Definition emit (e : event) : M unit := λ m,
  Ret tt {| cells := cells m; events := events m ++ [e] |}.

(** ** Memory of control blocks *)

Definition cell_at (a : cbptr) (m : mem) : option cell :=
  match a with
  | O => None
  | S i => cells m !! i
  end.

(** [*this] of a member function called through the pointer [a]. *)
Definition load (a : cbptr) : M control_block := λ m,
  match cell_at a m with
  | Some c => if released c then Undefined else Ret (block c) m
  | None => Undefined
  end.

(** An atomic read-modify-write on the block; returns the new contents. *)
Definition update (a : cbptr) (f : control_block → control_block) : M control_block := λ m,
  match load a m with
  | Ret cb _ =>
      Ret (f cb) {| cells := <[pred a := mkCell (f cb) false]> (cells m);
                    events := events m |}
  | r => r
  end.

(** [new control_block<U, D>{p, d}]: both counters start at 1. *)
Definition new_control_block (p : ptr) (d : deleter_t) : M cbptr := λ m,
  Ret (S (length (cells m)))
      {| cells := cells m ++ [mkCell (mkControlBlock 1 1 (mkPtr p d)) false];
         events := events m |}.

(** [delete this] *)
Definition delete_this (a : cbptr) : M unit := λ m,
  match load a m with
  | Ret cb _ =>
      Ret tt {| cells := <[pred a := mkCell cb true]> (cells m);
                events := events m ++ [EvRelease a] |}
  | Raise e m' => Raise e m'
  | Terminate => Terminate
  | Undefined => Undefined
  end.

Definition set_use_count (z : Z) (cb : control_block) : control_block :=
  mkControlBlock z (_weak_use_count cb) (_impl cb).
Definition set_weak_use_count (z : Z) (cb : control_block) : control_block :=
  mkControlBlock (_use_count cb) z (_impl cb).

(** ** control_block member functions *)

Definition inc_ref (this : cbptr) : M unit :=
  update this (λ cb, set_use_count (long_wrap (_use_count cb + 1)) cb) ;; ret tt.

Definition inc_wref (this : cbptr) : M unit :=
  update this (λ cb, set_weak_use_count (long_wrap (_weak_use_count cb + 1)) cb) ;; ret tt.

Definition dec_wref (this : cbptr) : M unit :=
  cb ← update this (λ cb, set_weak_use_count (long_wrap (_weak_use_count cb - 1)) cb);
  if _weak_use_count cb =? 0 then delete_this this else ret tt.

Definition dec_ref (this : cbptr) : M unit :=
  cb0 ← load this;
  let _ptr := _impl_ptr (_impl cb0) in
  let _deleter := _impl_deleter (_impl cb0) in
  cb ← update this (λ cb, set_use_count (long_wrap (_use_count cb - 1)) cb);
  if _use_count cb =? 0 then
    (if is_null _ptr then ret tt else emit (EvDestroy this _deleter _ptr)) ;;
    dec_wref this
  else ret tt.

Definition control_block_use_count (this : cbptr) : M Z :=
  cb ← load this; ret (_use_count cb).

Definition control_block_unique (this : cbptr) : M bool :=
  cb ← load this; ret (_use_count cb =? 1).

(** [_weak_use_count - ((_use_count > 0) ? 1 : 0)]: a subtraction of
    [long] values, undefined when it overflows. *)
Definition control_block_weak_use_count (this : cbptr) : M Z :=
  cb ← load this;
  let r := _weak_use_count cb - (if 0 <? _use_count cb then 1 else 0) in
  if (LONG_MIN <=? r) && (r <=? LONG_MAX) then ret r else λ _, Undefined.

Definition control_block_expired (this : cbptr) : M bool :=
  cb ← load this; ret (_use_count cb =? 0).

(** ** weak_ptr *)

(** [weak_ptr()] *)
Definition weak_ptr_default : weak_ptr := mkWeak nullptr null_cb.

(** [weak_ptr(shared_ptr<U> const& sp)] *)
Definition weak_ptr_of_shared (sp : shared_ptr) : M weak_ptr :=
  let this := mkWeak (sp_ptr sp) (sp_control_block sp) in
  (if cb_is_null (wp_control_block this) then ret tt
   else inc_wref (wp_control_block this)) ;;
  ret this.

(** [weak_ptr(weak_ptr const& wp)] *)
Definition weak_ptr_copy (wp : weak_ptr) : M weak_ptr :=
  let this := mkWeak (wp_ptr wp) (wp_control_block wp) in
  (if cb_is_null (wp_control_block this) then ret tt
   else inc_wref (wp_control_block this)) ;;
  ret this.

(** [~weak_ptr()] *)
Definition weak_ptr_dtor (this : weak_ptr) : M unit :=
  if cb_is_null (wp_control_block this) then ret tt
  else dec_wref (wp_control_block this).

(** [this.swap(wp)]: the new [( *this, wp)]. *)
Definition weak_ptr_swap (this wp : weak_ptr) : weak_ptr * weak_ptr := (wp, this).

(** [operator=(const weak_ptr& wp)]: [weak_ptr{ wp }.swap( *this)]; the
    temporary dies at the end of the statement. Returns the new [*this]. *)
Definition weak_ptr_assign (this wp : weak_ptr) : M weak_ptr :=
  tmp ← weak_ptr_copy wp;
  let '(tmp, this) := weak_ptr_swap tmp this in
  weak_ptr_dtor tmp ;;
  ret this.

(** [operator=(const shared_ptr<U>& sp)] *)
Definition weak_ptr_assign_shared (this : weak_ptr) (sp : shared_ptr) : M weak_ptr :=
  tmp ← weak_ptr_of_shared sp;
  let '(tmp, this) := weak_ptr_swap tmp this in
  weak_ptr_dtor tmp ;;
  ret this.

(** [reset()]: [weak_ptr{}.swap( *this)] *)
Definition weak_ptr_reset (this : weak_ptr) : M weak_ptr :=
  let '(tmp, this) := weak_ptr_swap weak_ptr_default this in
  weak_ptr_dtor tmp ;;
  ret this.

Definition weak_ptr_use_count (this : weak_ptr) : M Z :=
  if cb_is_null (wp_control_block this) then ret 0
  else control_block_use_count (wp_control_block this).

Definition weak_ptr_expired (this : weak_ptr) : M bool :=
  if cb_is_null (wp_control_block this) then ret false
  else control_block_expired (wp_control_block this).

(** [owner_before]: [std::less] on the addresses of the control blocks. The
    order of the addresses of two different blocks is the allocator's;
    allocation order stands for it here, and nothing below depends on which
    of two different blocks comes first. *)
Definition weak_ptr_owner_before (this wp : weak_ptr) : bool :=
  Nat.ltb (wp_control_block this) (wp_control_block wp).

Definition weak_ptr_owner_before_shared (this : weak_ptr) (sp : shared_ptr) : bool :=
  Nat.ltb (wp_control_block this) (sp_control_block sp).

(** ** shared_ptr *)

(** [shared_ptr()] and [shared_ptr(nullptr)] *)
Definition shared_ptr_default : shared_ptr := mkShared nullptr null_cb.

(** [shared_ptr(U* p)] *)
Definition shared_ptr_of_ptr (p : ptr) : M shared_ptr :=
  a ← new_control_block p default_delete;
  ret (mkShared p a).

(** [shared_ptr(U* p, D d)] *)
Definition shared_ptr_of_ptr_deleter (p : ptr) (d : deleter_t) : M shared_ptr :=
  a ← new_control_block p d;
  ret (mkShared p a).

(** [shared_ptr(std::nullptr_t p, D d)] *)
Definition shared_ptr_of_nullptr_deleter (d : deleter_t) : M shared_ptr :=
  a ← new_control_block nullptr d;
  ret (mkShared nullptr a).

(** Aliasing constructor [shared_ptr(const shared_ptr<U>& sp, T* p)] *)
Definition shared_ptr_alias (sp : shared_ptr) (p : ptr) : M shared_ptr :=
  let this := mkShared p (sp_control_block sp) in
  (if cb_is_null (sp_control_block this) then ret tt
   else inc_ref (sp_control_block this)) ;;
  ret this.

(** [shared_ptr(const shared_ptr& sp)] *)
Definition shared_ptr_copy (sp : shared_ptr) : M shared_ptr :=
  let this := mkShared (sp_ptr sp) (sp_control_block sp) in
  (if cb_is_null (sp_control_block this) then ret tt
   else inc_ref (sp_control_block this)) ;;
  ret this.

(** [shared_ptr(shared_ptr&& sp)]: the new object and what is left in [sp]. *)
Definition shared_ptr_move (sp : shared_ptr) : shared_ptr * shared_ptr :=
  (mkShared (sp_ptr sp) (sp_control_block sp), mkShared nullptr null_cb).

(** [explicit shared_ptr(const weak_ptr<U>& wp)] *)
Definition shared_ptr_of_weak (wp : weak_ptr) : M shared_ptr :=
  let this := mkShared (wp_ptr wp) (wp_control_block wp) in
  e ← weak_ptr_expired wp;
  if (e : bool) then throw bad_weak_ptr
  else inc_ref (sp_control_block this) ;; ret this.

(** [~shared_ptr()] *)
Definition shared_ptr_dtor (this : shared_ptr) : M unit :=
  if cb_is_null (sp_control_block this) then ret tt
  else dec_ref (sp_control_block this).

(** [this.swap(sp)]: the new [( *this, sp)]. *)
Definition shared_ptr_swap (this sp : shared_ptr) : shared_ptr * shared_ptr := (sp, this).

(** [operator=(const shared_ptr& sp)]: [shared_ptr{ sp }.swap( *this)].
    Returns the new [*this]; [sp] is only read, so [sp] may be [*this]. *)
Definition shared_ptr_assign (this sp : shared_ptr) : M shared_ptr :=
  tmp ← shared_ptr_copy sp;
  let '(tmp, this) := shared_ptr_swap tmp this in
  shared_ptr_dtor tmp ;;
  ret this.

(** [operator=(shared_ptr&& sp)]: [shared_ptr{ std::move(sp) }.swap( *this)],
    for [sp] an object other than [*this]. Returns the new [( *this, sp)]. *)
Definition shared_ptr_move_assign (this sp : shared_ptr) : M (shared_ptr * shared_ptr) :=
  let '(tmp, sp) := shared_ptr_move sp in
  let '(tmp, this) := shared_ptr_swap tmp this in
  shared_ptr_dtor tmp ;;
  ret (this, sp).

(** The same operator when [sp] is [*this] ([x = std::move(x)]): the move
    constructor empties [*this] before the swap reads it. *)
Definition shared_ptr_move_assign_self (this : shared_ptr) : M shared_ptr :=
  let '(tmp, this) := shared_ptr_move this in
  let '(tmp, this) := shared_ptr_swap tmp this in
  shared_ptr_dtor tmp ;;
  ret this.

(** [reset()]: [shared_ptr{}.swap( *this)] *)
Definition shared_ptr_reset (this : shared_ptr) : M shared_ptr :=
  let '(tmp, this) := shared_ptr_swap shared_ptr_default this in
  shared_ptr_dtor tmp ;;
  ret this.

(** [reset(U* p)]: [shared_ptr{ p }.swap( *this)] *)
Definition shared_ptr_reset_ptr (this : shared_ptr) (p : ptr) : M shared_ptr :=
  tmp ← shared_ptr_of_ptr p;
  let '(tmp, this) := shared_ptr_swap tmp this in
  shared_ptr_dtor tmp ;;
  ret this.

(** [reset(U* p, D d)]: [shared_ptr{ p, d }.swap( *this)] *)
Definition shared_ptr_reset_ptr_deleter (this : shared_ptr) (p : ptr) (d : deleter_t)
  : M shared_ptr :=
  tmp ← shared_ptr_of_ptr_deleter p d;
  let '(tmp, this) := shared_ptr_swap tmp this in
  shared_ptr_dtor tmp ;;
  ret this.

Definition shared_ptr_get (this : shared_ptr) : ptr := sp_ptr this.

Definition shared_ptr_use_count (this : shared_ptr) : M Z :=
  if cb_is_null (sp_control_block this) then ret 0
  else control_block_use_count (sp_control_block this).

Definition shared_ptr_unique (this : shared_ptr) : M bool :=
  if cb_is_null (sp_control_block this) then ret false
  else control_block_unique (sp_control_block this).

(** [explicit operator bool()] *)
Definition shared_ptr_bool (this : shared_ptr) : bool :=
  if is_null (sp_ptr this) then false else true.

(** [owner_before]: as for weak_ptr, allocation order stands for the order
    of the addresses. *)
Definition shared_ptr_owner_before (this sp : shared_ptr) : bool :=
  Nat.ltb (sp_control_block this) (sp_control_block sp).

Definition shared_ptr_owner_before_weak (this : shared_ptr) (wp : weak_ptr) : bool :=
  Nat.ltb (sp_control_block this) (wp_control_block wp).

(** [weak_ptr::lock() const noexcept] *)
Definition weak_ptr_lock (this : weak_ptr) : M shared_ptr :=
  noexcept (e ← weak_ptr_expired this;
            if (e : bool) then ret shared_ptr_default else shared_ptr_of_weak this).

(** ** Casts

    The pointer conversion itself ([static_cast], [const_cast], ...) is a
    function on raw pointers supplied by the instantiation. *)

Definition static_pointer_cast (conv : ptr → ptr) (sp : shared_ptr) : M shared_ptr :=
  shared_ptr_alias sp (conv (shared_ptr_get sp)).

Definition const_pointer_cast (conv : ptr → ptr) (sp : shared_ptr) : M shared_ptr :=
  shared_ptr_alias sp (conv (shared_ptr_get sp)).

Definition reinterpret_pointer_cast (conv : ptr → ptr) (sp : shared_ptr) : M shared_ptr :=
  shared_ptr_alias sp (conv (shared_ptr_get sp)).

(** [dynamic_cast] yields [nullptr] when the conversion fails. *)
Definition dynamic_pointer_cast (conv : ptr → ptr) (sp : shared_ptr) : M shared_ptr :=
  let _p := conv (shared_ptr_get sp) in
  if is_null _p then ret shared_ptr_default else shared_ptr_alias sp _p.

(** ** unique_ptr (the part shared_ptr composes with) *)

Definition unique_ptr_of_ptr (p : ptr) : unique_ptr := mkUnique (mkPtr p default_delete).
Definition unique_ptr_of_ptr_deleter (p : ptr) (d : deleter_t) : unique_ptr :=
  mkUnique (mkPtr p d).

Definition unique_ptr_get (this : unique_ptr) : ptr := _impl_ptr (up_impl this).
Definition unique_ptr_get_deleter (this : unique_ptr) : deleter_t :=
  _impl_deleter (up_impl this).

(** [release()]: the returned pointer and the new [*this]. *)
Definition unique_ptr_release (this : unique_ptr) : ptr * unique_ptr :=
  let cp := _impl_ptr (up_impl this) in
  (cp, mkUnique (mkPtr nullptr (_impl_deleter (up_impl this)))).

(** [~unique_ptr()] *)
Definition unique_ptr_dtor (this : unique_ptr) : M unit :=
  let _ptr := _impl_ptr (up_impl this) in
  let _deleter := _impl_deleter (up_impl this) in
  if is_null _ptr then ret tt else emit (EvUniqueDestroy _deleter _ptr).

(** [shared_ptr(unique_ptr<U, D>&& up)]: delegates to
    [shared_ptr{ up.release(), up.get_deleter() }]. Returns the new
    shared_ptr and what is left in [up]. *)
Definition shared_ptr_of_unique (up : unique_ptr) : M (shared_ptr * unique_ptr) :=
  let '(p, up) := unique_ptr_release up in
  let d := unique_ptr_get_deleter up in
  this ← shared_ptr_of_ptr_deleter p d;
  ret (this, up).

(** ** enable_shared_from_this *)

(** [enable_shared_from_this()] *)
Definition enable_shared_from_this_ctor : enable_shared_from_this :=
  mkEsft weak_ptr_default.

(** [enable_shared_from_this(const enable_shared_from_this& r)]: the member
    is default-initialised. *)
Definition enable_shared_from_this_copy (r : enable_shared_from_this)
  : enable_shared_from_this := mkEsft weak_ptr_default.

(** [operator=(const enable_shared_from_this&)]: [return *this]. *)
Definition enable_shared_from_this_assign (this r : enable_shared_from_this)
  : enable_shared_from_this := this.

(** [shared_from_this()]: [shared_ptr<T>(weak_this)] *)
Definition shared_from_this (this : enable_shared_from_this) : M shared_ptr :=
  shared_ptr_of_weak (weak_this this).

(** ** Programs: sequences of operations on named instances

    A program state is the memory together with the shared_ptr and weak_ptr
    objects currently alive, in declaration order; an operation names its
    operands by position. Constructors append the new object, destructors
    remove theirs. An operation naming an object that does not exist is not
    a program and is skipped. *)

Record state := mkState {
  st_mem : mem;
  st_shared : list shared_ptr;
  st_weak : list weak_ptr
}.

Definition init_state : state := mkState (mkMem [] []) [] [].

Inductive op :=
| SpDefault                                        (* shared_ptr<T> x;              *)
| SpOfPtr (p : ptr)                                (* shared_ptr<T> x(p);           *)
| SpOfPtrDeleter (p : ptr) (d : deleter_t)         (* shared_ptr<T> x(p, d);        *)
| SpOfNullDeleter (d : deleter_t)                  (* shared_ptr<T> x(nullptr, d);  *)
| SpAlias (i : nat) (p : ptr)                      (* shared_ptr<T> x(sp_i, p);     *)
| SpCopy (i : nat)                                 (* shared_ptr<T> x(sp_i);        *)
| SpMove (i : nat)                                 (* shared_ptr<T> x(move(sp_i));  *)
| SpOfWeak (k : nat)                               (* shared_ptr<T> x(wp_k);        *)
| SpAssign (i j : nat)                             (* sp_i = sp_j;                  *)
| SpMoveAssign (i j : nat)                         (* sp_i = move(sp_j);            *)
| SpSwap (i j : nat)                               (* sp_i.swap(sp_j);              *)
| SpReset (i : nat)                                (* sp_i.reset();                 *)
| SpResetPtr (i : nat) (p : ptr)                   (* sp_i.reset(p);                *)
| SpResetPtrDeleter (i : nat) (p : ptr) (d : deleter_t)  (* sp_i.reset(p, d);       *)
| SpDestroy (i : nat)                              (* sp_i goes out of scope        *)
| WpDefault                                        (* weak_ptr<T> w;                *)
| WpOfShared (i : nat)                             (* weak_ptr<T> w(sp_i);          *)
| WpCopy (k : nat)                                 (* weak_ptr<T> w(wp_k);          *)
| WpAssign (k l : nat)                             (* wp_k = wp_l;                  *)
| WpAssignShared (k i : nat)                       (* wp_k = sp_i;                  *)
| WpSwap (k l : nat)                               (* wp_k.swap(wp_l);              *)
| WpReset (k : nat)                                (* wp_k.reset();                 *)
| WpLock (k : nat)                                 (* shared_ptr<T> x = wp_k.lock();*)
| WpDestroy (k : nat).                             (* wp_k goes out of scope        *)

(** Runs a member function in the current memory. An exception leaves the
    statement without the declared object coming to life; undefined
    behaviour and termination have no continuation. *)
Definition exec {A} (c : M A) (s : state) (k : A → mem → state) : option state :=
  match c (st_mem s) with
  | Ret x m => Some (k x m)
  | Raise _ m => Some (mkState m (st_shared s) (st_weak s))
  | Terminate => None
  | Undefined => None
  end.

Definition step (o : op) (s : state) : option state :=
  let sps := st_shared s in
  let wps := st_weak s in
  match o with
  | SpDefault => Some (mkState (st_mem s) (sps ++ [shared_ptr_default]) wps)
  | SpOfPtr p =>
      exec (shared_ptr_of_ptr p) s (λ x m, mkState m (sps ++ [x]) wps)
  | SpOfPtrDeleter p d =>
      exec (shared_ptr_of_ptr_deleter p d) s (λ x m, mkState m (sps ++ [x]) wps)
  | SpOfNullDeleter d =>
      exec (shared_ptr_of_nullptr_deleter d) s (λ x m, mkState m (sps ++ [x]) wps)
  | SpAlias i p =>
      match sps !! i with
      | Some sp => exec (shared_ptr_alias sp p) s (λ x m, mkState m (sps ++ [x]) wps)
      | None => Some s
      end
  | SpCopy i =>
      match sps !! i with
      | Some sp => exec (shared_ptr_copy sp) s (λ x m, mkState m (sps ++ [x]) wps)
      | None => Some s
      end
  | SpMove i =>
      match sps !! i with
      | Some sp =>
          let '(x, sp) := shared_ptr_move sp in
          Some (mkState (st_mem s) (<[i := sp]> sps ++ [x]) wps)
      | None => Some s
      end
  | SpOfWeak k =>
      match wps !! k with
      | Some wp => exec (shared_ptr_of_weak wp) s (λ x m, mkState m (sps ++ [x]) wps)
      | None => Some s
      end
  | SpAssign i j =>
      match sps !! i, sps !! j with
      | Some this, Some sp =>
          exec (shared_ptr_assign this sp) s (λ this m, mkState m (<[i := this]> sps) wps)
      | _, _ => Some s
      end
  | SpMoveAssign i j =>
      match sps !! i, sps !! j with
      | Some this, Some sp =>
          if decide (i = j) then
            exec (shared_ptr_move_assign_self this) s
                 (λ this m, mkState m (<[i := this]> sps) wps)
          else
            exec (shared_ptr_move_assign this sp) s
                 (λ r m, mkState m (<[i := fst r]> (<[j := snd r]> sps)) wps)
      | _, _ => Some s
      end
  | SpSwap i j =>
      match sps !! i, sps !! j with
      | Some this, Some sp =>
          let '(this, sp) := shared_ptr_swap this sp in
          Some (mkState (st_mem s) (<[i := this]> (<[j := sp]> sps)) wps)
      | _, _ => Some s
      end
  | SpReset i =>
      match sps !! i with
      | Some this =>
          exec (shared_ptr_reset this) s (λ this m, mkState m (<[i := this]> sps) wps)
      | None => Some s
      end
  | SpResetPtr i p =>
      match sps !! i with
      | Some this =>
          exec (shared_ptr_reset_ptr this p) s
               (λ this m, mkState m (<[i := this]> sps) wps)
      | None => Some s
      end
  | SpResetPtrDeleter i p d =>
      match sps !! i with
      | Some this =>
          exec (shared_ptr_reset_ptr_deleter this p d) s
               (λ this m, mkState m (<[i := this]> sps) wps)
      | None => Some s
      end
  | SpDestroy i =>
      match sps !! i with
      | Some this => exec (shared_ptr_dtor this) s (λ _ m, mkState m (delete i sps) wps)
      | None => Some s
      end
  | WpDefault => Some (mkState (st_mem s) sps (wps ++ [weak_ptr_default]))
  | WpOfShared i =>
      match sps !! i with
      | Some sp => exec (weak_ptr_of_shared sp) s (λ w m, mkState m sps (wps ++ [w]))
      | None => Some s
      end
  | WpCopy k =>
      match wps !! k with
      | Some wp => exec (weak_ptr_copy wp) s (λ w m, mkState m sps (wps ++ [w]))
      | None => Some s
      end
  | WpAssign k l =>
      match wps !! k, wps !! l with
      | Some this, Some wp =>
          exec (weak_ptr_assign this wp) s (λ this m, mkState m sps (<[k := this]> wps))
      | _, _ => Some s
      end
  | WpAssignShared k i =>
      match wps !! k, sps !! i with
      | Some this, Some sp =>
          exec (weak_ptr_assign_shared this sp) s
               (λ this m, mkState m sps (<[k := this]> wps))
      | _, _ => Some s
      end
  | WpSwap k l =>
      match wps !! k, wps !! l with
      | Some this, Some wp =>
          let '(this, wp) := weak_ptr_swap this wp in
          Some (mkState (st_mem s) sps (<[k := this]> (<[l := wp]> wps)))
      | _, _ => Some s
      end
  | WpReset k =>
      match wps !! k with
      | Some this =>
          exec (weak_ptr_reset this) s (λ this m, mkState m sps (<[k := this]> wps))
      | None => Some s
      end
  | WpLock k =>
      match wps !! k with
      | Some wp => exec (weak_ptr_lock wp) s (λ x m, mkState m (sps ++ [x]) wps)
      | None => Some s
      end
  | WpDestroy k =>
      match wps !! k with
      | Some this => exec (weak_ptr_dtor this) s (λ _ m, mkState m sps (delete k wps))
      | None => Some s
      end
  end.

Fixpoint run (ops : list op) (s : state) : option state :=
  match ops with
  | [] => Some s
  | o :: ops' =>
      match step o s with
      | Some s' => run ops' s'
      | None => None
      end
  end.

(** ** Observables used by the statements *)

(** How many objects of a list of handles point at block [a]. *)
Definition count_by {A} (f : A → cbptr) (a : cbptr) (l : list A) : Z :=
  Z.of_nat (length (filter (λ x, f x = a) l)).

(** Live shared_ptr, resp. weak_ptr, instances sharing block [a]. *)
Definition owners (a : cbptr) (l : list shared_ptr) : Z := count_by sp_control_block a l.
Definition wowners (a : cbptr) (l : list weak_ptr) : Z := count_by wp_control_block a l.

Definition is_destroy (a : cbptr) (e : event) : bool :=
  match e with
  | EvDestroy a' _ _ => Nat.eqb a' a
  | _ => false
  end.

Definition is_release (a : cbptr) (e : event) : bool :=
  match e with
  | EvRelease a' => Nat.eqb a' a
  | _ => false
  end.

(** Number of deleter calls, resp. deletions, of block [a] in a log. *)
Definition destroys (a : cbptr) (ev : list event) : nat :=
  length (filter (λ e, is_destroy a e = true) ev).
Definition releases (a : cbptr) (ev : list event) : nat :=
  length (filter (λ e, is_release a e = true) ev).

(** Every deletion of block [a] in the log comes after a deleter call of [a]. *)
Definition destroy_before_release (a : cbptr) (ev : list event) : Prop :=
  ∀ l1 l2, ev = l1 ++ EvRelease a :: l2 → ∃ d p, EvDestroy a d p ∈ l1.

(** The counters of block [a] as last written (0 for a block never allocated). *)
Definition strong_count (a : cbptr) (m : mem) : Z :=
  match cell_at a m with
  | Some c => _use_count (block c)
  | None => 0
  end.

Definition weak_count (a : cbptr) (m : mem) : Z :=
  match cell_at a m with
  | Some c => _weak_use_count (block c)
  | None => 0
  end.

(** The pointer handed to the control block at construction. *)
Definition managed_ptr (a : cbptr) (m : mem) : ptr :=
  match cell_at a m with
  | Some c => _impl_ptr (_impl (block c))
  | None => nullptr
  end.

Definition is_released (a : cbptr) (m : mem) : bool :=
  match cell_at a m with
  | Some c => released c
  | None => false
  end.

(** Indicator of a decidable proposition. *)
Definition ind (P : Prop) `{Decision P} : Z := if decide P then 1 else 0.


(** ** The counting invariant

    [ns] and [nw] give, for every control block, the number of live
    shared_ptr and weak_ptr instances that point at it. *)

Record cell_ok (a : cbptr) (c : cell) (ns nw : Z) (ev : list event) : Prop := mk_cell_ok {
  ok_use : _use_count (block c) = ns;
  ok_weak : _weak_use_count (block c) = nw + (if 0 <? ns then 1 else 0);
  ok_ns : 0 ≤ ns ≤ LONG_MAX;
  ok_nw : 0 ≤ nw < LONG_MAX;
  ok_released : released c = (_weak_use_count (block c) =? 0);
  ok_releases : releases a ev = if released c then 1%nat else 0%nat;
  ok_destroys :
    destroys a ev =
    if (ns =? 0) && negb (is_null (_impl_ptr (_impl (block c)))) then 1%nat else 0%nat;
  ok_order :
    is_null (_impl_ptr (_impl (block c))) = false → destroy_before_release a ev
}.

Definition wf (m : mem) (ns nw : cbptr → Z) : Prop :=
  (∀ i c, cells m !! i = Some c →
          cell_ok (S i) c (ns (S i)) (nw (S i)) (events m)) ∧
  (∀ i, cells m !! i = None →
        ns (S i) = 0 ∧ nw (S i) = 0 ∧
        destroys (S i) (events m) = 0%nat ∧ releases (S i) (events m) = 0%nat).

Definition Inv (s : state) : Prop :=
  wf (st_mem s) (λ a, owners a (st_shared s)) (λ a, wowners a (st_weak s)).

Definition bump (f : cbptr → Z) (a : cbptr) (k : Z) : cbptr → Z :=
  λ x, if decide (x = a) then f x + k else f x.

(** Memory only grows: the log is extended and a block keeps the pointer
    and deleter it was constructed with. *)
Definition mem_ext (m m' : mem) : Prop :=
  events m `prefix_of` events m' ∧
  ∀ i c, cells m !! i = Some c →
         ∃ c', cells m' !! i = Some c' ∧ _impl (block c') = _impl (block c).

(** An event that says nothing about the blocks other than [a]. *)
Definition only_about (a : cbptr) (e : event) : Prop :=
  ∀ b, b ≠ a → is_destroy b e = false ∧ is_release b e = false.

(** What [dec_wref] leaves in the cell and appends to the log. *)
Definition dec_wref_cell (cb : control_block) : cell :=
  let w := long_wrap (_weak_use_count cb - 1) in
  mkCell (set_weak_use_count w cb) (w =? 0).
Definition dec_wref_events (a : cbptr) (cb : control_block) : list event :=
  if long_wrap (_weak_use_count cb - 1) =? 0 then [EvRelease a] else [].

(** What [dec_ref] leaves in the cell and appends to the log. *)
Definition dec_ref_cell (cb : control_block) : cell :=
  let cb1 := set_use_count (long_wrap (_use_count cb - 1)) cb in
  if _use_count cb1 =? 0 then dec_wref_cell cb1 else mkCell cb1 false.
Definition dec_ref_events (a : cbptr) (cb : control_block) : list event :=
  let cb1 := set_use_count (long_wrap (_use_count cb - 1)) cb in
  if _use_count cb1 =? 0 then
    (if is_null (_impl_ptr (_impl cb)) then []
     else [EvDestroy a (_impl_deleter (_impl cb)) (_impl_ptr (_impl cb))]) ++
    dec_wref_events a cb1
  else [].

(** What one operation of a program does to the state. *)
Record step_post (s s' : state) : Prop := mk_step_post {
  post_inv : Inv s';
  post_ext : mem_ext (st_mem s) (st_mem s');
  post_strong : ∀ a, a ≠ O → owners a (st_shared s) - 1 ≤ owners a (st_shared s');
  post_weak : ∀ a, a ≠ O → wowners a (st_weak s) - 1 ≤ wowners a (st_weak s');
  post_one :
    (∀ a, a ≠ O → owners a (st_shared s) ≤ owners a (st_shared s')) ∨
    (∀ a, a ≠ O → wowners a (st_weak s) ≤ wowners a (st_weak s'));
  post_fresh :
    ∀ i, cells (st_mem s) !! i = None → is_Some (cells (st_mem s') !! i) →
         owners (S i) (st_shared s') = 1;
  post_len :
    (length (st_shared s') ≤ S (length (st_shared s)))%nat ∧
    (length (st_weak s') ≤ S (length (st_weak s)))%nat
}.

(** Few enough instances for the counters not to wrap. *)
Definition bounded (s : state) : Prop :=
  Z.of_nat (length (st_shared s)) < LONG_MAX ∧
  Z.of_nat (length (st_weak s)) + 1 < LONG_MAX.

(** The operation promotes ([lock], or the converting constructor) a
    weak_ptr that holds no control block. *)
Definition promotes_empty (o : op) (s : state) : Prop :=
  ∃ k wp, (o = SpOfWeak k ∨ o = WpLock k) ∧
          st_weak s !! k = Some wp ∧ wp_control_block wp = O.

(** The operations that turn a weak_ptr into a shared_ptr. *)
Definition is_promotion (o : op) : bool :=
  match o with
  | SpOfWeak _ | WpLock _ => true
  | _ => false
  end.

(** ** Cast round trip *)

(** [static_pointer_cast<T>(static_pointer_cast<U>(sp))], the inner result
    being a temporary that dies at the end of the full expression. *)
Definition cast_round_trip (to_u to_t : ptr → ptr) (sp : shared_ptr) : M shared_ptr :=
  tmp ← static_pointer_cast to_u sp;
  back ← static_pointer_cast to_t tmp;
  shared_ptr_dtor tmp ;;
  ret back.

(** ** Objects with a self-reference

    Objects of a type deriving from [enable_shared_from_this<T>], by
    address, next to the memory of control blocks. *)

Record world := mkWorld {
  w_mem : mem;
  w_objects : list (ptr * enable_shared_from_this)
}.

Fixpoint object_at (p : ptr) (objs : list (ptr * enable_shared_from_this))
  : option enable_shared_from_this :=
  match objs with
  | [] => None
  | (q, o) :: objs' => if N.eqb q p then Some o else object_at p objs'
  end.

(** [new T] at address [p]: the base-class constructor runs. *)
Definition new_object (p : ptr) (w : world) : world :=
  mkWorld (w_mem w) ((p, enable_shared_from_this_ctor) :: w_objects w).

(** [shared_ptr<T> sp(p)]. The constructor receives the pointer value; its
    initialisers copy it and allocate the control block, its body is empty:
    the object is not accessed. *)
Definition wrap (p : ptr) (w : world) : outcome (shared_ptr * world) :=
  match shared_ptr_of_ptr p (w_mem w) with
  | Ret sp m' => Ret (sp, mkWorld m' (w_objects w)) m'
  | Raise e m' => Raise e m'
  | Terminate => Terminate
  | Undefined => Undefined
  end.

(** [p->shared_from_this()] *)
Definition shared_from_this_at (p : ptr) (w : world) : outcome shared_ptr :=
  match object_at p (w_objects w) with
  | Some o => shared_from_this o (w_mem w)
  | None => Undefined
  end.

(** ** Promotion under interleaving

    The counters are [std::atomic<long>] accessed with the default
    sequentially consistent ordering, so an execution of several threads is
    an interleaving of their atomic accesses. Thread A runs [wp.lock()],
    cut at each access to the counter; in between, another thread may run a
    shared_ptr destructor (its own accesses taken consecutively). *)

Inductive lock_pc :=
| LockStart                 (* in lock(): about to evaluate expired()                 *)
| CtorCheck                 (* in shared_ptr(const weak_ptr&): about to evaluate
                               wp.expired()                                           *)
| CtorInc                   (* about to call _control_block->inc_ref()                *)
| LockDone (r : shared_ptr) (* lock() returned r                                      *)
| LockTerminated            (* bad_weak_ptr left the noexcept function                *)
| LockUndefined.

Definition lock_step (wp : weak_ptr) (pc : lock_pc) (m : mem) : lock_pc * mem :=
  match pc with
  | LockStart =>
      match weak_ptr_expired wp m with
      | Ret true m' => (LockDone shared_ptr_default, m')
      | Ret false m' => (CtorCheck, m')
      | _ => (LockUndefined, m)
      end
  | CtorCheck =>
      match weak_ptr_expired wp m with
      | Ret true m' => (LockTerminated, m')
      | Ret false m' => (CtorInc, m')
      | _ => (LockUndefined, m)
      end
  | CtorInc =>
      match inc_ref (wp_control_block wp) m with
      | Ret _ m' => (LockDone (mkShared (wp_ptr wp) (wp_control_block wp)), m')
      | _ => (LockUndefined, m)
      end
  | _ => (pc, m)
  end.

Inductive turn :=
| ThreadA                        (* the next atomic step of lock()              *)
| ThreadB (sp : shared_ptr).     (* another thread destroys its shared_ptr [sp] *)

Definition turn_step (wp : weak_ptr) (t : turn) (c : lock_pc * mem) : lock_pc * mem :=
  match t with
  | ThreadA => lock_step wp (fst c) (snd c)
  | ThreadB sp =>
      match shared_ptr_dtor sp (snd c) with
      | Ret _ m' => (fst c, m')
      | _ => (LockUndefined, snd c)
      end
  end.

Definition interleave (wp : weak_ptr) (ts : list turn) (c : lock_pc * mem) : lock_pc * mem :=
  fold_left (λ c t, turn_step wp t c) ts c.

(** The result of [lock()] as an outcome. *)
Definition lock_result (c : lock_pc * mem) : outcome shared_ptr :=
  match fst c with
  | LockDone r => Ret r (snd c)
  | LockTerminated => Terminate
  | _ => Undefined
  end.

(** One shared_ptr owning the object at [p] with deleter [d], and one
    weak_ptr taken from it. *)
Definition one_owner_one_observer (p : ptr) (d : deleter_t) : mem :=
  mkMem [mkCell (mkControlBlock 1 2 (mkPtr p d)) false] [].

(** ** [get_deleter]

    [control_block::get_deleter()] hands out the address of the deleter
    stored in the block and [sp::get_deleter<D>(sp)] casts it to [D*]
    without a check of [D] or of [sp._control_block]; what is found at that
    address is returned here. *)
Definition control_block_get_deleter (this : cbptr) : M deleter_t :=
  cb ← load this; ret (_impl_deleter (_impl cb)).

Definition get_deleter (sp : shared_ptr) : M deleter_t :=
  control_block_get_deleter (sp_control_block sp).

(** ** Properties of the memory kept by every operation *)

(** [c] keeps [P] whenever it returns or throws. *)
Definition preserves {A} (P : mem → Prop) (c : M A) : Prop :=
  ∀ m, P m →
       match c m with
       | Ret _ m' => P m'
       | Raise _ m' => P m'
       | Terminate => True
       | Undefined => True
       end.

(** Every deleter call in the log was made by a block of the memory, with
    the deleter and the (non-null) pointer that block holds. *)
Definition destroys_match (m : mem) : Prop :=
  ∀ a d p, EvDestroy a d p ∈ events m →
           ∃ c, cell_at a m = Some c ∧ _impl (block c) = mkPtr p d ∧ is_null p = false.

(** Block [S i] exists and holds the pointer [p] and the deleter [d]. *)
Definition holds_impl (i : nat) (p : ptr) (d : deleter_t) (m : mem) : Prop :=
  ∃ c, cells m !! i = Some c ∧ _impl (block c) = mkPtr p d.

(** [operator=(unique_ptr<U, D>&& up)]:
    [shared_ptr{ std::move(up) }.swap( *this)]. Returns the new [*this] and
    what is left in [up]. *)
Definition shared_ptr_assign_unique (this : shared_ptr) (up : unique_ptr) :
    M (shared_ptr * unique_ptr) :=
  r ← shared_ptr_of_unique up;
  let '(tmp, this) := shared_ptr_swap r.1 this in
  shared_ptr_dtor tmp ;;
  ret (this, r.2).

(** ** unique_ptr: the rest of the class, and programs over it *)

(** [unique_ptr()], [unique_ptr(nullptr_t)]: the tuple of [Ptr] is
    value-initialised, so the pointer is null; [d] is the value-initialised
    deleter of the type. *)
Definition unique_ptr_default (d : deleter_t) : unique_ptr := mkUnique (mkPtr nullptr d).

(** [explicit operator bool()] *)
Definition unique_ptr_bool (this : unique_ptr) : bool :=
  negb (is_null (_impl_ptr (up_impl this))).

(** [reset(T* p)]: [if (_ptr) _deleter(_ptr); _ptr = p;] *)
Definition unique_ptr_reset_ptr (this : unique_ptr) (p : ptr) : M unique_ptr :=
  let _ptr := _impl_ptr (up_impl this) in
  let _deleter := _impl_deleter (up_impl this) in
  (if is_null _ptr then ret tt else emit (EvUniqueDestroy _deleter _ptr));;
  ret (mkUnique (mkPtr p _deleter)).

(** [reset()]: [if (_ptr) _deleter(_ptr); _ptr = pointer{};] *)
Definition unique_ptr_reset (this : unique_ptr) : M unique_ptr :=
  let _ptr := _impl_ptr (up_impl this) in
  let _deleter := _impl_deleter (up_impl this) in
  (if is_null _ptr then ret tt else emit (EvUniqueDestroy _deleter _ptr));;
  ret (mkUnique (mkPtr nullptr _deleter)).

(** [operator=(nullptr_t)]: [reset(); return *this;] *)
Definition unique_ptr_assign_null (this : unique_ptr) : M unique_ptr :=
  unique_ptr_reset this.

(** [unique_ptr(unique_ptr&& up)]:
    [_impl{ up.release(), std::forward<deleter_type>(up.get_deleter()) }].
    Returns the new object and what is left in [up]; a deleter is a value
    that a move leaves as it is. *)
Definition unique_ptr_move (up : unique_ptr) : unique_ptr * unique_ptr :=
  let '(p, up) := unique_ptr_release up in
  (mkUnique (mkPtr p (unique_ptr_get_deleter up)), up).

(** [operator=(unique_ptr&& up)] with [up] another object:
    [reset(up.release()); _deleter = up.get_deleter(); return *this;].
    Returns the new [*this] and what is left in [up]. *)
Definition unique_ptr_move_assign (this up : unique_ptr) : M (unique_ptr * unique_ptr) :=
  let '(p, up) := unique_ptr_release up in
  this ← unique_ptr_reset_ptr this p;
  ret (mkUnique (mkPtr (unique_ptr_get this) (unique_ptr_get_deleter up)), up).

(** [operator=(unique_ptr&& up)] with [up] the object itself
    ([x = std::move(x)]): [up.release()] empties [*this] before [reset]
    looks at [_ptr]. *)
Definition unique_ptr_move_assign_self (this : unique_ptr) : M unique_ptr :=
  let '(p, this) := unique_ptr_release this in
  this ← unique_ptr_reset_ptr this p;
  ret (mkUnique (mkPtr (unique_ptr_get this) (unique_ptr_get_deleter this))).

(** [swap(unique_ptr& up)]: [swap(_impl, up._impl)]. *)
Definition unique_ptr_swap (this up : unique_ptr) : unique_ptr * unique_ptr := (up, this).

(** A program over unique_ptr objects: the log of deleter calls is the one of
    [mem]; [us_live] are the objects in scope. Two lists of book-keeping,
    which no operation reads: [us_taken], the (pointer, deleter) pairs the
    program handed to a unique_ptr, and [us_given], the pointers [release()]
    handed back, each with the deleter it left behind. *)
Record ustate := mkUState {
  us_mem : mem;
  us_live : list unique_ptr;
  us_taken : list Ptr;
  us_given : list Ptr
}.

Definition uinit : ustate := mkUState (mkMem [] []) [] [] [].

Inductive uop :=
| UpDefault (d : deleter_t)                    (* unique_ptr<T, D> u;            *)
| UpOfPtr (p : ptr)                            (* unique_ptr<T> u(p);            *)
| UpOfPtrDeleter (p : ptr) (d : deleter_t)     (* unique_ptr<T, D> u(p, d);      *)
| UpMove (i : nat)                             (* unique_ptr<T, D> u(move(u_i)); *)
| UpMoveAssign (i j : nat)                     (* u_i = move(u_j);               *)
| UpAssignNull (i : nat)                       (* u_i = nullptr;                 *)
| UpRelease (i : nat)                          (* T* q = u_i.release();          *)
| UpResetPtr (i : nat) (p : ptr)               (* u_i.reset(p);                  *)
| UpReset (i : nat)                            (* u_i.reset();                   *)
| UpSwap (i j : nat)                           (* u_i.swap(u_j);                 *)
| UpDestroy (i : nat).                         (* u_i goes out of scope          *)

(** The effect of a member function on the log, with its result. *)
Definition on_log {A} (c : M A) (s : ustate) (k : A → ustate → ustate) : option ustate :=
  match c (us_mem s) with
  | Ret x m => Some (k x (mkUState m (us_live s) (us_taken s) (us_given s)))
  | _ => None
  end.

Definition set_live (l : list unique_ptr) (s : ustate) : ustate :=
  mkUState (us_mem s) l (us_taken s) (us_given s).
Definition note_taken (x : Ptr) (s : ustate) : ustate :=
  mkUState (us_mem s) (us_live s) (us_taken s ++ [x]) (us_given s).
Definition note_given (x : Ptr) (s : ustate) : ustate :=
  mkUState (us_mem s) (us_live s) (us_taken s) (us_given s ++ [x]).

(** One statement; a statement that names an object which is not in scope
    is skipped. *)
Definition ustep (o : uop) (s : ustate) : option ustate :=
  let l := us_live s in
  match o with
  | UpDefault d => Some (set_live (l ++ [unique_ptr_default d]) s)
  | UpOfPtr p =>
      Some (note_taken (mkPtr p default_delete) (set_live (l ++ [unique_ptr_of_ptr p]) s))
  | UpOfPtrDeleter p d =>
      Some (note_taken (mkPtr p d) (set_live (l ++ [unique_ptr_of_ptr_deleter p d]) s))
  | UpMove i =>
      match l !! i with
      | Some up => let '(new, up) := unique_ptr_move up in
                   Some (set_live (<[i := up]> l ++ [new]) s)
      | None => Some s
      end
  | UpMoveAssign i j =>
      match l !! i, l !! j with
      | Some this, Some up =>
          if decide (i = j)
          then on_log (unique_ptr_move_assign_self this) s
                 (λ this s, set_live (<[i := this]> l) s)
          else on_log (unique_ptr_move_assign this up) s
                 (λ r s, set_live (<[i := r.1]> (<[j := r.2]> l)) s)
      | _, _ => Some s
      end
  | UpAssignNull i =>
      match l !! i with
      | Some this => on_log (unique_ptr_assign_null this) s
                       (λ this s, set_live (<[i := this]> l) s)
      | None => Some s
      end
  | UpRelease i =>
      match l !! i with
      | Some this => let '(p, this') := unique_ptr_release this in
                     Some (note_given (mkPtr p (unique_ptr_get_deleter this))
                             (set_live (<[i := this']> l) s))
      | None => Some s
      end
  | UpResetPtr i p =>
      match l !! i with
      | Some this => on_log (unique_ptr_reset_ptr this p) s
                       (λ this' s, note_taken (mkPtr p (unique_ptr_get_deleter this))
                                     (set_live (<[i := this']> l) s))
      | None => Some s
      end
  | UpReset i =>
      match l !! i with
      | Some this => on_log (unique_ptr_reset this) s
                       (λ this s, set_live (<[i := this]> l) s)
      | None => Some s
      end
  | UpSwap i j =>
      match l !! i, l !! j with
      | Some this, Some up =>
          let '(this', up') := unique_ptr_swap this up in
          Some (set_live (<[i := this']> (<[j := up']> l)) s)
      | _, _ => Some s
      end
  | UpDestroy i =>
      match l !! i with
      | Some this => on_log (unique_ptr_dtor this) s (λ _ s, set_live (delete i l) s)
      | None => Some s
      end
  end.

Fixpoint urun (ops : list uop) (s : ustate) : option ustate :=
  match ops with
  | [] => Some s
  | o :: ops => match ustep o s with Some s => urun ops s | None => None end
  end.

(** How many elements of a list pass a test. *)
Definition tally {A} (t : A → bool) (l : list A) : Z :=
  Z.of_nat (length (filter (λ x, t x = true) l)).

(** The deleter calls of unique_ptr objects in a log, as (pointer, deleter)
    pairs. *)
Definition unique_destroyed (ev : list event) : list Ptr :=
  omap (λ e, match e with EvUniqueDestroy d p => Some (mkPtr p d) | _ => None end) ev.

(** Tests on pairs: the pointer is [p]; the pair is [(p, d)]. *)
Definition deleter_eqb (d1 d2 : deleter_t) : bool :=
  match d1, d2 with
  | default_delete, default_delete => true
  | custom_deleter a, custom_deleter b => Nat.eqb a b
  | _, _ => false
  end.
Definition points_to (p : ptr) (x : Ptr) : bool := N.eqb (_impl_ptr x) p.
Definition is_pair (p : ptr) (d : deleter_t) (x : Ptr) : bool :=
  N.eqb (_impl_ptr x) p && deleter_eqb (_impl_deleter x) d.

(** Both sides of the balance of a class [t] of pairs. *)
Definition handed_in (t : Ptr → bool) (s : ustate) : Z := tally t (us_taken s).
Definition held (t : Ptr → bool) (s : ustate) : Z := tally t (up_impl <$> us_live s).
Definition deleted (t : Ptr → bool) (s : ustate) : Z :=
  tally t (unique_destroyed (events (us_mem s))).
Definition handed_back (t : Ptr → bool) (s : ustate) : Z := tally t (us_given s).

(** The balance holds for every class of pairs with a non-null pointer. *)
Definition balanced (s : ustate) : Prop :=
  ∀ t : Ptr → bool, (∀ d, t (mkPtr nullptr d) = false) →
    handed_in t s = held t s + deleted t s + handed_back t s.

(** * The minimal shared_ptr and unique_ptr (global namespace) *)

Module minimal.

(** ** shared_ptr: counter and deleter on the heap *)

(** Value of a pointer member. [_ref_count] and [_deleter] have no default
    member initialiser: after [shared_ptr<T> s;] and [shared_ptr(nullptr_t)]
    they are [Indeterminate]. [Addr 0] is [nullptr], [Addr (S i)] the
    [i]-th allocation. *)
Inductive member :=
| Indeterminate
| Addr (a : nat).

(** A [std::atomic<long>] on the heap. [made_for] is book-keeping that no
    operation reads: the pointer whose constructor allocated the counter. *)
Record counter := mkCounter {
  value : Z;
  freed : bool;
  made_for : ptr
}.

Inductive hevent :=
| DeleteCounter (a : nat)              (* [delete _ref_count]                       *)
| CallDeleter (a : nat) (p : ptr)      (* [( *_deleter)(_ptr)]: [delete (T* )p]      *)
| DeleteDeleter (a : nat).             (* [delete _deleter]                         *)

(** The counters, the [deleter<T>] objects ([true]: deleted), the log. *)
Record heap := mkHeap {
  counters : list counter;
  deleters : list bool;
  log : list hevent
}.

Record shared_ptr := mkShared {
  _ptr : ptr;
  _ref_count : member;
  _deleter : member
}.

(** A member function either returns, or has undefined behaviour ([None]):
    the value of an indeterminate member is read, or a null or dangling
    pointer is dereferenced or deleted. *)
Definition cmd (A : Type) : Type := heap → option (A * heap).

Definition ret {A} (x : A) : cmd A := λ h, Some (x, h).
Definition bind {A B} (c : cmd A) (k : A → cmd B) : cmd B := λ h,
  match c h with
  | Some (x, h') => k x h'
  | None => None
  end.
#[export] Instance cmd_ret : MRet cmd := @ret.
#[export] Instance cmd_bind : MBind cmd := λ A B k c, bind c k.

(** Reading a pointer member ([sp._ref_count] as a value, to copy, move or
    swap it): the value of a member that was never initialised may not be
    read. *)
Definition read_member (c : member) : cmd member := λ h,
  match c with
  | Indeterminate => None
  | Addr _ => Some (c, h)
  end.

(** [new std::atomic<long>{v}] on behalf of [shared_ptr(p)] *)
Definition new_counter (v : Z) (p : ptr) : cmd member := λ h,
  Some (Addr (S (length (counters h))),
        mkHeap (counters h ++ [mkCounter v false p]) (deleters h) (log h)).

(** [new deleter<T>()] *)
Definition new_deleter : cmd member := λ h,
  Some (Addr (S (length (deleters h))),
        mkHeap (counters h) (deleters h ++ [false]) (log h)).

(** The live counter a member points at. *)
Definition deref (c : member) (h : heap) : option (nat * counter) :=
  match c with
  | Addr (S i) =>
      match counters h !! i with
      | Some k => if freed k then None else Some (i, k)
      | None => None
      end
  | _ => None
  end.

Definition store (i : nat) (k : counter) (h : heap) : heap :=
  mkHeap (<[i := k]> (counters h)) (deleters h) (log h).

(** [*_ref_count] *)
Definition read (c : member) : cmd Z := λ h,
  match deref c h with
  | Some (_, k) => Some (value k, h)
  | None => None
  end.

(** [++( *_ref_count)], [--( *_ref_count)]: the new value. *)
Definition incr (c : member) : cmd Z := λ h,
  match deref c h with
  | Some (i, k) =>
      let v := long_wrap (value k + 1) in
      Some (v, store i (mkCounter v false (made_for k)) h)
  | None => None
  end.

Definition decr (c : member) : cmd Z := λ h,
  match deref c h with
  | Some (i, k) =>
      let v := long_wrap (value k - 1) in
      Some (v, store i (mkCounter v false (made_for k)) h)
  | None => None
  end.

(** [delete _ref_count] *)
Definition delete_counter (c : member) : cmd unit := λ h,
  match c with
  | Addr O => Some (tt, h)
  | _ =>
      match deref c h with
      | Some (i, k) =>
          Some (tt, mkHeap (<[i := mkCounter (value k) true (made_for k)]> (counters h))
                      (deleters h) (log h ++ [DeleteCounter (S i)]))
      | None => None
      end
  end.

(** The live deleter object a member points at. *)
Definition deref_deleter (d : member) (h : heap) : option nat :=
  match d with
  | Addr (S j) =>
      match deleters h !! j with
      | Some false => Some j
      | _ => None
      end
  | _ => None
  end.

(** [( *_deleter)(_ptr)] *)
Definition call_deleter (d : member) (p : ptr) : cmd unit := λ h,
  match deref_deleter d h with
  | Some j => Some (tt, mkHeap (counters h) (deleters h) (log h ++ [CallDeleter (S j) p]))
  | None => None
  end.

(** [delete _deleter] *)
Definition delete_deleter (d : member) : cmd unit := λ h,
  match d with
  | Addr O => Some (tt, h)
  | _ =>
      match deref_deleter d h with
      | Some j =>
          Some (tt, mkHeap (counters h) (<[j := true]> (deleters h))
                      (log h ++ [DeleteDeleter (S j)]))
      | None => None
      end
  end.

(** [shared_ptr<T> s;], [shared_ptr(nullptr_t)]: only [_ptr] is initialised. *)
Definition shared_ptr_default : shared_ptr := mkShared nullptr Indeterminate Indeterminate.

(** [shared_ptr(T* p)]: the members are initialised in declaration order
    (allocation is taken to succeed). *)
Definition shared_ptr_of_ptr (p : ptr) : cmd shared_ptr :=
  c ← new_counter 1 p;
  d ← new_deleter;
  ret (mkShared p c d).

(** [shared_ptr(const shared_ptr& sp)]: the three members are copied, then
    [if (_ptr) ++( *_ref_count)]. *)
Definition shared_ptr_copy (sp : shared_ptr) : cmd shared_ptr :=
  c ← read_member (_ref_count sp);
  d ← read_member (_deleter sp);
  let this := mkShared (_ptr sp) c d in
  if is_null (_ptr this) then ret this
  else incr (_ref_count this);; ret this.

(** [shared_ptr(shared_ptr&& sp)]: the new object and what is left in [sp]. *)
Definition shared_ptr_move (sp : shared_ptr) : cmd (shared_ptr * shared_ptr) :=
  c ← read_member (_ref_count sp);
  d ← read_member (_deleter sp);
  ret (mkShared (_ptr sp) c d, mkShared nullptr (Addr O) (Addr O)).

(** [~shared_ptr()] *)
Definition shared_ptr_dtor (this : shared_ptr) : cmd unit :=
  if is_null (_ptr this) then ret tt
  else
    v ← decr (_ref_count this);
    if v =? 0 then
      delete_counter (_ref_count this);;
      call_deleter (_deleter this) (_ptr this);;
      delete_deleter (_deleter this)
    else ret tt.

(** [swap(shared_ptr& sp)]: [std::swap] of the three members, which reads
    both values of each. The new [*this] and the new [sp]. *)
Definition shared_ptr_swap (this sp : shared_ptr) : cmd (shared_ptr * shared_ptr) :=
  c1 ← read_member (_ref_count this);
  c2 ← read_member (_ref_count sp);
  d1 ← read_member (_deleter this);
  d2 ← read_member (_deleter sp);
  ret (mkShared (_ptr sp) c2 d2, mkShared (_ptr this) c1 d1).

(** [operator=(const shared_ptr& sp)]: [shared_ptr tmp{sp}; tmp.swap( *this);
    return *this;], then [tmp] goes out of scope. [sp] is not written, so
    the same text serves [x = x]. Here and below [r] is what the swap
    leaves: [r.1] in [tmp], [r.2] in [*this]. *)
Definition shared_ptr_assign (this sp : shared_ptr) : cmd shared_ptr :=
  tmp ← shared_ptr_copy sp;
  r ← shared_ptr_swap tmp this;
  shared_ptr_dtor r.1;;
  ret r.2.

(** [operator=(shared_ptr&& sp)] with [sp] another object:
    [shared_ptr{ std::move(sp) }.swap( *this)]. Returns the new [*this] and
    what is left in [sp]. *)
Definition shared_ptr_move_assign (this sp : shared_ptr) : cmd (shared_ptr * shared_ptr) :=
  m ← shared_ptr_move sp;
  r ← shared_ptr_swap m.1 this;
  shared_ptr_dtor r.1;;
  ret (r.2, m.2).

(** [operator=(shared_ptr&& sp)] with [sp] the object itself: the move
    constructor of the temporary empties [*this] before the swap. *)
Definition shared_ptr_move_assign_self (this : shared_ptr) : cmd shared_ptr :=
  m ← shared_ptr_move this;
  r ← shared_ptr_swap m.1 m.2;
  shared_ptr_dtor r.1;;
  ret r.2.

(** [shared_ptr tmp{}]: the default constructor is defaulted on its first
    declaration, so the empty braces zero-initialise the object first. *)
Definition shared_ptr_value_init : shared_ptr := mkShared nullptr (Addr O) (Addr O).

(** [reset()]: [shared_ptr tmp{}; tmp.swap( *this);] *)
Definition shared_ptr_reset (this : shared_ptr) : cmd shared_ptr :=
  let tmp := shared_ptr_value_init in
  r ← shared_ptr_swap tmp this;
  shared_ptr_dtor r.1;;
  ret r.2.

(** [reset(U* p)]: [shared_ptr tmp{p}; tmp.swap( *this);] *)
Definition shared_ptr_reset_ptr (this : shared_ptr) (p : ptr) : cmd shared_ptr :=
  tmp ← shared_ptr_of_ptr p;
  r ← shared_ptr_swap tmp this;
  shared_ptr_dtor r.1;;
  ret r.2.

(** [get()], [operator bool()] *)
Definition shared_ptr_get (this : shared_ptr) : ptr := _ptr this.
Definition shared_ptr_bool (this : shared_ptr) : bool := negb (is_null (_ptr this)).

(** [use_count()]: [if (_ptr) return *_ref_count; else return 0;] *)
Definition shared_ptr_use_count (this : shared_ptr) : cmd Z :=
  if is_null (_ptr this) then ret 0 else read (_ref_count this).

(** [unique()] *)
Definition shared_ptr_unique (this : shared_ptr) : cmd bool :=
  n ← shared_ptr_use_count this; ret (n =? 1).

(** ** Programs over the minimal shared_ptr *)

Record state := mkState {
  st_heap : heap;
  st_live : list shared_ptr
}.

Definition init_state : state := mkState (mkHeap [] [] []) [].

Inductive op :=
| SpDefault                       (* shared_ptr<T> s;           *)
| SpOfPtr (p : ptr)               (* shared_ptr<T> s(p);        *)
| SpCopy (i : nat)                (* shared_ptr<T> s(s_i);      *)
| SpMove (i : nat)                (* shared_ptr<T> s(move(s_i)) *)
| SpAssign (i j : nat)            (* s_i = s_j;                 *)
| SpMoveAssign (i j : nat)        (* s_i = move(s_j);           *)
| SpReset (i : nat)               (* s_i.reset();               *)
| SpResetPtr (i : nat) (p : ptr)  (* s_i.reset(p);              *)
| SpSwap (i j : nat)              (* s_i.swap(s_j);             *)
| SpDestroy (i : nat).            (* s_i goes out of scope      *)

Definition on_heap {A} (c : cmd A) (s : state) (k : A → list shared_ptr) : option state :=
  match c (st_heap s) with
  | Some (x, h) => Some (mkState h (k x))
  | None => None
  end.

(** One statement; a statement that names an object which is not in scope
    is skipped. *)
Definition step (o : op) (s : state) : option state :=
  let l := st_live s in
  match o with
  | SpDefault => Some (mkState (st_heap s) (l ++ [shared_ptr_default]))
  | SpOfPtr p => on_heap (shared_ptr_of_ptr p) s (λ new, l ++ [new])
  | SpCopy i =>
      match l !! i with
      | Some sp => on_heap (shared_ptr_copy sp) s (λ new, l ++ [new])
      | None => Some s
      end
  | SpMove i =>
      match l !! i with
      | Some sp => on_heap (shared_ptr_move sp) s (λ r, <[i := r.2]> l ++ [r.1])
      | None => Some s
      end
  | SpAssign i j =>
      match l !! i, l !! j with
      | Some this, Some sp => on_heap (shared_ptr_assign this sp) s (λ this, <[i := this]> l)
      | _, _ => Some s
      end
  | SpMoveAssign i j =>
      match l !! i, l !! j with
      | Some this, Some sp =>
          if decide (i = j)
          then on_heap (shared_ptr_move_assign_self this) s (λ this, <[i := this]> l)
          else on_heap (shared_ptr_move_assign this sp) s
                 (λ r, <[i := r.1]> (<[j := r.2]> l))
      | _, _ => Some s
      end
  | SpReset i =>
      match l !! i with
      | Some this => on_heap (shared_ptr_reset this) s (λ this, <[i := this]> l)
      | None => Some s
      end
  | SpResetPtr i p =>
      match l !! i with
      | Some this => on_heap (shared_ptr_reset_ptr this p) s (λ this, <[i := this]> l)
      | None => Some s
      end
  | SpSwap i j =>
      match l !! i, l !! j with
      | Some this, Some sp =>
          on_heap (shared_ptr_swap this sp) s (λ r, <[i := r.1]> (<[j := r.2]> l))
      | _, _ => Some s
      end
  | SpDestroy i =>
      match l !! i with
      | Some this => on_heap (shared_ptr_dtor this) s (λ _, delete i l)
      | None => Some s
      end
  end.

Fixpoint run (ops : list op) (s : state) : option state :=
  match ops with
  | [] => Some s
  | o :: ops => match step o s with Some s => run ops s | None => None end
  end.

(** ** Observables *)

(** A pointer member of the object was never initialised. *)
Definition indeterminate (x : shared_ptr) : Prop :=
  _ref_count x = Indeterminate ∨ _deleter x = Indeterminate.

Definition determinate (x : shared_ptr) : Prop :=
  ∃ c d, _ref_count x = Addr c ∧ _deleter x = Addr d.

(** The objects whose pointer members a statement copies, moves or swaps. *)
Definition reads (o : op) : list nat :=
  match o with
  | SpDefault | SpOfPtr _ | SpDestroy _ => []
  | SpCopy i | SpMove i | SpReset i | SpResetPtr i _ => [i]
  | SpAssign i j | SpMoveAssign i j | SpSwap i j => [i; j]
  end.

(** The statement reads a pointer member that was never initialised. *)
Definition reads_indeterminate (o : op) (s : state) : Prop :=
  ∃ i x, i ∈ reads o ∧ st_live s !! i = Some x ∧ indeterminate x.

(** The object holds a non-null pointer and its [_ref_count] is counter [i]. *)
Definition shares (i : nat) (x : shared_ptr) : bool :=
  negb (is_null (_ptr x)) &&
  match _ref_count x with Addr a => Nat.eqb a (S i) | Indeterminate => false end.

Definition sharers (i : nat) (l : list shared_ptr) : Z := tally (shares i) l.

Definition about (i : nat) (e : hevent) : bool :=
  match e with
  | DeleteCounter a | CallDeleter a _ | DeleteDeleter a => Nat.eqb a (S i)
  end.

(** What the log says of allocation [i]. *)
Definition events_of (i : nat) (ev : list hevent) : list hevent :=
  filter (λ e, about i e = true) ev.

(** What the last owner's destructor does, in its order. *)
Definition teardown (i : nat) (p : ptr) : list hevent :=
  [DeleteCounter (S i); CallDeleter (S i) p; DeleteDeleter (S i)].

(** Counter [i], with its deleter object, against the objects in scope. *)
Definition counter_ok (h : heap) (l : list shared_ptr) (i : nat) (k : counter) : Prop :=
  ∃ dl, deleters h !! i = Some dl ∧
    if is_null (made_for k)
    then value k = 1 ∧ freed k = false ∧ dl = false ∧ events_of i (log h) = []
    else value k = sharers i l ∧
         freed k = (sharers i l =? 0) ∧ dl = (sharers i l =? 0) ∧
         events_of i (log h) = if sharers i l =? 0 then teardown i (made_for k) else [].

(** An object that holds a pointer holds the counter and the deleter that
    were allocated for it. *)
Definition object_ok (h : heap) (x : shared_ptr) : Prop :=
  is_null (_ptr x) = false →
  ∃ i k, _ref_count x = Addr (S i) ∧ _deleter x = Addr (S i) ∧
         counters h !! i = Some k ∧ made_for k = _ptr x.

Definition Inv (s : state) : Prop :=
  (∀ i k, counters (st_heap s) !! i = Some k → counter_ok (st_heap s) (st_live s) i k) ∧
  Forall (object_ok (st_heap s)) (st_live s) ∧
  (∀ i e, e ∈ log (st_heap s) → about i e = true → (i < length (counters (st_heap s)))%nat) ∧
  length (deleters (st_heap s)) = length (counters (st_heap s)).

(** A heap [h'] keeps what [h] says of the allocations: none is lost, none
    changes the pointer it was made for. *)
Definition keeps (h h' : heap) : Prop :=
  ∀ i k, counters h !! i = Some k →
         ∃ k', counters h' !! i = Some k' ∧ made_for k' = made_for k.

(** What one statement keeps. *)
Definition step_post (s s' : state) : Prop :=
  Inv s' ∧ keeps (st_heap s) (st_heap s') ∧
  (length (st_live s') ≤ S (length (st_live s)))%nat.

End minimal.

(** ** The minimal unique_ptr *)

Module minimal_unique.

Record unique_ptr := mkUnique { _ptr : ptr }.

(** [unique_ptr()], [unique_ptr(nullptr_t)], [unique_ptr(T* p)] *)
Definition unique_ptr_default : unique_ptr := mkUnique nullptr.
Definition unique_ptr_of_ptr (p : ptr) : unique_ptr := mkUnique p.

(** [~unique_ptr()]: [if (_ptr) delete(_ptr);]. The pointers deleted. *)
Definition unique_ptr_dtor (this : unique_ptr) : list ptr :=
  if is_null (_ptr this) then [] else [_ptr this].

(** [get()], [operator bool()] *)
Definition unique_ptr_get (this : unique_ptr) : ptr := _ptr this.
Definition unique_ptr_bool (this : unique_ptr) : bool := negb (is_null (_ptr this)).

(** [release()]: the returned pointer and the new [*this]. *)
Definition unique_ptr_release (this : unique_ptr) : ptr * unique_ptr :=
  let cp := _ptr this in (cp, mkUnique nullptr).

(** [swap(unique_ptr& up)]: the new [*this] and the new [up]. *)
Definition unique_ptr_swap (this up : unique_ptr) : unique_ptr * unique_ptr :=
  (mkUnique (_ptr up), mkUnique (_ptr this)).

(** [reset(T* p = nullptr)]: [unique_ptr tmp{p}; tmp.swap( *this);], then
    [tmp] goes out of scope. The new [*this] and the pointers deleted. *)
Definition unique_ptr_reset (this : unique_ptr) (p : ptr) : unique_ptr * list ptr :=
  let tmp := unique_ptr_of_ptr p in
  let '(tmp, this) := unique_ptr_swap tmp this in
  (this, unique_ptr_dtor tmp).

(** Programs: the objects in scope and the pointers deleted so far. *)
Record state := mkState {
  st_live : list unique_ptr;
  st_deleted : list ptr
}.

Definition init_state : state := mkState [] [].

Inductive op :=
| UpDefault                       (* unique_ptr<T> u;        *)
| UpOfPtr (p : ptr)               (* unique_ptr<T> u(p);     *)
| UpRelease (i : nat)             (* T* q = u_i.release();   *)
| UpReset (i : nat) (p : ptr)     (* u_i.reset(p);           *)
| UpSwap (i j : nat)              (* u_i.swap(u_j);          *)
| UpDestroy (i : nat).            (* u_i goes out of scope   *)

(** One statement; a statement that names an object which is not in scope
    is skipped. *)
Definition step (o : op) (s : state) : state :=
  let l := st_live s in
  match o with
  | UpDefault => mkState (l ++ [unique_ptr_default]) (st_deleted s)
  | UpOfPtr p => mkState (l ++ [unique_ptr_of_ptr p]) (st_deleted s)
  | UpRelease i =>
      match l !! i with
      | Some this => mkState (<[i := (unique_ptr_release this).2]> l) (st_deleted s)
      | None => s
      end
  | UpReset i p =>
      match l !! i with
      | Some this => let '(this, del) := unique_ptr_reset this p in
                     mkState (<[i := this]> l) (st_deleted s ++ del)
      | None => s
      end
  | UpSwap i j =>
      match l !! i, l !! j with
      | Some this, Some up =>
          let '(this, up) := unique_ptr_swap this up in
          mkState (<[i := this]> (<[j := up]> l)) (st_deleted s)
      | _, _ => s
      end
  | UpDestroy i =>
      match l !! i with
      | Some this => mkState (delete i l) (st_deleted s ++ unique_ptr_dtor this)
      | None => s
      end
  end.

Definition run (ops : list op) (s : state) : state := foldl (λ s o, step o s) s ops.

End minimal_unique.

(** The same program over [sp::unique_ptr<T>] with its default deleter. *)
Definition as_sp_op (o : minimal_unique.op) : uop :=
  match o with
  | minimal_unique.UpDefault => UpDefault default_delete
  | minimal_unique.UpOfPtr p => UpOfPtr p
  | minimal_unique.UpRelease i => UpRelease i
  | minimal_unique.UpReset i p => UpResetPtr i p
  | minimal_unique.UpSwap i j => UpSwap i j
  | minimal_unique.UpDestroy i => UpDestroy i
  end.

Definition as_sp_unique_ptr (u : minimal_unique.unique_ptr) : unique_ptr :=
  mkUnique (mkPtr (minimal_unique._ptr u) default_delete).

(** The two programs are in step: same pointers in the same objects, same
    deletions in the same order. *)
Definition in_step (s : minimal_unique.state) (su : ustate) : Prop :=
  us_live su = as_sp_unique_ptr <$> minimal_unique.st_live s ∧
  events (us_mem su) = EvUniqueDestroy default_delete <$> minimal_unique.st_deleted s ∧
  cells (us_mem su) = [].
(** ** Arithmetic of [long] *)

Lemma long_wrap_id z : in_long z → long_wrap z = z.
Proof.
  unfold in_long, LONG_MIN, LONG_MAX, long_wrap. intros H.
  rewrite Z.mod_small; lia.
Qed.

Lemma long_wrap_range z : in_long (long_wrap z).
Proof.
  unfold in_long, LONG_MIN, LONG_MAX, long_wrap.
  pose proof (Z.mod_pos_bound (z + 2 ^ 63) (2 ^ 64) ltac:(lia)). lia.
Qed.

Lemma LONG_MAX_pos : 1 < LONG_MAX.
Proof. unfold LONG_MAX. lia. Qed.

(** ** Counting lemmas *)

Section counting.
Context {A : Type} (f : A → cbptr).

Lemma count_by_nil a : count_by f a [] = 0.
Proof. reflexivity. Qed.

Lemma count_by_cons a x l :
  count_by f a (x :: l) = ind (f x = a) + count_by f a l.
Proof.
  unfold count_by, ind. rewrite filter_cons.
  destruct (decide (f x = a)); simpl; lia.
Qed.

Lemma count_by_app a l1 l2 :
  count_by f a (l1 ++ l2) = count_by f a l1 + count_by f a l2.
Proof. unfold count_by. rewrite list.filter_app, length_app. lia. Qed.

Lemma count_by_snoc a l x :
  count_by f a (l ++ [x]) = count_by f a l + ind (f x = a).
Proof. rewrite count_by_app, count_by_cons, count_by_nil. lia. Qed.

Lemma count_by_nonneg a l : 0 ≤ count_by f a l.
Proof. unfold count_by. lia. Qed.

Lemma count_by_le_length a l : count_by f a l ≤ Z.of_nat (length l).
Proof. unfold count_by. pose proof (length_filter (λ x, f x = a) l). lia. Qed.

Lemma count_by_insert a l i x y :
  l !! i = Some y →
  count_by f a (<[i := x]> l) = count_by f a l - ind (f y = a) + ind (f x = a).
Proof.
  revert i. induction l as [|z l IH]; intros [|i] Hi; simpl in *; try done.
  - inversion Hi; subst. rewrite !count_by_cons. lia.
  - rewrite !count_by_cons, (IH _ Hi). lia.
Qed.

Lemma count_by_delete a l i y :
  l !! i = Some y →
  count_by f a (delete i l) = count_by f a l - ind (f y = a).
Proof.
  revert i. induction l as [|z l IH]; intros [|i] Hi; simpl in *; try done.
  - inversion Hi; subst. rewrite !count_by_cons. lia.
  - rewrite !count_by_cons, (IH _ Hi). lia.
Qed.

Lemma count_by_lookup a l i y :
  l !! i = Some y → f y = a → 1 ≤ count_by f a l.
Proof.
  revert i. induction l as [|z l IH]; intros [|i] Hi Hy; simpl in *; try done.
  - inversion Hi; subst. rewrite count_by_cons. unfold ind.
    rewrite decide_True by done. pose proof (count_by_nonneg (f y) l). lia.
  - rewrite count_by_cons. unfold ind. specialize (IH _ Hi Hy).
    destruct (decide (f z = a)); lia.
Qed.

Lemma count_by_zero_not_elem a l x :
  count_by f a l = 0 → x ∈ l → f x ≠ a.
Proof.
  intros H0 Hx Hfa. apply list_elem_of_lookup in Hx as [i Hi].
  pose proof (count_by_lookup a l i x Hi Hfa). lia.
Qed.
End counting.

Section event_counting.
Implicit Types (a : cbptr) (ev : list event).

Lemma destroys_app a ev1 ev2 : destroys a (ev1 ++ ev2) = (destroys a ev1 + destroys a ev2)%nat.
Proof. unfold destroys. by rewrite list.filter_app, length_app. Qed.

Lemma releases_app a ev1 ev2 : releases a (ev1 ++ ev2) = (releases a ev1 + releases a ev2)%nat.
Proof. unfold releases. by rewrite list.filter_app, length_app. Qed.

Lemma destroys_single a e : destroys a [e] = if is_destroy a e then 1%nat else 0%nat.
Proof. unfold destroys. rewrite filter_cons. by destruct (is_destroy a e). Qed.

Lemma releases_single a e : releases a [e] = if is_release a e then 1%nat else 0%nat.
Proof. unfold releases. rewrite filter_cons. by destruct (is_release a e). Qed.

Lemma destroys_pos_elem a ev :
  (0 < destroys a ev)%nat → ∃ d p, EvDestroy a d p ∈ ev.
Proof.
  induction ev as [|e ev IH]; simpl; [unfold destroys; simpl; lia|].
  change (e :: ev) with ([e] ++ ev). rewrite destroys_app, destroys_single.
  destruct (is_destroy a e) eqn:He.
  - intros _. destruct e as [a' d p| |]; simpl in He; try done.
    apply Nat.eqb_eq in He as ->. exists d, p. apply list_elem_of_here.
  - intros H. destruct IH as (d & p & Hin); [lia|].
    exists d, p. by apply list_elem_of_further.
Qed.

Lemma destroy_before_release_nil a : destroy_before_release a [].
Proof. intros [|? l1] l2 H; simpl in H; discriminate. Qed.

Lemma destroy_before_release_snoc a ev e :
  destroy_before_release a ev →
  (e = EvRelease a → ∃ d p, EvDestroy a d p ∈ ev) →
  destroy_before_release a (ev ++ [e]).
Proof.
  intros Hev He l1 l2 Heq.
  destruct (list_eq_nil_dec l2) as [->|Hne].
  - apply app_inj_tail in Heq as [-> ->]. by apply He.
  - destruct (exists_last Hne) as (l2' & e' & ->).
    change (l1 ++ EvRelease a :: l2' ++ [e']) with (l1 ++ (EvRelease a :: l2') ++ [e']) in Heq.
    rewrite app_assoc in Heq. apply app_inj_tail in Heq as [-> ->].
    by eapply Hev.
Qed.

Lemma destroy_before_release_zero a ev :
  releases a ev = 0%nat → destroy_before_release a ev.
Proof.
  intros H0 l1 l2 ->. rewrite releases_app in H0.
  change (EvRelease a :: l2) with ([EvRelease a] ++ l2) in H0.
  rewrite releases_app, releases_single in H0. simpl in H0.
  rewrite Nat.eqb_refl in H0. lia.
Qed.
End event_counting.

(** ** Evaluation of the control-block primitives *)

Section prim_eval.
Implicit Types (m : mem) (c : cell) (i : nat).

Lemma load_live m i c :
  cells m !! i = Some c → released c = false → load (S i) m = Ret (block c) m.
Proof. intros Hc Hr. unfold load. simpl. by rewrite Hc, Hr. Qed.

Lemma update_live m i c f :
  cells m !! i = Some c → released c = false →
  update (S i) f m =
  Ret (f (block c)) (mkMem (<[i := mkCell (f (block c)) false]> (cells m)) (events m)).
Proof. intros Hc Hr. unfold update. by rewrite (load_live _ _ _ Hc Hr). Qed.

Lemma inc_ref_eval m i c :
  cells m !! i = Some c → released c = false →
  inc_ref (S i) m =
  Ret tt (mkMem (<[i := mkCell (set_use_count (long_wrap (_use_count (block c) + 1))
                                  (block c)) false]> (cells m)) (events m)).
Proof.
  intros Hc Hr. unfold inc_ref, mbind, M_bind, bind.
  by rewrite (update_live _ _ _ _ Hc Hr).
Qed.

Lemma inc_wref_eval m i c :
  cells m !! i = Some c → released c = false →
  inc_wref (S i) m =
  Ret tt (mkMem (<[i := mkCell (set_weak_use_count
                                  (long_wrap (_weak_use_count (block c) + 1))
                                  (block c)) false]> (cells m)) (events m)).
Proof.
  intros Hc Hr. unfold inc_wref, mbind, M_bind, bind.
  by rewrite (update_live _ _ _ _ Hc Hr).
Qed.

Lemma dec_wref_eval m i c :
  cells m !! i = Some c → released c = false →
  dec_wref (S i) m =
  Ret tt (mkMem (<[i := dec_wref_cell (block c)]> (cells m))
                (events m ++ dec_wref_events (S i) (block c))).
Proof.
  intros Hc Hr. unfold dec_wref, mbind, M_bind, bind.
  rewrite (update_live _ _ _ _ Hc Hr).
  unfold dec_wref_cell, dec_wref_events. simpl.
  destruct (long_wrap (_weak_use_count (block c) - 1) =? 0) eqn:Hw.
  - unfold delete_this.
    erewrite load_live; [|simpl; apply list_lookup_insert_eq; by eapply lookup_lt_Some|done].
    simpl. by rewrite list_insert_insert_eq.
  - unfold ret. by rewrite app_nil_r.
Qed.

Lemma dec_ref_eval m i c :
  cells m !! i = Some c → released c = false →
  dec_ref (S i) m =
  Ret tt (mkMem (<[i := dec_ref_cell (block c)]> (cells m))
                (events m ++ dec_ref_events (S i) (block c))).
Proof.
  intros Hc Hr. unfold dec_ref, mbind, M_bind, bind.
  rewrite (load_live _ _ _ Hc Hr), (update_live _ _ _ _ Hc Hr).
  unfold dec_ref_cell, dec_ref_events. simpl.
  pose proof (lookup_lt_Some _ _ _ Hc) as Hlt.
  destruct (long_wrap (_use_count (block c) - 1) =? 0) eqn:Hu.
  - destruct (is_null (_impl_ptr (_impl (block c)))); unfold ret, emit; simpl.
    + erewrite dec_wref_eval; [|simpl; by apply list_lookup_insert_eq|done].
      simpl. by rewrite list_insert_insert_eq.
    + erewrite dec_wref_eval; [|simpl; by apply list_lookup_insert_eq|done].
      simpl. by rewrite list_insert_insert_eq, <- app_assoc.
  - unfold ret. by rewrite app_nil_r.
Qed.
End prim_eval.

(** ** Preservation of the counting invariant by the primitives *)

Section wf_lemmas.
Implicit Types (m : mem) (c : cell) (i : nat) (ns nw : cbptr → Z).

Lemma mem_ext_refl m : mem_ext m m.
Proof. split; [done|]. intros i c Hc. by exists c. Qed.

Lemma mem_ext_trans m1 m2 m3 : mem_ext m1 m2 → mem_ext m2 m3 → mem_ext m1 m3.
Proof.
  intros [Hp1 Hc1] [Hp2 Hc2]. split; [by etrans|].
  intros i c Hc. destruct (Hc1 _ _ Hc) as (c' & Hc' & He).
  destruct (Hc2 _ _ Hc') as (c'' & Hc'' & He'). exists c''. split; [done|congruence].
Qed.

Lemma mem_ext_update m i c c' evs :
  cells m !! i = Some c → _impl (block c') = _impl (block c) →
  mem_ext m (mkMem (<[i := c']> (cells m)) (events m ++ evs)).
Proof.
  intros Hc Hi. split; simpl; [by apply prefix_app_r|].
  intros j d Hd. destruct (decide (i = j)) as [->|Hne].
  - exists c'. rewrite list_lookup_insert_eq by (by eapply lookup_lt_Some).
    split; [done|congruence].
  - exists d. by rewrite list_lookup_insert_ne.
Qed.

Lemma mem_ext_alloc m c :
  mem_ext m (mkMem (cells m ++ [c]) (events m)).
Proof.
  split; simpl; [done|]. intros j d Hd. exists d.
  split; [|done]. by apply lookup_app_l_Some.
Qed.

Lemma wf_ext m ns nw ns' nw' :
  (∀ a, a ≠ O → ns a = ns' a) → (∀ a, a ≠ O → nw a = nw' a) →
  wf m ns nw → wf m ns' nw'.
Proof.
  intros Hs Hw [H1 H2]. split.
  - intros i c Hc. rewrite <- Hs, <- Hw by done. by apply H1.
  - intros i Hc. rewrite <- Hs, <- Hw by done. by apply H2.
Qed.

Lemma destroys_app_other b ev evs :
  Forall (λ e, is_destroy b e = false) evs → destroys b (ev ++ evs) = destroys b ev.
Proof.
  intros HF. rewrite destroys_app. enough (destroys b evs = 0%nat) by lia.
  induction HF as [|e evs He _ IH]; [done|].
  change (e :: evs) with ([e] ++ evs). by rewrite destroys_app, destroys_single, He, IH.
Qed.

Lemma releases_app_other b ev evs :
  Forall (λ e, is_release b e = false) evs → releases b (ev ++ evs) = releases b ev.
Proof.
  intros HF. rewrite releases_app. enough (releases b evs = 0%nat) by lia.
  induction HF as [|e evs He _ IH]; [done|].
  change (e :: evs) with ([e] ++ evs). by rewrite releases_app, releases_single, He, IH.
Qed.

Lemma destroy_before_release_app_other b ev evs :
  Forall (λ e, is_release b e = false) evs →
  destroy_before_release b ev → destroy_before_release b (ev ++ evs).
Proof.
  induction evs as [|e evs IH] using rev_ind; intros HF Hev.
  - by rewrite app_nil_r.
  - apply Forall_app in HF as [HF He]. rewrite app_assoc.
    apply destroy_before_release_snoc; [by apply IH|].
    intros ->. rewrite Forall_singleton in He. unfold is_release in He.
    by rewrite Nat.eqb_refl in He.
Qed.

Lemma cell_ok_other b c x y ev evs :
  Forall (λ e, is_destroy b e = false ∧ is_release b e = false) evs →
  cell_ok b c x y ev → cell_ok b c x y (ev ++ evs).
Proof.
  intros HF [].
  assert (Forall (λ e, is_destroy b e = false) evs) as HFd.
  { eapply Forall_impl; [|exact HF]. by intros e [? ?]. }
  assert (Forall (λ e, is_release b e = false) evs) as HFr.
  { eapply Forall_impl; [|exact HF]. by intros e [? ?]. }
  split; try done.
  - by rewrite releases_app_other.
  - by rewrite destroys_app_other.
  - intros Hn. apply destroy_before_release_app_other; auto.
Qed.

(** One cell is rewritten and the log extended with events about it. *)
Lemma wf_update_cell m ns nw ns' nw' i c c' evs :
  wf m ns nw →
  cells m !! i = Some c →
  cell_ok (S i) c' (ns' (S i)) (nw' (S i)) (events m ++ evs) →
  Forall (only_about (S i)) evs →
  (∀ b, b ≠ S i → ns' b = ns b ∧ nw' b = nw b) →
  wf (mkMem (<[i := c']> (cells m)) (events m ++ evs)) ns' nw'.
Proof.
  intros [H1 H2] Hc Hok Hev Hoth. split; simpl.
  - intros j d Hd. destruct (decide (i = j)) as [->|Hne].
    + rewrite list_lookup_insert_eq in Hd by (by eapply lookup_lt_Some).
      by inversion Hd; subst.
    + rewrite list_lookup_insert_ne in Hd by done.
      destruct (Hoth (S j)) as [-> ->]; [congruence|].
      apply cell_ok_other; [|by apply H1].
      eapply Forall_impl; [|exact Hev]. intros e He. apply He. congruence.
  - intros j Hj. apply lookup_ge_None in Hj. rewrite length_insert in Hj.
    assert (S j ≠ S i) as Hne by (apply lookup_lt_Some in Hc; lia).
    apply lookup_ge_None in Hj.
    destruct (Hoth (S j) Hne) as [-> ->].
    destruct (H2 _ Hj) as (? & ? & ? & ?). split_and!; try done.
    + rewrite destroys_app_other; [done|].
      eapply Forall_impl; [|exact Hev]. intros e He. by apply He.
    + rewrite releases_app_other; [done|].
      eapply Forall_impl; [|exact Hev]. intros e He. by apply He.
Qed.

Lemma wf_alloc m ns nw p d :
  wf m ns nw →
  wf (mkMem (cells m ++ [mkCell (mkControlBlock 1 1 (mkPtr p d)) false]) (events m))
     (bump ns (S (length (cells m))) 1) nw.
Proof.
  intros [H1 H2]. split; simpl.
  - intros j c Hc. unfold bump. destruct (decide (j = length (cells m))) as [->|Hne].
    + rewrite decide_True by done.
      rewrite lookup_app_r, Nat.sub_diag in Hc by done. simpl in Hc. inversion Hc; subst.
      destruct (H2 (length (cells m))) as (Hs & Hw & Hd & Hr); [by apply lookup_ge_None|].
      rewrite Hs, Hw. pose proof LONG_MAX_pos.
      split; simpl; try done; try lia.
      intros _. by apply destroy_before_release_zero.
    + rewrite decide_False by congruence.
      apply H1. rewrite lookup_app_l in Hc; [done|].
      apply lookup_lt_Some in Hc. rewrite length_app in Hc. simpl in Hc. lia.
  - intros j Hj. apply lookup_ge_None in Hj. rewrite length_app in Hj. simpl in Hj.
    unfold bump. rewrite decide_False by lia. apply H2. apply lookup_ge_None. lia.
Qed.

Lemma wf_live m ns nw i :
  wf m ns nw → (0 < ns (S i) ∨ 0 < nw (S i)) →
  ∃ c, cells m !! i = Some c ∧ released c = false ∧
       cell_ok (S i) c (ns (S i)) (nw (S i)) (events m).
Proof.
  intros [H1 H2] Hpos. destruct (cells m !! i) as [c|] eqn:Hc.
  - exists c. pose proof (H1 _ _ Hc) as Hok. split_and!; try done.
    destruct Hok. rewrite ok_released0, ok_weak0.
    apply Z.eqb_neq. destruct (0 <? ns (S i)) eqn:E; [lia|].
    apply Z.ltb_ge in E. lia.
  - destruct (H2 _ Hc) as (? & ? & _). lia.
Qed.

Lemma only_about_nil a : Forall (only_about a) [].
Proof. constructor. Qed.

Lemma only_about_destroy a d p : only_about a (EvDestroy a d p).
Proof. intros b Hb. simpl. split; [|done]. apply Nat.eqb_neq. congruence. Qed.

Lemma only_about_release a : only_about a (EvRelease a).
Proof. intros b Hb. simpl. split; [done|]. apply Nat.eqb_neq. congruence. Qed.
End wf_lemmas.

Ltac count_events :=
  rewrite ?app_nil_r, ?destroys_app, ?releases_app, ?destroys_single, ?releases_single;
  cbn [is_destroy is_release]; rewrite ?Nat.eqb_refl.

Ltac zbool :=
  repeat match goal with
    | |- context [Z.eqb ?x ?y] => destruct (Z.eqb_spec x y)
    | |- context [Z.ltb ?x ?y] => destruct (Z.ltb_spec x y)
    | H : context [Z.eqb ?x ?y] |- _ => destruct (Z.eqb_spec x y)
    | H : context [Z.ltb ?x ?y] |- _ => destruct (Z.ltb_spec x y)
    end; simpl in *; try lia; try done.

Section prim_ok.
Implicit Types (m : mem) (ns nw : cbptr → Z) (a : cbptr).

Lemma bump_same ns a k : bump ns a k a = ns a + k.
Proof. unfold bump. by rewrite decide_True. Qed.

Lemma bump_other ns a k b : b ≠ a → bump ns a k b = ns b.
Proof. intros. unfold bump. by rewrite decide_False. Qed.

Lemma dec_wref_events_only a cb : Forall (only_about a) (dec_wref_events a cb).
Proof.
  unfold dec_wref_events. destruct (_ =? 0); [|apply Forall_nil_2].
  apply Forall_cons_2; [apply only_about_release|apply Forall_nil_2].
Qed.

Lemma dec_ref_events_only a cb : Forall (only_about a) (dec_ref_events a cb).
Proof.
  unfold dec_ref_events. simpl. destruct (_ =? 0); [|apply Forall_nil_2].
  apply Forall_app. split; [|apply dec_wref_events_only].
  destruct (is_null _); [apply Forall_nil_2|].
  apply Forall_cons_2; [apply only_about_destroy|apply Forall_nil_2].
Qed.

Lemma new_control_block_ok m ns nw p d :
  wf m ns nw →
  ∃ m', new_control_block p d m = Ret (S (length (cells m))) m' ∧
        wf m' (bump ns (S (length (cells m))) 1) nw ∧ mem_ext m m' ∧
        cell_at (S (length (cells m))) m = None.
Proof.
  intros Hwf. eexists. split; [reflexivity|]. split_and!.
  - by apply wf_alloc.
  - apply mem_ext_alloc.
  - simpl. by apply lookup_ge_None.
Qed.

Lemma inc_ref_ok m ns nw a :
  wf m ns nw → a ≠ O → 0 < ns a < LONG_MAX →
  ∃ m', inc_ref a m = Ret tt m' ∧ wf m' (bump ns a 1) nw ∧ mem_ext m m'.
Proof.
  intros Hwf Ha Hn. destruct a as [|i]; [done|].
  destruct (wf_live m ns nw i Hwf) as (c & Hc & Hr & Hok); [lia|].
  rewrite (inc_ref_eval _ _ _ Hc Hr). eexists. split; [reflexivity|].
  rewrite <- (app_nil_r (events m)). split.
  - eapply wf_update_cell; eauto using only_about_nil.
    + rewrite bump_same. destruct Hok. simpl.
      rewrite ok_use0, long_wrap_id by (unfold in_long, LONG_MIN; lia).
      rewrite Hr in ok_releases0.
      split; simpl; rewrite ?app_nil_r; try done; zbool.
    + intros b Hb. by rewrite bump_other.
  - by eapply mem_ext_update.
Qed.

Lemma inc_wref_ok m ns nw a :
  wf m ns nw → a ≠ O → (0 < ns a ∨ 0 < nw a) → nw a + 1 < LONG_MAX →
  ∃ m', inc_wref a m = Ret tt m' ∧ wf m' ns (bump nw a 1) ∧ mem_ext m m'.
Proof.
  intros Hwf Ha Hn Hmax. destruct a as [|i]; [done|].
  destruct (wf_live m ns nw i Hwf Hn) as (c & Hc & Hr & Hok).
  rewrite (inc_wref_eval _ _ _ Hc Hr). eexists. split; [reflexivity|].
  rewrite <- (app_nil_r (events m)). split.
  - eapply wf_update_cell; eauto using only_about_nil.
    + rewrite bump_same. destruct Hok. simpl.
      assert (0 ≤ (if 0 <? ns (S i) then 1 else 0) ≤ 1) by (destruct (0 <? ns (S i)); lia).
      rewrite ok_weak0, long_wrap_id by (unfold in_long, LONG_MIN; lia).
      rewrite Hr in ok_releases0.
      split; simpl; rewrite ?app_nil_r; try done; zbool.
    + intros b Hb. by rewrite bump_other.
  - by eapply mem_ext_update.
Qed.

Lemma dec_wref_ok m ns nw a :
  wf m ns nw → a ≠ O → 0 < nw a →
  ∃ m', dec_wref a m = Ret tt m' ∧ wf m' ns (bump nw a (-1)) ∧ mem_ext m m'.
Proof.
  intros Hwf Ha Hn. destruct a as [|i]; [done|].
  destruct (wf_live m ns nw i Hwf) as (c & Hc & Hr & Hok); [lia|].
  rewrite (dec_wref_eval _ _ _ Hc Hr). eexists. split; [reflexivity|]. split.
  - eapply wf_update_cell; eauto.
    + rewrite bump_same. destruct Hok. unfold dec_wref_cell, dec_wref_events. simpl.
      assert (0 ≤ (if 0 <? ns (S i) then 1 else 0) ≤ 1) as Hb
        by (destruct (0 <? ns (S i)); lia).
      rewrite ok_weak0, long_wrap_id by (unfold in_long, LONG_MIN; lia).
      rewrite Hr in ok_releases0.
      split; simpl; try done; try lia.
      all: try (intros Hnn; specialize (ok_order0 Hnn)).
      all: destruct (nw (S i) + (if 0 <? ns (S i) then 1 else 0) - 1 =? 0) eqn:E.
      all: count_events; try lia; try done.
      apply destroy_before_release_snoc; [done|]. intros _.
      apply destroys_pos_elem. rewrite ok_destroys0, Hnn.
      destruct (0 <? ns (S i)) eqn:E1; [lia|]. apply Z.ltb_ge in E1.
      replace (ns (S i)) with 0 by lia. simpl. lia.
    + apply dec_wref_events_only.
    + intros b Hb. by rewrite bump_other.
  - by eapply mem_ext_update.
Qed.

Lemma dec_ref_ok m ns nw a :
  wf m ns nw → a ≠ O → 0 < ns a →
  ∃ m', dec_ref a m = Ret tt m' ∧ wf m' (bump ns a (-1)) nw ∧ mem_ext m m'.
Proof.
  intros Hwf Ha Hn. destruct a as [|i]; [done|].
  destruct (wf_live m ns nw i Hwf) as (c & Hc & Hr & Hok); [lia|].
  rewrite (dec_ref_eval _ _ _ Hc Hr). eexists. split; [reflexivity|]. split.
  - eapply wf_update_cell; eauto.
    + rewrite bump_same. destruct Hok. unfold dec_ref_cell, dec_ref_events. simpl.
      rewrite ok_use0, (long_wrap_id (ns (S i) - 1)) by (unfold in_long, LONG_MIN; lia).
      rewrite Hr in ok_releases0.
      assert ((0 <? ns (S i)) = true) as Hpos by (apply Z.ltb_lt; lia).
      rewrite Hpos in ok_weak0.
      assert ((ns (S i) =? 0) = false) as Hnz by (apply Z.eqb_neq; lia).
      rewrite Hnz in ok_destroys0. simpl in ok_destroys0.
      destruct (ns (S i) - 1 =? 0) eqn:E.
      * apply Z.eqb_eq in E. unfold dec_wref_cell, dec_wref_events. simpl.
        rewrite ok_weak0, long_wrap_id by (unfold in_long, LONG_MIN; lia).
        replace (nw (S i) + 1 - 1) with (nw (S i)) by lia.
        replace (ns (S i) + -1) with 0 by lia.
        split; simpl; try done; try lia.
        -- destruct (is_null _), (nw (S i) =? 0); count_events; simpl; lia.
        -- destruct (is_null _), (nw (S i) =? 0); count_events; simpl; lia.
        -- intros Hnn. rewrite Hnn. specialize (ok_order0 Hnn).
           assert (destroy_before_release (S i)
                     (events m ++ [EvDestroy (S i) (_impl_deleter (_impl (block c)))
                                     (_impl_ptr (_impl (block c)))])) as Hd.
           { by apply destroy_before_release_snoc. }
           destruct (nw (S i) =? 0); [|by rewrite app_nil_r].
           rewrite app_assoc. apply destroy_before_release_snoc; [done|].
           intros _. eexists _, _. apply elem_of_app. right. apply elem_of_cons. by left.
      * apply Z.eqb_neq in E.
        assert ((0 <? ns (S i) + -1) = true) as Hpos' by (apply Z.ltb_lt; lia).
        assert ((ns (S i) + -1 =? 0) = false) as Hnz' by (apply Z.eqb_neq; lia).
        split; simpl; rewrite ?app_nil_r, ?Hpos', ?Hnz'; simpl; try done; try lia.
    + apply dec_ref_events_only.
    + intros b Hb. by rewrite bump_other.
  - eapply mem_ext_update; [done|]. unfold dec_ref_cell, dec_wref_cell. simpl.
    by destruct (_ =? 0).
Qed.
End prim_ok.

(** ** Preservation of the counting invariant by the handle operations *)

Section handle_ok.
Implicit Types (m : mem) (ns nw : cbptr → Z) (sp this : shared_ptr) (wp : weak_ptr).

Lemma cb_is_null_false a : a ≠ O → cb_is_null a = false.
Proof. intros. by apply Nat.eqb_neq. Qed.

Lemma cb_is_null_true a : cb_is_null a = true → a = O.
Proof. apply Nat.eqb_eq. Qed.

Lemma wf_bump_null m ns nw k : wf m ns nw → wf m (bump ns O k) nw.
Proof. apply wf_ext; [|done]. intros a Ha. by rewrite bump_other. Qed.

Lemma wf_bump_null_w m ns nw k : wf m ns nw → wf m ns (bump nw O k).
Proof. apply wf_ext; [done|]. intros a Ha. by rewrite bump_other. Qed.

Lemma shared_ptr_of_ptr_deleter_ok m ns nw p d :
  wf m ns nw →
  ∃ m', shared_ptr_of_ptr_deleter p d m = Ret (mkShared p (S (length (cells m)))) m' ∧
        wf m' (bump ns (S (length (cells m))) 1) nw ∧ mem_ext m m' ∧
        length (cells m') = S (length (cells m)).
Proof.
  intros Hwf. destruct (new_control_block_ok m ns nw p d Hwf) as (m' & He & Hwf' & Hx & _).
  exists m'. unfold shared_ptr_of_ptr_deleter, mbind, M_bind, bind. rewrite He.
  split_and!; try done. unfold new_control_block in He. inversion He; subst. simpl.
  rewrite length_app. simpl. lia.
Qed.

Lemma shared_ptr_alias_ok m ns nw sp p :
  wf m ns nw →
  (sp_control_block sp ≠ O → 0 < ns (sp_control_block sp) < LONG_MAX) →
  ∃ m', shared_ptr_alias sp p m = Ret (mkShared p (sp_control_block sp)) m' ∧
        wf m' (bump ns (sp_control_block sp) 1) nw ∧ mem_ext m m' ∧
        length (cells m') = length (cells m).
Proof.
  intros Hwf Hpre. unfold shared_ptr_alias, mbind, M_bind, bind. simpl.
  destruct (cb_is_null (sp_control_block sp)) eqn:Hn.
  - apply cb_is_null_true in Hn. rewrite Hn. exists m. unfold ret.
    split_and!; try done; try (by apply wf_bump_null); try apply mem_ext_refl.
  - apply Nat.eqb_neq in Hn.
    destruct (inc_ref_ok m ns nw _ Hwf Hn (Hpre Hn)) as (m' & He & Hwf' & Hx).
    exists m'. rewrite He. split_and!; try done.
    destruct (sp_control_block sp) as [|i]; [done|].
    destruct (wf_live m ns nw i Hwf) as (c & Hc & Hr & _); [specialize (Hpre Hn); lia|].
    rewrite (inc_ref_eval _ _ _ Hc Hr) in He. inversion He; subst. simpl.
    by rewrite length_insert.
Qed.

Lemma shared_ptr_copy_ok m ns nw sp :
  wf m ns nw →
  (sp_control_block sp ≠ O → 0 < ns (sp_control_block sp) < LONG_MAX) →
  ∃ m', shared_ptr_copy sp m = Ret (mkShared (sp_ptr sp) (sp_control_block sp)) m' ∧
        wf m' (bump ns (sp_control_block sp) 1) nw ∧ mem_ext m m' ∧
        length (cells m') = length (cells m).
Proof. apply (shared_ptr_alias_ok m ns nw sp (sp_ptr sp)). Qed.

Lemma shared_ptr_dtor_ok m ns nw this :
  wf m ns nw →
  (sp_control_block this ≠ O → 0 < ns (sp_control_block this)) →
  ∃ m', shared_ptr_dtor this m = Ret tt m' ∧
        wf m' (bump ns (sp_control_block this) (-1)) nw ∧ mem_ext m m' ∧
        length (cells m') = length (cells m).
Proof.
  intros Hwf Hpre. unfold shared_ptr_dtor.
  destruct (cb_is_null (sp_control_block this)) eqn:Hn.
  - apply cb_is_null_true in Hn. rewrite Hn. exists m. unfold ret.
    split_and!; try done; try (by apply wf_bump_null); try apply mem_ext_refl.
  - apply Nat.eqb_neq in Hn.
    destruct (dec_ref_ok m ns nw _ Hwf Hn (Hpre Hn)) as (m' & He & Hwf' & Hx).
    exists m'. split_and!; try done.
    destruct (sp_control_block this) as [|i]; [done|].
    destruct (wf_live m ns nw i Hwf) as (c & Hc & Hr & _); [specialize (Hpre Hn); lia|].
    rewrite (dec_ref_eval _ _ _ Hc Hr) in He. inversion He; subst. simpl.
    by rewrite length_insert.
Qed.

Lemma weak_ptr_of_shared_ok m ns nw sp :
  wf m ns nw →
  (sp_control_block sp ≠ O →
   0 < ns (sp_control_block sp) ∧ nw (sp_control_block sp) + 1 < LONG_MAX) →
  ∃ m', weak_ptr_of_shared sp m = Ret (mkWeak (sp_ptr sp) (sp_control_block sp)) m' ∧
        wf m' ns (bump nw (sp_control_block sp) 1) ∧ mem_ext m m' ∧
        length (cells m') = length (cells m).
Proof.
  intros Hwf Hpre. unfold weak_ptr_of_shared, mbind, M_bind, bind. simpl.
  destruct (cb_is_null (sp_control_block sp)) eqn:Hn.
  - apply cb_is_null_true in Hn. rewrite Hn. exists m. unfold ret.
    split_and!; try done; try (by apply wf_bump_null_w); try apply mem_ext_refl.
  - apply Nat.eqb_neq in Hn. destruct (Hpre Hn) as [Hp1 Hp2].
    destruct (inc_wref_ok m ns nw _ Hwf Hn (or_introl Hp1) Hp2) as (m' & He & Hwf' & Hx).
    exists m'. rewrite He. split_and!; try done.
    destruct (sp_control_block sp) as [|i]; [done|].
    destruct (wf_live m ns nw i Hwf) as (c & Hc & Hr & _); [lia|].
    rewrite (inc_wref_eval _ _ _ Hc Hr) in He. inversion He; subst. simpl.
    by rewrite length_insert.
Qed.

Lemma weak_ptr_copy_ok m ns nw wp :
  wf m ns nw →
  (wp_control_block wp ≠ O →
   0 < nw (wp_control_block wp) ∧ nw (wp_control_block wp) + 1 < LONG_MAX) →
  ∃ m', weak_ptr_copy wp m = Ret (mkWeak (wp_ptr wp) (wp_control_block wp)) m' ∧
        wf m' ns (bump nw (wp_control_block wp) 1) ∧ mem_ext m m' ∧
        length (cells m') = length (cells m).
Proof.
  intros Hwf Hpre. unfold weak_ptr_copy, mbind, M_bind, bind. simpl.
  destruct (cb_is_null (wp_control_block wp)) eqn:Hn.
  - apply cb_is_null_true in Hn. rewrite Hn. exists m. unfold ret.
    split_and!; try done; try (by apply wf_bump_null_w); try apply mem_ext_refl.
  - apply Nat.eqb_neq in Hn. destruct (Hpre Hn) as [Hp1 Hp2].
    destruct (inc_wref_ok m ns nw _ Hwf Hn (or_intror Hp1) Hp2) as (m' & He & Hwf' & Hx).
    exists m'. rewrite He. split_and!; try done.
    destruct (wp_control_block wp) as [|i]; [done|].
    destruct (wf_live m ns nw i Hwf) as (c & Hc & Hr & _); [lia|].
    rewrite (inc_wref_eval _ _ _ Hc Hr) in He. inversion He; subst. simpl.
    by rewrite length_insert.
Qed.

Lemma weak_ptr_dtor_ok m ns nw wp :
  wf m ns nw →
  (wp_control_block wp ≠ O → 0 < nw (wp_control_block wp)) →
  ∃ m', weak_ptr_dtor wp m = Ret tt m' ∧
        wf m' ns (bump nw (wp_control_block wp) (-1)) ∧ mem_ext m m' ∧
        length (cells m') = length (cells m).
Proof.
  intros Hwf Hpre. unfold weak_ptr_dtor.
  destruct (cb_is_null (wp_control_block wp)) eqn:Hn.
  - apply cb_is_null_true in Hn. rewrite Hn. exists m. unfold ret.
    split_and!; try done; try (by apply wf_bump_null_w); try apply mem_ext_refl.
  - apply Nat.eqb_neq in Hn.
    destruct (dec_wref_ok m ns nw _ Hwf Hn (Hpre Hn)) as (m' & He & Hwf' & Hx).
    exists m'. split_and!; try done.
    destruct (wp_control_block wp) as [|i]; [done|].
    destruct (wf_live m ns nw i Hwf) as (c & Hc & Hr & _); [specialize (Hpre Hn); lia|].
    rewrite (dec_wref_eval _ _ _ Hc Hr) in He. inversion He; subst. simpl.
    by rewrite length_insert.
Qed.

(** Promotion of a weak_ptr that holds a block. *)
Lemma weak_ptr_expired_live m ns nw wp :
  wf m ns nw → wp_control_block wp ≠ O → 0 < nw (wp_control_block wp) →
  weak_ptr_expired wp m = Ret (ns (wp_control_block wp) =? 0) m.
Proof.
  intros Hwf Hn Hw. unfold weak_ptr_expired. rewrite cb_is_null_false by done.
  destruct (wp_control_block wp) as [|i]; [done|].
  destruct (wf_live m ns nw i Hwf) as (c & Hc & Hr & Hok); [lia|].
  unfold control_block_expired, mbind, M_bind, bind.
  rewrite (load_live _ _ _ Hc Hr). unfold ret. by destruct Hok as [-> _].
Qed.

Lemma shared_ptr_of_weak_ok m ns nw wp :
  wf m ns nw → wp_control_block wp ≠ O → 0 < nw (wp_control_block wp) →
  ns (wp_control_block wp) < LONG_MAX →
  (ns (wp_control_block wp) = 0 ∧ shared_ptr_of_weak wp m = Raise bad_weak_ptr m) ∨
  (0 < ns (wp_control_block wp) ∧
   ∃ m', shared_ptr_of_weak wp m = Ret (mkShared (wp_ptr wp) (wp_control_block wp)) m' ∧
         wf m' (bump ns (wp_control_block wp) 1) nw ∧ mem_ext m m' ∧
         length (cells m') = length (cells m)).
Proof.
  intros Hwf Hn Hw Hmax. unfold shared_ptr_of_weak, mbind, M_bind, bind.
  rewrite (weak_ptr_expired_live m ns nw wp Hwf Hn Hw). simpl.
  destruct (Z.eqb_spec (ns (wp_control_block wp)) 0) as [Hz|Hnz].
  - left. by split.
  - right.
    assert (0 < ns (wp_control_block wp)) as Hpos.
    { destruct (wp_control_block wp) as [|i]; [done|].
      destruct (wf_live m ns nw i Hwf) as (c & _ & _ & []); lia. }
    split; [done|].
    destruct (shared_ptr_alias_ok m ns nw (mkShared (wp_ptr wp) (wp_control_block wp))
                (wp_ptr wp) Hwf) as (m' & He & Hrest); [simpl; lia|].
    unfold shared_ptr_alias, mbind, M_bind, bind in He. simpl in He.
    rewrite cb_is_null_false in He by done.
    exists m'. split; [|done].
    destruct (inc_ref (wp_control_block wp) m); try done.
Qed.

Lemma weak_ptr_lock_ok m ns nw wp :
  wf m ns nw → wp_control_block wp ≠ O → 0 < nw (wp_control_block wp) →
  ns (wp_control_block wp) < LONG_MAX →
  (ns (wp_control_block wp) = 0 ∧ weak_ptr_lock wp m = Ret shared_ptr_default m) ∨
  (0 < ns (wp_control_block wp) ∧
   ∃ m', weak_ptr_lock wp m = Ret (mkShared (wp_ptr wp) (wp_control_block wp)) m' ∧
         wf m' (bump ns (wp_control_block wp) 1) nw ∧ mem_ext m m' ∧
         length (cells m') = length (cells m)).
Proof.
  intros Hwf Hn Hw Hmax. unfold weak_ptr_lock, noexcept, mbind, M_bind, bind.
  rewrite (weak_ptr_expired_live m ns nw wp Hwf Hn Hw).
  destruct (shared_ptr_of_weak_ok m ns nw wp Hwf Hn Hw Hmax)
    as [[Hz He]|[Hpos (m' & He & Hrest)]].
  - left. split; [done|]. rewrite Hz. done.
  - right. split; [done|]. exists m'. split; [|done].
    destruct (Z.eqb_spec (ns (wp_control_block wp)) 0); [lia|]. by rewrite He.
Qed.

Lemma promotion_of_empty wp m :
  wp_control_block wp = O →
  shared_ptr_of_weak wp m = Undefined ∧ weak_ptr_lock wp m = Undefined.
Proof.
  intros Hn. unfold weak_ptr_lock, noexcept, shared_ptr_of_weak, weak_ptr_expired,
    mbind, M_bind, bind. simpl. by rewrite Hn.
Qed.
End handle_ok.

Section composite_ok.
Implicit Types (m : mem) (ns nw : cbptr → Z) (sp this : shared_ptr) (wp : weak_ptr).

Lemma bump_pos ns a k b : 0 ≤ k → 0 < ns b → 0 < bump ns a k b.
Proof. intros. unfold bump. case_decide; lia. Qed.

Lemma shared_ptr_assign_ok m ns nw this sp :
  wf m ns nw →
  (sp_control_block sp ≠ O → 0 < ns (sp_control_block sp) < LONG_MAX) →
  (sp_control_block this ≠ O → 0 < ns (sp_control_block this)) →
  ∃ m', shared_ptr_assign this sp m =
          Ret (mkShared (sp_ptr sp) (sp_control_block sp)) m' ∧
        wf m' (bump (bump ns (sp_control_block sp) 1) (sp_control_block this) (-1)) nw ∧
        mem_ext m m' ∧ length (cells m') = length (cells m).
Proof.
  intros Hwf Hsp Hthis.
  destruct (shared_ptr_copy_ok m ns nw sp Hwf Hsp) as (m1 & He1 & Hwf1 & Hx1 & Hl1).
  destruct (shared_ptr_dtor_ok m1 _ nw this Hwf1) as (m2 & He2 & Hwf2 & Hx2 & Hl2).
  { intros Hn. apply bump_pos; [lia|auto]. }
  exists m2. unfold shared_ptr_assign, mbind, M_bind, bind. rewrite He1. simpl.
  rewrite He2. split_and!; try done; [by eapply mem_ext_trans|congruence].
Qed.

Lemma shared_ptr_move_assign_ok m ns nw this sp :
  wf m ns nw →
  (sp_control_block this ≠ O → 0 < ns (sp_control_block this)) →
  ∃ m', shared_ptr_move_assign this sp m =
          Ret (mkShared (sp_ptr sp) (sp_control_block sp), shared_ptr_default) m' ∧
        wf m' (bump ns (sp_control_block this) (-1)) nw ∧
        mem_ext m m' ∧ length (cells m') = length (cells m).
Proof.
  intros Hwf Hthis.
  destruct (shared_ptr_dtor_ok m ns nw this Hwf Hthis) as (m2 & He2 & Hwf2 & Hx2 & Hl2).
  exists m2. unfold shared_ptr_move_assign, mbind, M_bind, bind. simpl.
  by rewrite He2.
Qed.

Lemma shared_ptr_move_assign_self_eval m this :
  shared_ptr_move_assign_self this m =
  Ret (mkShared (sp_ptr this) (sp_control_block this)) m.
Proof. reflexivity. Qed.

Lemma shared_ptr_reset_ok m ns nw this :
  wf m ns nw →
  (sp_control_block this ≠ O → 0 < ns (sp_control_block this)) →
  ∃ m', shared_ptr_reset this m = Ret shared_ptr_default m' ∧
        wf m' (bump ns (sp_control_block this) (-1)) nw ∧
        mem_ext m m' ∧ length (cells m') = length (cells m).
Proof.
  intros Hwf Hthis.
  destruct (shared_ptr_dtor_ok m ns nw this Hwf Hthis) as (m2 & He2 & Hwf2 & Hx2 & Hl2).
  exists m2. unfold shared_ptr_reset, mbind, M_bind, bind. simpl.
  by rewrite He2.
Qed.

Lemma shared_ptr_reset_ptr_deleter_ok m ns nw this p d :
  wf m ns nw →
  (sp_control_block this ≠ O → 0 < ns (sp_control_block this)) →
  ∃ m', shared_ptr_reset_ptr_deleter this p d m =
          Ret (mkShared p (S (length (cells m)))) m' ∧
        wf m' (bump (bump ns (S (length (cells m))) 1) (sp_control_block this) (-1)) nw ∧
        mem_ext m m' ∧ length (cells m') = S (length (cells m)).
Proof.
  intros Hwf Hthis.
  destruct (shared_ptr_of_ptr_deleter_ok m ns nw p d Hwf) as (m1 & He1 & Hwf1 & Hx1 & Hl1).
  destruct (shared_ptr_dtor_ok m1 _ nw this Hwf1) as (m2 & He2 & Hwf2 & Hx2 & Hl2).
  { intros Hn. apply bump_pos; [lia|auto]. }
  exists m2. unfold shared_ptr_reset_ptr_deleter, mbind, M_bind, bind. rewrite He1. simpl.
  rewrite He2. split_and!; try done; [by eapply mem_ext_trans|congruence].
Qed.

Lemma weak_ptr_assign_ok m ns nw (this : weak_ptr) wp :
  wf m ns nw →
  (wp_control_block wp ≠ O →
   0 < nw (wp_control_block wp) ∧ nw (wp_control_block wp) + 1 < LONG_MAX) →
  (wp_control_block this ≠ O → 0 < nw (wp_control_block this)) →
  ∃ m', weak_ptr_assign this wp m = Ret (mkWeak (wp_ptr wp) (wp_control_block wp)) m' ∧
        wf m' ns (bump (bump nw (wp_control_block wp) 1) (wp_control_block this) (-1)) ∧
        mem_ext m m' ∧ length (cells m') = length (cells m).
Proof.
  intros Hwf Hwp Hthis.
  destruct (weak_ptr_copy_ok m ns nw wp Hwf Hwp) as (m1 & He1 & Hwf1 & Hx1 & Hl1).
  destruct (weak_ptr_dtor_ok m1 ns _ this Hwf1) as (m2 & He2 & Hwf2 & Hx2 & Hl2).
  { intros Hn. apply bump_pos; [lia|auto]. }
  exists m2. unfold weak_ptr_assign, mbind, M_bind, bind. rewrite He1. simpl.
  rewrite He2. split_and!; try done; [by eapply mem_ext_trans|congruence].
Qed.

Lemma weak_ptr_assign_shared_ok m ns nw (this : weak_ptr) sp :
  wf m ns nw →
  (sp_control_block sp ≠ O →
   0 < ns (sp_control_block sp) ∧ nw (sp_control_block sp) + 1 < LONG_MAX) →
  (wp_control_block this ≠ O → 0 < nw (wp_control_block this)) →
  ∃ m', weak_ptr_assign_shared this sp m =
          Ret (mkWeak (sp_ptr sp) (sp_control_block sp)) m' ∧
        wf m' ns (bump (bump nw (sp_control_block sp) 1) (wp_control_block this) (-1)) ∧
        mem_ext m m' ∧ length (cells m') = length (cells m).
Proof.
  intros Hwf Hsp Hthis.
  destruct (weak_ptr_of_shared_ok m ns nw sp Hwf Hsp) as (m1 & He1 & Hwf1 & Hx1 & Hl1).
  destruct (weak_ptr_dtor_ok m1 ns _ this Hwf1) as (m2 & He2 & Hwf2 & Hx2 & Hl2).
  { intros Hn. apply bump_pos; [lia|auto]. }
  exists m2. unfold weak_ptr_assign_shared, mbind, M_bind, bind. rewrite He1. simpl.
  rewrite He2. split_and!; try done; [by eapply mem_ext_trans|congruence].
Qed.

Lemma weak_ptr_reset_ok m ns nw (this : weak_ptr) :
  wf m ns nw →
  (wp_control_block this ≠ O → 0 < nw (wp_control_block this)) →
  ∃ m', weak_ptr_reset this m = Ret weak_ptr_default m' ∧
        wf m' ns (bump nw (wp_control_block this) (-1)) ∧
        mem_ext m m' ∧ length (cells m') = length (cells m).
Proof.
  intros Hwf Hthis.
  destruct (weak_ptr_dtor_ok m ns nw this Hwf Hthis) as (m2 & He2 & Hwf2 & Hx2 & Hl2).
  exists m2. unfold weak_ptr_reset, mbind, M_bind, bind. simpl.
  by rewrite He2.
Qed.
End composite_ok.

(** ** Every operation preserves the counting invariant *)

Ltac solve_counts :=
  intros; unfold owners, wowners, bump, shared_ptr_default, weak_ptr_default, null_cb in *;
  repeat first
    [ rewrite count_by_snoc
    | erewrite count_by_insert by eassumption
    | erewrite count_by_delete by eassumption ];
  unfold ind; simpl in *; repeat case_decide; subst; simpl in *;
  try lia; try congruence.

Section step_lemmas.
Implicit Types (s : state) (o : op).

Lemma step_post_intro s m' sps' wps' ns' nw' :
  Inv s →
  wf m' ns' nw' → mem_ext (st_mem s) m' →
  (∀ a, a ≠ O → ns' a = owners a sps') →
  (∀ a, a ≠ O → nw' a = wowners a wps') →
  (∀ a, a ≠ O → owners a (st_shared s) - 1 ≤ owners a sps') →
  (∀ a, a ≠ O → wowners a (st_weak s) - 1 ≤ wowners a wps') →
  ((∀ a, a ≠ O → owners a (st_shared s) ≤ owners a sps') ∨
   (∀ a, a ≠ O → wowners a (st_weak s) ≤ wowners a wps')) →
  (length (cells m') = length (cells (st_mem s)) ∨
   (length (cells m') = S (length (cells (st_mem s))) ∧
    (owners (S (length (cells (st_mem s)))) (st_shared s) = 0 →
     owners (S (length (cells (st_mem s)))) sps' = 1))) →
  (length sps' ≤ S (length (st_shared s)))%nat →
  (length wps' ≤ S (length (st_weak s)))%nat →
  step_post s (mkState m' sps' wps').
Proof.
  intros HI Hwf Hext Hns Hnw H3 H4 H5 H6 H7 H8. split; simpl; try done.
  - unfold Inv. simpl. eapply wf_ext; [| |exact Hwf]; done.
  - intros i Hnone [c Hc]. apply lookup_ge_None in Hnone. apply lookup_lt_Some in Hc.
    destruct H6 as [Hl|[Hl Hf]]; [lia|].
    assert (i = length (cells (st_mem s))) as -> by lia.
    apply Hf. destruct HI as [_ H2]. apply (H2 (length (cells (st_mem s)))).
    by apply lookup_ge_None.
Qed.

Lemma step_post_refl s : Inv s → step_post s s.
Proof.
  intros HI. destruct s as [m sps wps].
  eapply step_post_intro; simpl; eauto using mem_ext_refl; try lia.
  - left. intros. lia.
Qed.

Lemma owners_lookup_bounds s i sp :
  bounded s → st_shared s !! i = Some sp →
  0 < owners (sp_control_block sp) (st_shared s) < LONG_MAX.
Proof.
  intros [Hb _] Hi. unfold owners.
  pose proof (count_by_lookup sp_control_block _ _ _ _ Hi eq_refl).
  pose proof (count_by_le_length sp_control_block (sp_control_block sp) (st_shared s)). lia.
Qed.

Lemma wowners_lookup_bounds s k wp :
  bounded s → st_weak s !! k = Some wp →
  0 < wowners (wp_control_block wp) (st_weak s) ∧
  wowners (wp_control_block wp) (st_weak s) + 1 < LONG_MAX.
Proof.
  intros [_ Hb] Hi. unfold wowners.
  pose proof (count_by_lookup wp_control_block _ _ _ _ Hi eq_refl).
  pose proof (count_by_le_length wp_control_block (wp_control_block wp) (st_weak s)). lia.
Qed.

Lemma wowners_bound s a :
  bounded s → wowners a (st_weak s) + 1 < LONG_MAX.
Proof.
  intros [_ Hb].
  pose proof (count_by_le_length wp_control_block a (st_weak s)). unfold wowners. lia.
Qed.

Lemma owners_bound s a :
  bounded s → owners a (st_shared s) < LONG_MAX.
Proof.
  intros [Hb _].
  pose proof (count_by_le_length sp_control_block a (st_shared s)). unfold owners. lia.
Qed.
End step_lemmas.

Ltac finish_step :=
  eapply step_post_intro; simpl;
  [ eassumption | eassumption | eauto using mem_ext_refl, mem_ext_trans | .. ];
  rewrite ?length_app, ?length_insert, ?length_delete; simpl;
  try solve [solve_counts];
  try solve [left; solve_counts];
  try solve [right; solve_counts];
  try solve [left; lia];
  try solve [right; split; [lia | solve_counts]].

Lemma fresh_after_reset (sps : list shared_ptr) i this p a n n' :
  sps !! i = Some this → n' = S n →
  n' = n ∨ n' = S n ∧ (owners a sps = 0 → owners a (<[i := mkShared p a]> sps) = 1).
Proof.
  intros Hi Hn. right. split; [exact Hn|]. intros H0.
  pose proof (count_by_lookup sp_control_block _ _ _ _ Hi eq_refl) as Hpos.
  unfold owners in *. erewrite count_by_insert by done. unfold ind. simpl.
  destruct (decide (a = a)); [|done].
  destruct (decide (sp_control_block this = a)) as [E|E]; [|lia].
  rewrite E in Hpos. lia.
Qed.

Ltac run_exec He :=
  unfold exec; cbn [st_mem st_shared st_weak]; rewrite He.

Lemma step_ok s o :
  Inv s → bounded s →
  match step o s with
  | Some s' => step_post s s'
  | None => promotes_empty o s
  end.
Proof.
  intros HI Hb. destruct s as [m sps wps]. pose proof HI as Hwf. unfold Inv in Hwf.
  simpl in Hwf. destruct o; unfold step; cbn [st_mem st_shared st_weak].
  - (* SpDefault *) finish_step.
  - (* SpOfPtr *)
    destruct (shared_ptr_of_ptr_deleter_ok m _ _ p default_delete Hwf) as (m' & He & Hwf' & Hx & Hl).
    change (shared_ptr_of_ptr p) with (shared_ptr_of_ptr_deleter p default_delete).
    run_exec He. finish_step.
  - (* SpOfPtrDeleter *)
    destruct (shared_ptr_of_ptr_deleter_ok m _ _ p d Hwf) as (m' & He & Hwf' & Hx & Hl).
    run_exec He. finish_step.
  - (* SpOfNullDeleter *)
    destruct (shared_ptr_of_ptr_deleter_ok m _ _ nullptr d Hwf) as (m' & He & Hwf' & Hx & Hl).
    change (shared_ptr_of_nullptr_deleter d) with (shared_ptr_of_ptr_deleter nullptr d).
    run_exec He. finish_step.
  - (* SpAlias *)
    destruct (sps !! i) as [sp|] eqn:Hi; [|by apply step_post_refl].
    destruct (shared_ptr_alias_ok m _ _ sp p Hwf) as (m' & He & Hwf' & Hx & Hl).
    { intros _. apply (owners_lookup_bounds _ i sp Hb Hi). }
    run_exec He. finish_step.
  - (* SpCopy *)
    destruct (sps !! i) as [sp|] eqn:Hi; [|by apply step_post_refl].
    destruct (shared_ptr_copy_ok m _ _ sp Hwf) as (m' & He & Hwf' & Hx & Hl).
    { intros _. apply (owners_lookup_bounds _ i sp Hb Hi). }
    run_exec He. finish_step.
  - (* SpMove *)
    destruct (sps !! i) as [sp|] eqn:Hi; [|by apply step_post_refl].
    cbn [shared_ptr_move]. finish_step.
  - (* SpOfWeak *)
    destruct (wps !! k) as [wp|] eqn:Hk; [|by apply step_post_refl].
    destruct (decide (wp_control_block wp = O)) as [Hn|Hn].
    { destruct (promotion_of_empty wp m Hn) as [He _]. run_exec He.
      exists k, wp. auto. }
    destruct (wowners_lookup_bounds _ k wp Hb Hk) as [Hw1 Hw2].
    destruct (shared_ptr_of_weak_ok m _ _ wp Hwf Hn Hw1 (owners_bound _ _ Hb))
      as [[Hz He]|[Hpos (m' & He & Hwf' & Hx & Hl)]]; run_exec He.
    + by apply step_post_refl.
    + finish_step.
  - (* SpAssign *)
    destruct (sps !! i) as [this|] eqn:Hi; [|by apply step_post_refl].
    destruct (sps !! j) as [sp|] eqn:Hj; [|by apply step_post_refl].
    destruct (shared_ptr_assign_ok m _ _ this sp Hwf) as (m' & He & Hwf' & Hx & Hl).
    { intros _. apply (owners_lookup_bounds _ j sp Hb Hj). }
    { intros _. apply (owners_lookup_bounds _ i this Hb Hi). }
    run_exec He. finish_step.
  - (* SpMoveAssign *)
    destruct (sps !! i) as [this|] eqn:Hi; [|by apply step_post_refl].
    destruct (sps !! j) as [sp|] eqn:Hj; [|by apply step_post_refl].
    destruct (decide (i = j)) as [->|Hij].
    + run_exec (shared_ptr_move_assign_self_eval m this). finish_step.
    + destruct (shared_ptr_move_assign_ok m _ _ this sp Hwf) as (m' & He & Hwf' & Hx & Hl).
      { intros _. apply (owners_lookup_bounds _ i this Hb Hi). }
      run_exec He. cbn [fst snd].
      assert (<[j := shared_ptr_default]> sps !! i = Some this) as Hi'
        by (by rewrite list_lookup_insert_ne).
      finish_step.
  - (* SpSwap *)
    destruct (sps !! i) as [this|] eqn:Hi; [|by apply step_post_refl].
    destruct (sps !! j) as [sp|] eqn:Hj; [|by apply step_post_refl].
    cbn [shared_ptr_swap].
    assert (<[j := this]> sps !! i = Some this) as Hi'.
    { destruct (decide (j = i)) as [->|Hne].
      - apply list_lookup_insert_eq. by eapply lookup_lt_Some.
      - by rewrite list_lookup_insert_ne. }
    finish_step.
  - (* SpReset *)
    destruct (sps !! i) as [this|] eqn:Hi; [|by apply step_post_refl].
    destruct (shared_ptr_reset_ok m _ _ this Hwf) as (m' & He & Hwf' & Hx & Hl).
    { intros _. apply (owners_lookup_bounds _ i this Hb Hi). }
    run_exec He. finish_step.
  - (* SpResetPtr *)
    destruct (sps !! i) as [this|] eqn:Hi; [|by apply step_post_refl].
    destruct (shared_ptr_reset_ptr_deleter_ok m _ _ this p default_delete Hwf)
      as (m' & He & Hwf' & Hx & Hl).
    { intros _. apply (owners_lookup_bounds _ i this Hb Hi). }
    change (shared_ptr_reset_ptr this p)
      with (shared_ptr_reset_ptr_deleter this p default_delete).
    run_exec He. finish_step. by eapply fresh_after_reset.
  - (* SpResetPtrDeleter *)
    destruct (sps !! i) as [this|] eqn:Hi; [|by apply step_post_refl].
    destruct (shared_ptr_reset_ptr_deleter_ok m _ _ this p d Hwf)
      as (m' & He & Hwf' & Hx & Hl).
    { intros _. apply (owners_lookup_bounds _ i this Hb Hi). }
    run_exec He. finish_step. by eapply fresh_after_reset.
  - (* SpDestroy *)
    destruct (sps !! i) as [this|] eqn:Hi; [|by apply step_post_refl].
    destruct (shared_ptr_dtor_ok m _ _ this Hwf) as (m' & He & Hwf' & Hx & Hl).
    { intros _. apply (owners_lookup_bounds _ i this Hb Hi). }
    run_exec He. finish_step. by eexists.
  - (* WpDefault *) finish_step.
  - (* WpOfShared *)
    destruct (sps !! i) as [sp|] eqn:Hi; [|by apply step_post_refl].
    destruct (weak_ptr_of_shared_ok m _ _ sp Hwf) as (m' & He & Hwf' & Hx & Hl).
    { intros _. split; [apply (owners_lookup_bounds _ i sp Hb Hi)|apply (wowners_bound _ _ Hb)]. }
    run_exec He. finish_step.
  - (* WpCopy *)
    destruct (wps !! k) as [wp|] eqn:Hk; [|by apply step_post_refl].
    destruct (weak_ptr_copy_ok m _ _ wp Hwf) as (m' & He & Hwf' & Hx & Hl).
    { intros _. apply (wowners_lookup_bounds _ k wp Hb Hk). }
    run_exec He. finish_step.
  - (* WpAssign *)
    destruct (wps !! k) as [this|] eqn:Hk; [|by apply step_post_refl].
    destruct (wps !! l) as [wp|] eqn:Hl'; [|by apply step_post_refl].
    destruct (weak_ptr_assign_ok m _ _ this wp Hwf) as (m' & He & Hwf' & Hx & Hl).
    { intros _. apply (wowners_lookup_bounds _ l wp Hb Hl'). }
    { intros _. apply (wowners_lookup_bounds _ k this Hb Hk). }
    run_exec He. finish_step.
  - (* WpAssignShared *)
    destruct (wps !! k) as [this|] eqn:Hk; [|by apply step_post_refl].
    destruct (sps !! i) as [sp|] eqn:Hi; [|by apply step_post_refl].
    destruct (weak_ptr_assign_shared_ok m _ _ this sp Hwf) as (m' & He & Hwf' & Hx & Hl).
    { intros _. split; [apply (owners_lookup_bounds _ i sp Hb Hi)|apply (wowners_bound _ _ Hb)]. }
    { intros _. apply (wowners_lookup_bounds _ k this Hb Hk). }
    run_exec He. finish_step.
  - (* WpSwap *)
    destruct (wps !! k) as [this|] eqn:Hk; [|by apply step_post_refl].
    destruct (wps !! l) as [wp|] eqn:Hl'; [|by apply step_post_refl].
    cbn [weak_ptr_swap].
    assert (<[l := this]> wps !! k = Some this) as Hk'.
    { destruct (decide (l = k)) as [->|Hne].
      - apply list_lookup_insert_eq. by eapply lookup_lt_Some.
      - by rewrite list_lookup_insert_ne. }
    finish_step.
  - (* WpReset *)
    destruct (wps !! k) as [this|] eqn:Hk; [|by apply step_post_refl].
    destruct (weak_ptr_reset_ok m _ _ this Hwf) as (m' & He & Hwf' & Hx & Hl).
    { intros _. apply (wowners_lookup_bounds _ k this Hb Hk). }
    run_exec He. finish_step.
  - (* WpLock *)
    destruct (wps !! k) as [wp|] eqn:Hk; [|by apply step_post_refl].
    destruct (decide (wp_control_block wp = O)) as [Hn|Hn].
    { destruct (promotion_of_empty wp m Hn) as [_ He]. run_exec He.
      exists k, wp. auto. }
    destruct (wowners_lookup_bounds _ k wp Hb Hk) as [Hw1 Hw2].
    destruct (weak_ptr_lock_ok m _ _ wp Hwf Hn Hw1 (owners_bound _ _ Hb))
      as [[Hz He]|[Hpos (m' & He & Hwf' & Hx & Hl)]]; run_exec He.
    + finish_step.
    + finish_step.
  - (* WpDestroy *)
    destruct (wps !! k) as [this|] eqn:Hk; [|by apply step_post_refl].
    destruct (weak_ptr_dtor_ok m _ _ this Hwf) as (m' & He & Hwf' & Hx & Hl).
    { intros _. apply (wowners_lookup_bounds _ k this Hb Hk). }
    run_exec He. finish_step. by eexists.
Qed.

(** ** Reachable states *)

Section run_lemmas.
Implicit Types (s : state) (o : op) (ops : list op).

Lemma Inv_init : Inv init_state.
Proof.
  split; simpl.
  - intros i c Hc. by rewrite lookup_nil in Hc.
  - intros i _. done.
Qed.

Lemma run_app ops1 ops2 s :
  run (ops1 ++ ops2) s =
  match run ops1 s with
  | Some s' => run ops2 s'
  | None => None
  end.
Proof.
  revert s. induction ops1 as [|o ops1 IH]; intros s; simpl; [done|].
  destruct (step o s); [apply IH|done].
Qed.

Lemma run_snoc ops o s :
  run (ops ++ [o]) s =
  match run ops s with
  | Some s' => step o s'
  | None => None
  end.
Proof.
  rewrite run_app. destruct (run ops s) as [s'|]; [|done]. simpl.
  by destruct (step o s').
Qed.

(** A run either goes through, keeping the invariant, or stops at the
    promotion of an empty weak_ptr. *)
Lemma run_from ops s :
  Inv s →
  Z.of_nat (length (st_shared s) + length ops) < LONG_MAX →
  Z.of_nat (length (st_weak s) + length ops) + 1 < LONG_MAX →
  match run ops s with
  | Some s' =>
      Inv s' ∧ mem_ext (st_mem s) (st_mem s') ∧
      (length (st_shared s') ≤ length (st_shared s) + length ops)%nat ∧
      (length (st_weak s') ≤ length (st_weak s) + length ops)%nat
  | None =>
      ∃ pre o post s0, ops = pre ++ o :: post ∧ run pre s = Some s0 ∧ promotes_empty o s0
  end.
Proof.
  revert s. induction ops as [|o ops IH]; intros s HI Hb1 Hb2; simpl.
  - split_and!; [done|apply mem_ext_refl|lia|lia].
  - simpl in Hb1, Hb2.
    assert (bounded s) as Hb by (split; lia).
    pose proof (step_ok s o HI Hb) as Hstep.
    destruct (step o s) as [s1|] eqn:Hs1.
    + destruct Hstep as [HI1 Hx1 _ _ _ _ [Hl1 Hl2]].
      specialize (IH s1 HI1 ltac:(lia) ltac:(lia)).
      destruct (run ops s1) as [s'|] eqn:Hr.
      * destruct IH as (? & ? & ? & ?). split_and!; try done; try lia.
        by eapply mem_ext_trans.
      * destruct IH as (pre & o' & post & s0 & -> & Hpre & Hpe).
        exists (o :: pre), o', post, s0. split_and!; try done. simpl. by rewrite Hs1.
    + exists [], o, ops, s. by split_and!.
Qed.

Lemma run_reach ops s :
  Z.of_nat (length ops) + 1 < LONG_MAX →
  run ops init_state = Some s →
  Inv s ∧ bounded s.
Proof.
  intros Hb Hrun.
  pose proof (run_from ops init_state Inv_init) as H. simpl in H.
  rewrite Hrun in H. destruct H as (HI & _ & Hl1 & Hl2); [lia|lia|].
  split; [done|]. split; lia.
Qed.

Lemma promotes_empty_is_promotion o s : promotes_empty o s → is_promotion o = true.
Proof. by intros (k & wp & [-> | ->] & _). Qed.

Lemma run_total ops :
  Z.of_nat (length ops) + 1 < LONG_MAX →
  Forall (λ o, is_promotion o = false) ops →
  ∃ s, run ops init_state = Some s.
Proof.
  intros Hb HF.
  pose proof (run_from ops init_state Inv_init) as H. simpl in H.
  destruct (run ops init_state) as [s|]; [by exists s|].
  destruct H as (pre & o & post & s0 & -> & _ & Hpe); [lia|lia|].
  apply Forall_app in HF as [_ HF]. inversion HF as [|? ? Ho _]; subst.
  apply promotes_empty_is_promotion in Hpe. congruence.
Qed.
End run_lemmas.

(** ** What one operation adds to the log *)

Lemma step_events s s' :
  Inv s → step_post s s' →
  ∃ evs, events (st_mem s') = events (st_mem s) ++ evs ∧
    ∀ a, a ≠ O →
      destroys a evs =
        (if (strong_count a (st_mem s) =? 1) && (strong_count a (st_mem s') =? 0)
            && negb (is_null (managed_ptr a (st_mem s')))
         then 1%nat else 0%nat) ∧
      releases a evs =
        (if (weak_count a (st_mem s) =? 1) && (weak_count a (st_mem s') =? 0)
         then 1%nat else 0%nat).
Proof.
  intros HI [HI' [[evs Hev] Hcells] Hs Hw Hone Hfresh _]. exists evs. split; [done|].
  intros [|i] Ha; [done|]. clear Ha.
  unfold strong_count, weak_count, managed_ptr. cbn [cell_at].
  destruct HI as [H1 H2], HI' as [H1' H2'].
  specialize (Hs (S i) ltac:(done)). specialize (Hw (S i) ltac:(done)).
  assert (owners (S i) (st_shared s) ≤ owners (S i) (st_shared s') ∨
          wowners (S i) (st_weak s) ≤ wowners (S i) (st_weak s')) as Hone'.
  { destruct Hone as [H|H]; [left|right]; by apply H. }
  clear Hone. rewrite Hev in H1', H2'.
  destruct (cells (st_mem s) !! i) as [c|] eqn:Hc.
  - destruct (Hcells _ _ Hc) as (c' & Hc' & Himpl). rewrite Hc'.
    destruct (H1 _ _ Hc) as [Hu Hwk Hns Hnw Hrel Hrels Hdes _].
    destruct (H1' _ _ Hc') as [Hu' Hwk' Hns' Hnw' Hrel' Hrels' Hdes' _].
    rewrite destroys_app in Hdes'. rewrite releases_app in Hrels'.
    rewrite Himpl in Hdes'. rewrite Himpl.
    rewrite Hrel in Hrels. rewrite Hrel' in Hrels'.
    rewrite Hu, Hu', Hwk, Hwk'. rewrite Hwk in Hrels. rewrite Hwk' in Hrels'.
    destruct (is_null (_impl_ptr (_impl (block c)))); simpl in *; split; zbool.
  - destruct (H2 _ Hc) as (Hs0 & Hw0 & Hd0 & Hr0). simpl.
    destruct (cells (st_mem s') !! i) as [c'|] eqn:Hc'.
    + specialize (Hfresh i Hc ltac:(by eexists)).
      destruct (H1' _ _ Hc') as [Hu' Hwk' Hns' Hnw' Hrel' Hrels' Hdes' _].
      rewrite destroys_app in Hdes'. rewrite releases_app in Hrels'.
      rewrite Hrel', Hwk', Hfresh in Hrels'. rewrite Hfresh in Hdes'. simpl in *.
      split; zbool.
    + destruct (H2' _ Hc') as (_ & _ & Hd' & Hr').
      rewrite destroys_app in Hd'. rewrite releases_app in Hr'. split; lia.
Qed.

(** * Properties of the smart pointers *)

(** ** State-level consequences of the invariant *)

Lemma Inv_block s i c :
  Inv s → cells (st_mem s) !! i = Some c →
  _use_count (block c) = owners (S i) (st_shared s) ∧
  _weak_use_count (block c) =
    wowners (S i) (st_weak s) + (if 0 <? _use_count (block c) then 1 else 0) ∧
  released c = (_weak_use_count (block c) =? 0) ∧
  (released c = true ↔ owners (S i) (st_shared s) = 0 ∧ wowners (S i) (st_weak s) = 0) ∧
  releases (S i) (events (st_mem s)) = (if released c then 1%nat else 0%nat) ∧
  destroys (S i) (events (st_mem s)) =
    (if (_use_count (block c) =? 0) && negb (is_null (_impl_ptr (_impl (block c))))
     then 1%nat else 0%nat) ∧
  (is_null (_impl_ptr (_impl (block c))) = false →
   destroy_before_release (S i) (events (st_mem s))).
Proof.
  intros [H1 _] Hc. destruct (H1 _ _ Hc) as [Hu Hwk Hns Hnw Hrel Hrels Hdes Hord].
  rewrite Hu. split_and!; try done.
  rewrite Hrel, Hwk. split.
  - intros E. apply Z.eqb_eq in E. zbool.
  - intros [E1 E2]. rewrite E1, E2. done.
Qed.

Lemma Inv_use_count s sp :
  Inv s → sp ∈ st_shared s → sp_control_block sp ≠ null_cb →
  shared_ptr_use_count sp (st_mem s) =
  Ret (owners (sp_control_block sp) (st_shared s)) (st_mem s).
Proof.
  intros HI Hin Hn. apply list_elem_of_lookup in Hin as [j Hj].
  pose proof (count_by_lookup sp_control_block _ _ _ _ Hj eq_refl) as Hpos.
  unfold shared_ptr_use_count. rewrite cb_is_null_false by done.
  destruct (sp_control_block sp) as [|i] eqn:Ha; [done|].
  destruct (wf_live _ _ _ i HI) as (c & Hc & Hr & Hok); [left; unfold owners; simpl; lia|].
  unfold control_block_use_count, mbind, M_bind, bind.
  rewrite (load_live _ _ _ Hc Hr). unfold ret. by destruct Hok as [-> _].
Qed.

Lemma Inv_weak_use_count s wp :
  Inv s → wp ∈ st_weak s → wp_control_block wp ≠ null_cb →
  weak_ptr_use_count wp (st_mem s) =
  Ret (owners (wp_control_block wp) (st_shared s)) (st_mem s).
Proof.
  intros HI Hin Hn. apply list_elem_of_lookup in Hin as [j Hj].
  pose proof (count_by_lookup wp_control_block _ _ _ _ Hj eq_refl) as Hpos.
  unfold weak_ptr_use_count. rewrite cb_is_null_false by done.
  destruct (wp_control_block wp) as [|i] eqn:Ha; [done|].
  destruct (wf_live _ _ _ i HI) as (c & Hc & Hr & Hok); [right; unfold wowners; simpl; lia|].
  unfold control_block_use_count, mbind, M_bind, bind.
  rewrite (load_live _ _ _ Hc Hr). unfold ret. by destruct Hok as [-> _].
Qed.

(** ** C1 *)

(** C1. For every sequence of shared_ptr constructions, copies, moves,
    assignments, swaps, resets and destructions (weak_ptr operations other
    than promotion may be mixed in), run from the empty program state:
    the run [ops] followed by one more operation [o] is defined; in the
    state [s] reached by [ops], [use_count()] of every live shared_ptr or
    weak_ptr that has a control block returns the number of live shared_ptr
    instances sharing that block, and of an empty shared_ptr returns 0; over
    the whole
    history the deleter of a block that manages an object (non-null
    pointer) has run once if the strong count is 0 and never otherwise; and
    in the operation [o] the deleter of a block runs exactly when [o] takes
    its strong count from 1 to 0 (and the block manages an object). *)
Theorem C1_use_count_is_owner_count_and_deleter_runs_once (ops : list op) (o : op) :
  Z.of_nat (length ops) + 1 < LONG_MAX →
  Forall (λ o, is_promotion o = false) (ops ++ [o]) →
  ∃ s s' evs,
    run ops init_state = Some s ∧ step o s = Some s' ∧
    (∀ sp, sp ∈ st_shared s → sp_control_block sp ≠ null_cb →
       shared_ptr_use_count sp (st_mem s) =
       Ret (owners (sp_control_block sp) (st_shared s)) (st_mem s)) ∧
    (∀ sp, sp ∈ st_shared s → sp_control_block sp = null_cb →
       shared_ptr_use_count sp (st_mem s) = Ret 0 (st_mem s)) ∧
    (∀ wp, wp ∈ st_weak s → wp_control_block wp ≠ null_cb →
       weak_ptr_use_count wp (st_mem s) =
       Ret (owners (wp_control_block wp) (st_shared s)) (st_mem s)) ∧
    (∀ a c, cell_at a (st_mem s) = Some c →
       strong_count a (st_mem s) = owners a (st_shared s) ∧
       destroys a (events (st_mem s)) =
       (if (strong_count a (st_mem s) =? 0) && negb (is_null (managed_ptr a (st_mem s)))
        then 1%nat else 0%nat)) ∧
    events (st_mem s') = events (st_mem s) ++ evs ∧
    (∀ a, a ≠ null_cb →
       destroys a evs =
       (if (strong_count a (st_mem s) =? 1) && (strong_count a (st_mem s') =? 0)
           && negb (is_null (managed_ptr a (st_mem s')))
        then 1%nat else 0%nat)).
Proof.
  intros Hb HF. apply Forall_app in HF as [HF Ho]. rewrite Forall_singleton in Ho.
  destruct (run_total ops Hb HF) as [s Hs].
  destruct (run_reach ops s Hb Hs) as [HI Hbd].
  pose proof (step_ok s o HI Hbd) as Hstep.
  destruct (step o s) as [s'|] eqn:Hs'.
  2:{ apply promotes_empty_is_promotion in Hstep. congruence. }
  destruct (step_events s s' HI Hstep) as (evs & Hev & Hevs).
  exists s, s', evs. split_and!; try done.
  - intros sp Hin Hn. by apply Inv_use_count.
  - intros sp _ Hn. unfold shared_ptr_use_count. by rewrite Hn.
  - intros wp Hin Hn. by apply Inv_weak_use_count.
  - intros [|i] c Hc; [done|]. simpl in Hc.
    unfold strong_count, managed_ptr. simpl. rewrite Hc.
    destruct (Inv_block s i c HI Hc) as (Hu & _ & _ & _ & _ & Hd & _). by rewrite Hd, Hu.
  - intros a Ha. by apply Hevs.
Qed.

Lemma C1_witness :
  (Z.of_nat (length [SpOfPtr 5%N; SpCopy 0]) + 1 < LONG_MAX ∧
   Forall (λ o, is_promotion o = false) ([SpOfPtr 5%N; SpCopy 0] ++ [SpDestroy 0])) ∧
  ∃ s s' evs,
    run [SpOfPtr 5%N; SpCopy 0] init_state = Some s ∧ step (SpDestroy 0) s = Some s' ∧
    (∀ sp, sp ∈ st_shared s → sp_control_block sp ≠ null_cb →
       shared_ptr_use_count sp (st_mem s) =
       Ret (owners (sp_control_block sp) (st_shared s)) (st_mem s)) ∧
    (∀ sp, sp ∈ st_shared s → sp_control_block sp = null_cb →
       shared_ptr_use_count sp (st_mem s) = Ret 0 (st_mem s)) ∧
    (∀ wp, wp ∈ st_weak s → wp_control_block wp ≠ null_cb →
       weak_ptr_use_count wp (st_mem s) =
       Ret (owners (wp_control_block wp) (st_shared s)) (st_mem s)) ∧
    (∀ a c, cell_at a (st_mem s) = Some c →
       strong_count a (st_mem s) = owners a (st_shared s) ∧
       destroys a (events (st_mem s)) =
       (if (strong_count a (st_mem s) =? 0) && negb (is_null (managed_ptr a (st_mem s)))
        then 1%nat else 0%nat)) ∧
    events (st_mem s') = events (st_mem s) ++ evs ∧
    (∀ a, a ≠ null_cb →
       destroys a evs =
       (if (strong_count a (st_mem s) =? 1) && (strong_count a (st_mem s') =? 0)
           && negb (is_null (managed_ptr a (st_mem s')))
        then 1%nat else 0%nat)).
Proof.
  assert (Z.of_nat (length [SpOfPtr 5%N; SpCopy 0]) + 1 < LONG_MAX) as H1 by (vm_compute; reflexivity).
  assert (Forall (λ o, is_promotion o = false) ([SpOfPtr 5%N; SpCopy 0] ++ [SpDestroy 0])) as H2
    by (repeat constructor).
  split; [split; assumption|].
  exact (C1_use_count_is_owner_count_and_deleter_runs_once
           [SpOfPtr 5%N; SpCopy 0] (SpDestroy 0) H1 H2).
Defined.

(** ** C2 *)

(** C2. For every sequence of shared_ptr and weak_ptr operations run from
    the empty program state, either the run stops at the promotion of a
    weak_ptr that holds no control block (the only undefined operation), or
    it reaches a state [s] in which, for every control block [a]: the
    strong count is the number of live shared_ptr instances on [a]; the weak
    count is the number of live weak_ptr instances plus one implicit unit
    held while the strong count is positive; the block has been deleted
    once if its weak count is 0 and never otherwise, and it is deleted
    exactly when no shared_ptr and no weak_ptr is left on it; a deleted
    block has strong count 0 and, if it manages an object, its deleter has
    run once and earlier in the log than the deletion. After the next
    operation [o] both counts are again these numbers (so the operation
    that destroys the last shared_ptr also gives up the implicit weak
    unit), and in [o] the block is deleted exactly when [o] takes its weak
    count from 1 to 0. *)
Theorem C2_control_block_released_once_after_object (ops : list op) (o : op) :
  Z.of_nat (length ops) + 1 < LONG_MAX →
  match run ops init_state with
  | None =>
      ∃ pre o' post s0,
        ops = pre ++ o' :: post ∧ run pre init_state = Some s0 ∧ promotes_empty o' s0
  | Some s =>
      (∀ a c, cell_at a (st_mem s) = Some c →
         strong_count a (st_mem s) = owners a (st_shared s) ∧
         weak_count a (st_mem s) =
           wowners a (st_weak s) + (if 0 <? strong_count a (st_mem s) then 1 else 0) ∧
         released c = (weak_count a (st_mem s) =? 0) ∧
         (released c = true ↔
          owners a (st_shared s) = 0 ∧ wowners a (st_weak s) = 0) ∧
         releases a (events (st_mem s)) =
           (if weak_count a (st_mem s) =? 0 then 1%nat else 0%nat) ∧
         (released c = true →
          strong_count a (st_mem s) = 0 ∧
          (managed_ptr a (st_mem s) ≠ nullptr →
           destroys a (events (st_mem s)) = 1%nat ∧
           destroy_before_release a (events (st_mem s))))) ∧
      match step o s with
      | None => promotes_empty o s
      | Some s' =>
          (∀ a c', cell_at a (st_mem s') = Some c' →
             strong_count a (st_mem s') = owners a (st_shared s') ∧
             weak_count a (st_mem s') =
               wowners a (st_weak s') +
               (if 0 <? strong_count a (st_mem s') then 1 else 0)) ∧
          ∃ evs, events (st_mem s') = events (st_mem s) ++ evs ∧
            ∀ a, a ≠ null_cb →
              releases a evs =
              (if (weak_count a (st_mem s) =? 1) && (weak_count a (st_mem s') =? 0)
               then 1%nat else 0%nat)
      end
  end.
Proof.
  intros Hb.
  pose proof (run_from ops init_state Inv_init) as Hrun. simpl in Hrun.
  destruct (run ops init_state) as [s|] eqn:Hs.
  2:{ apply Hrun; lia. }
  destruct (run_reach ops s Hb Hs) as [HI Hbd]. split.
  - intros [|i] c Hc; [done|]. simpl in Hc.
    unfold weak_count, strong_count, managed_ptr. simpl. rewrite Hc.
    destruct (Inv_block s i c HI Hc) as (Hu & Hw & Hrel & Hiff & Hrels & Hd & Hord).
    split_and!; try done.
    + by rewrite <- Hrel.
    + intros Hr. apply Hiff in Hr as Hz. destruct Hz as [Hz _].
      rewrite Hu. split; [done|]. intros Hnn.
      assert (is_null (_impl_ptr (_impl (block c))) = false) as Hnn'.
      { unfold is_null, nullptr in *. by apply N.eqb_neq. }
      split; [|by apply Hord]. rewrite Hd, Hu, Hz, Hnn'. done.
  - pose proof (step_ok s o HI Hbd) as Hstep.
    destruct (step o s) as [s'|]; [|done]. split.
    + intros [|i] c' Hc'; [done|]. simpl in Hc'.
      unfold weak_count, strong_count. simpl. rewrite Hc'.
      destruct (Inv_block s' i c' (post_inv _ _ Hstep) Hc') as (Hu & Hw & _). done.
    + destruct (step_events s s' HI Hstep) as (evs & Hev & Hevs).
      exists evs. split; [done|]. intros a Ha. by apply Hevs.
Qed.

Lemma C2_witness :
  Z.of_nat (length [SpOfPtr 5%N; WpOfShared 0; SpDestroy 0]) + 1 < LONG_MAX ∧
  match run [SpOfPtr 5%N; WpOfShared 0; SpDestroy 0] init_state with
  | None =>
      ∃ pre o' post s0,
        [SpOfPtr 5%N; WpOfShared 0; SpDestroy 0] = pre ++ o' :: post ∧
        run pre init_state = Some s0 ∧ promotes_empty o' s0
  | Some s =>
      (∀ a c, cell_at a (st_mem s) = Some c →
         strong_count a (st_mem s) = owners a (st_shared s) ∧
         weak_count a (st_mem s) =
           wowners a (st_weak s) + (if 0 <? strong_count a (st_mem s) then 1 else 0) ∧
         released c = (weak_count a (st_mem s) =? 0) ∧
         (released c = true ↔
          owners a (st_shared s) = 0 ∧ wowners a (st_weak s) = 0) ∧
         releases a (events (st_mem s)) =
           (if weak_count a (st_mem s) =? 0 then 1%nat else 0%nat) ∧
         (released c = true →
          strong_count a (st_mem s) = 0 ∧
          (managed_ptr a (st_mem s) ≠ nullptr →
           destroys a (events (st_mem s)) = 1%nat ∧
           destroy_before_release a (events (st_mem s))))) ∧
      match step (WpDestroy 0) s with
      | None => promotes_empty (WpDestroy 0) s
      | Some s' =>
          (∀ a c', cell_at a (st_mem s') = Some c' →
             strong_count a (st_mem s') = owners a (st_shared s') ∧
             weak_count a (st_mem s') =
               wowners a (st_weak s') +
               (if 0 <? strong_count a (st_mem s') then 1 else 0)) ∧
          ∃ evs, events (st_mem s') = events (st_mem s) ++ evs ∧
            ∀ a, a ≠ null_cb →
              releases a evs =
              (if (weak_count a (st_mem s) =? 1) && (weak_count a (st_mem s') =? 0)
               then 1%nat else 0%nat)
      end
  end.
Proof.
  assert (Z.of_nat (length [SpOfPtr 5%N; WpOfShared 0; SpDestroy 0]) + 1 < LONG_MAX) as H1
    by (vm_compute; reflexivity).
  split; [assumption|].
  exact (C2_control_block_released_once_after_object
           [SpOfPtr 5%N; WpOfShared 0; SpDestroy 0] (WpDestroy 0) H1).
Defined.

(** ** C10 *)



(** ** C3 *)

(** C3 (the code differs). For a weak_ptr without control block
    [use_count()] returns 0 but [expired()] returns [false], although it is
    documented as "check if use_count == 0"; a default-constructed and a
    reset weak_ptr are such. *)
Theorem C3_empty_weak_ptr_not_expired (p : ptr) (m : mem) :
  weak_ptr_use_count (mkWeak p null_cb) m = Ret 0 m ∧
  weak_ptr_expired (mkWeak p null_cb) m = Ret false m ∧
  weak_ptr_expired weak_ptr_default m = Ret false m ∧
  weak_ptr_reset (mkWeak p null_cb) m = Ret weak_ptr_default m.
Proof. by split_and!. Qed.

(** ** C5 *)

(** C5 (the code differs). [lock()] on a weak_ptr without control block
    does not return an empty shared_ptr: [expired()] answers [false], the
    converting constructor is entered and calls [inc_ref] through the null
    control-block pointer. *)
Theorem C5_lock_of_empty_weak_ptr_undefined (p : ptr) (m : mem) :
  weak_ptr_lock (mkWeak p null_cb) m = Undefined ∧
  weak_ptr_lock weak_ptr_default m = Undefined.
Proof. by split. Qed.

(** Where the weak_ptr holds a live control block, [lock()] does what C5
    says. *)
Lemma weak_ptr_lock_with_block (m : mem) (wp : weak_ptr) (i : nat) (c : cell) :
  wp_control_block wp = S i → cells m !! i = Some c → released c = false →
  (_use_count (block c) = 0 → weak_ptr_lock wp m = Ret shared_ptr_default m) ∧
  (_use_count (block c) ≠ 0 → LONG_MIN ≤ _use_count (block c) < LONG_MAX →
   weak_ptr_lock wp m =
   Ret (mkShared (wp_ptr wp) (wp_control_block wp))
       (mkMem (<[i := mkCell (set_use_count (_use_count (block c) + 1) (block c)) false]>
                 (cells m)) (events m))).
Proof.
  intros Ha Hc Hr.
  unfold weak_ptr_lock, noexcept, shared_ptr_of_weak, weak_ptr_expired,
    control_block_expired, mbind, M_bind, bind. rewrite Ha. simpl.
  rewrite (load_live _ _ _ Hc Hr). unfold ret. split.
  - intros ->. done.
  - intros Hnz Hrange. apply Z.eqb_neq in Hnz. rewrite Hnz.
    rewrite (load_live _ _ _ Hc Hr), Hnz.
    rewrite (inc_ref_eval _ _ _ Hc Hr).
    rewrite long_wrap_id by (unfold in_long; lia). done.
Qed.

(** ** C6 *)

(** C6. Constructing a shared_ptr from a weak_ptr whose (live) control
    block has strong count 0 throws [bad_weak_ptr] and leaves the memory as
    it was; from one whose block has a non-zero strong count it returns a
    shared_ptr with the weak_ptr's pointer and block, the strong count
    being one more and nothing else changed. *)
Theorem C6_shared_ptr_from_weak_ptr (m : mem) (wp : weak_ptr) (i : nat) (c : cell) :
  wp_control_block wp = S i → cells m !! i = Some c → released c = false →
  (_use_count (block c) = 0 → shared_ptr_of_weak wp m = Raise bad_weak_ptr m) ∧
  (_use_count (block c) ≠ 0 → LONG_MIN ≤ _use_count (block c) < LONG_MAX →
   ∃ m', shared_ptr_of_weak wp m = Ret (mkShared (wp_ptr wp) (wp_control_block wp)) m' ∧
         strong_count (S i) m' = _use_count (block c) + 1 ∧
         weak_count (S i) m' = _weak_use_count (block c) ∧
         (∀ b, b ≠ S i → cell_at b m' = cell_at b m) ∧
         events m' = events m).
Proof.
  intros Ha Hc Hr.
  unfold shared_ptr_of_weak, weak_ptr_expired, control_block_expired, mbind, M_bind, bind.
  rewrite Ha. simpl. rewrite (load_live _ _ _ Hc Hr). unfold ret. split.
  - intros ->. done.
  - intros Hnz Hrange. apply Z.eqb_neq in Hnz. rewrite Hnz.
    rewrite (inc_ref_eval _ _ _ Hc Hr).
    rewrite long_wrap_id by (unfold in_long; lia).
    eexists. split; [reflexivity|].
    pose proof (lookup_lt_Some _ _ _ Hc) as Hlt.
    unfold strong_count, weak_count. simpl.
    rewrite list_lookup_insert_eq by done. simpl. split_and!; try done.
    intros [|j] Hb; [done|]. simpl. apply list_lookup_insert_ne. congruence.
Qed.

Lemma C6_witness :
  (wp_control_block (mkWeak 5%N 1%nat) = 1%nat ∧
   cells (mkMem [mkCell (mkControlBlock 0 1 (mkPtr 5%N default_delete)) false] []) !! 0%nat =
     Some (mkCell (mkControlBlock 0 1 (mkPtr 5%N default_delete)) false) ∧
   released (mkCell (mkControlBlock 0 1 (mkPtr 5%N default_delete)) false) = false) ∧
  shared_ptr_of_weak (mkWeak 5%N 1%nat)
    (mkMem [mkCell (mkControlBlock 0 1 (mkPtr 5%N default_delete)) false] []) =
  Raise bad_weak_ptr (mkMem [mkCell (mkControlBlock 0 1 (mkPtr 5%N default_delete)) false] []).
Proof.
  split; [split_and!; reflexivity|].
  apply (C6_shared_ptr_from_weak_ptr
           (mkMem [mkCell (mkControlBlock 0 1 (mkPtr 5%N default_delete)) false] [])
           (mkWeak 5%N 1%nat) 0%nat
           (mkCell (mkControlBlock 0 1 (mkPtr 5%N default_delete)) false));
    reflexivity.
Defined.

(** ** C9 *)

(** C9. For every unique_ptr [up], constructing a shared_ptr from
    [std::move(up)] returns a shared_ptr with a fresh control block whose
    deleter is the unique_ptr's, [use_count() == 1] and [get()] equal to the
    pointer [up] held; afterwards [up.get()] is the null pointer, and
    destroying [up] calls no deleter. *)
Theorem C9_shared_ptr_from_unique_ptr (up : unique_ptr) (m : mem) :
  ∃ sp up' m',
    shared_ptr_of_unique up m = Ret (sp, up') m' ∧
    shared_ptr_use_count sp m' = Ret 1 m' ∧
    shared_ptr_get sp = unique_ptr_get up ∧
    unique_ptr_get up' = nullptr ∧
    sp_control_block sp = S (length (cells m)) ∧
    cell_at (sp_control_block sp) m = None ∧
    cell_at (sp_control_block sp) m' =
      Some (mkCell (mkControlBlock 1 1 (mkPtr (unique_ptr_get up) (unique_ptr_get_deleter up)))
                   false) ∧
    unique_ptr_dtor up' m' = Ret tt m'.
Proof.
  eexists _, _, _. split; [unfold shared_ptr_of_unique; simpl; reflexivity|]. simpl.
  unfold shared_ptr_use_count, control_block_use_count, mbind, M_bind, bind, load. simpl.
  rewrite lookup_app_r, Nat.sub_diag by done. simpl.
  split_and!; try done. by apply lookup_ge_None.
Qed.

(** ** C7 *)

Lemma mem_eta (m : mem) : mkMem (cells m) (events m) = m.
Proof. by destruct m. Qed.

Lemma cell_eta (c : cell) : mkCell (block c) (released c) = c.
Proof. by destruct c. Qed.

Lemma control_block_eta (cb : control_block) :
  mkControlBlock (_use_count cb) (_weak_use_count cb) (_impl cb) = cb.
Proof. by destruct cb. Qed.

(** C7. For every shared_ptr [sp] whose control block is live with a
    strong count [u >= 1]: casting to a related type and back, the
    intermediate temporary being destroyed, returns a shared_ptr [back] on
    the same control block (neither [sp.owner_before(back)] nor
    [back.owner_before(sp)]) whose pointer is the twice-converted one; the
    memory differs from the initial one by exactly one strong unit, the one
    [back] holds, and nothing was logged; when that unit is given back, by
    destroying [back] or by move-assigning it over [sp], the memory is
    exactly the initial one and [use_count()] is [u] as before. *)
Theorem C7_cast_round_trip (to_u to_t : ptr → ptr) (m : mem) (sp : shared_ptr)
    (i : nat) (c : cell) :
  sp_control_block sp = S i → cells m !! i = Some c → released c = false →
  1 ≤ _use_count (block c) → _use_count (block c) + 2 ≤ LONG_MAX →
  ∃ back m1,
    cast_round_trip to_u to_t sp m = Ret back m1 ∧
    sp_control_block back = sp_control_block sp ∧
    shared_ptr_owner_before sp back = false ∧
    shared_ptr_owner_before back sp = false ∧
    shared_ptr_get back = to_t (to_u (shared_ptr_get sp)) ∧
    shared_ptr_use_count sp m = Ret (_use_count (block c)) m ∧
    shared_ptr_use_count back m1 = Ret (_use_count (block c) + 1) m1 ∧
    shared_ptr_use_count sp m1 = Ret (_use_count (block c) + 1) m1 ∧
    events m1 = events m ∧
    shared_ptr_dtor back m1 = Ret tt m ∧
    shared_ptr_move_assign sp back m1 =
      Ret (mkShared (shared_ptr_get back) (sp_control_block sp), shared_ptr_default) m ∧
    shared_ptr_use_count (mkShared (shared_ptr_get back) (sp_control_block sp)) m =
      Ret (_use_count (block c)) m.
Proof.
  intros Ha Hc Hr Hu1 Hu2.
  pose proof (lookup_lt_Some _ _ _ Hc) as Hlt.
  set (u := _use_count (block c)) in *.
  set (cb1 := set_use_count (u + 1) (block c)).
  set (cb2 := set_use_count (u + 2) (block c)).
  set (m1 := mkMem (<[i := mkCell cb1 false]> (cells m)) (events m)).
  set (m2 := mkMem (<[i := mkCell cb2 false]> (cells m)) (events m)).
  assert (inc_ref (S i) m = Ret tt m1) as E1.
  { rewrite (inc_ref_eval _ _ _ Hc Hr). fold u.
    by rewrite long_wrap_id by (unfold in_long, LONG_MIN; lia). }
  assert (inc_ref (S i) m1 = Ret tt m2) as E2.
  { erewrite inc_ref_eval; [|simpl; by apply list_lookup_insert_eq|done]. simpl.
    rewrite long_wrap_id by (unfold in_long, LONG_MIN; lia).
    unfold m2, cb2. rewrite list_insert_insert_eq.
    by replace (u + 1 + 1) with (u + 2) by lia. }
  assert (dec_ref (S i) m2 = Ret tt m1) as E3.
  { erewrite dec_ref_eval; [|simpl; by apply list_lookup_insert_eq|done]. simpl.
    unfold dec_ref_cell, dec_ref_events. simpl.
    rewrite long_wrap_id by (unfold in_long, LONG_MIN; lia).
    replace (u + 2 - 1) with (u + 1) by lia.
    destruct (Z.eqb_spec (u + 1) 0); [lia|].
    by rewrite list_insert_insert_eq, app_nil_r. }
  assert (dec_ref (S i) m1 = Ret tt m) as E4.
  { erewrite dec_ref_eval; [|simpl; by apply list_lookup_insert_eq|done]. simpl.
    unfold dec_ref_cell, dec_ref_events. simpl.
    rewrite long_wrap_id by (unfold in_long, LONG_MIN; lia).
    replace (u + 1 - 1) with u by lia.
    destruct (Z.eqb_spec u 0); [lia|].
    rewrite list_insert_insert_eq, app_nil_r.
    unfold set_use_count, u. simpl. rewrite control_block_eta.
    rewrite <- Hr, cell_eta, list_insert_id by done. by rewrite mem_eta. }
  exists (mkShared (to_t (to_u (sp_ptr sp))) (S i)), m1.
  unfold cast_round_trip, static_pointer_cast, shared_ptr_alias, shared_ptr_dtor,
    shared_ptr_move_assign, shared_ptr_use_count, control_block_use_count,
    shared_ptr_owner_before, shared_ptr_get, mbind, M_bind, bind.
  rewrite Ha. cbn [sp_control_block sp_ptr cb_is_null Nat.eqb ret fst snd shared_ptr_move shared_ptr_swap].
  rewrite E1. cbn [sp_control_block sp_ptr cb_is_null Nat.eqb ret fst snd].
  rewrite E2. cbn [sp_control_block sp_ptr cb_is_null Nat.eqb ret fst snd].
  rewrite E3. unfold shared_ptr_dtor. rewrite Ha.
  cbn [sp_control_block sp_ptr cb_is_null Nat.eqb ret fst snd].
  rewrite E4. unfold ret.
  rewrite (load_live _ _ _ Hc Hr).
  erewrite load_live; [|simpl; by apply list_lookup_insert_eq|done].
  cbn [block cb1 set_use_count _use_count].
  rewrite Nat.ltb_irrefl. by split_and!.
Qed.

Lemma C7_witness :
  ∃ back m1,
    cast_round_trip (λ p, p) (λ p, p) (mkShared 5%N 1%nat)
      (mkMem [mkCell (mkControlBlock 1 1 (mkPtr 5%N default_delete)) false] []) =
    Ret back m1 ∧
    sp_control_block back = 1%nat ∧
    shared_ptr_use_count back m1 = Ret 2 m1 ∧
    shared_ptr_dtor back m1 =
      Ret tt (mkMem [mkCell (mkControlBlock 1 1 (mkPtr 5%N default_delete)) false] []).
Proof.
  destruct (C7_cast_round_trip (λ p, p) (λ p, p)
              (mkMem [mkCell (mkControlBlock 1 1 (mkPtr 5%N default_delete)) false] [])
              (mkShared 5%N 1%nat) 0%nat
              (mkCell (mkControlBlock 1 1 (mkPtr 5%N default_delete)) false)
              eq_refl eq_refl eq_refl ltac:(simpl; lia) ltac:(vm_compute; discriminate))
    as (back & m1 & H1 & H2 & _ & _ & _ & _ & H3 & _ & _ & H4 & _).
  exists back, m1. by split_and!.
Defined.

(** ** C4 *)

(** C4 (the code differs). The constructor that wraps a raw pointer never
    binds the object's [weak_this]: after [shared_ptr<T> sp(p)] the embedded
    weak_ptr of the object at [p] is still the empty one. [shared_from_this()]
    on such an object, wrapped or not, neither returns a shared_ptr nor throws
    [bad_weak_ptr]: [expired()] of the empty weak_ptr is [false], so the
    constructor [shared_ptr(const weak_ptr&)] goes on to call [inc_ref]
    through a null control-block pointer. *)
Theorem C4_shared_from_this_never_bound (p : ptr) (w : world) :
  shared_from_this_at p (new_object p w) = Undefined ∧
  ∃ sp w',
    wrap p (new_object p w) = Ret (sp, w') (w_mem w') ∧
    w_objects w' = w_objects (new_object p w) ∧
    sp_control_block sp ≠ null_cb ∧
    object_at p (w_objects w') = Some (mkEsft weak_ptr_default) ∧
    shared_from_this_at p w' = Undefined.
Proof.
  unfold shared_from_this_at, wrap, new_object. simpl. rewrite N.eqb_refl.
  split; [done|].
  exists (mkShared p (S (length (cells (w_mem w))))),
    (mkWorld (mkMem (cells (w_mem w) ++
                       [mkCell (mkControlBlock 1 1 (mkPtr p default_delete)) false])
                    (events (w_mem w)))
             ((p, enable_shared_from_this_ctor) :: w_objects w)).
  simpl. rewrite N.eqb_refl. by split_and!.
Qed.

(** Neither the copy constructor nor the assignment operator of
    [enable_shared_from_this] binds [weak_this] either. *)
Lemma enable_shared_from_this_stays_empty (r : enable_shared_from_this) :
  weak_this enable_shared_from_this_ctor = weak_ptr_default ∧
  weak_this (enable_shared_from_this_copy r) = weak_ptr_default ∧
  weak_this (enable_shared_from_this_assign enable_shared_from_this_ctor r) = weak_ptr_default.
Proof. by split_and!. Qed.

(** ** C8 *)

(** Taken without interruption, the three steps of [lock()] are the
    function [weak_ptr_lock]. *)
Lemma weak_ptr_expired_cases (wp : weak_ptr) (m : mem) :
  (∃ b, weak_ptr_expired wp m = Ret b m) ∨ weak_ptr_expired wp m = Undefined.
Proof.
  unfold weak_ptr_expired, control_block_expired, mbind, M_bind, bind, load, ret.
  destruct (cb_is_null _); [left; by eexists|].
  destruct (cell_at _ m) as [c|]; [|by right].
  destruct (released c); [by right|left; by eexists].
Qed.

Lemma inc_ref_cases (a : cbptr) (m : mem) :
  (∃ m', inc_ref a m = Ret tt m') ∨ inc_ref a m = Undefined.
Proof.
  unfold inc_ref, update, mbind, M_bind, bind, load, ret.
  destruct (cell_at a m) as [c|]; [|by right].
  destruct (released c); [by right|left; by eexists].
Qed.

Lemma lock_steps_sequential (wp : weak_ptr) (m : mem) :
  lock_result (interleave wp [ThreadA; ThreadA; ThreadA] (LockStart, m)) =
  weak_ptr_lock wp m.
Proof.
  unfold interleave, lock_result, weak_ptr_lock, noexcept, shared_ptr_of_weak,
    mbind, M_bind, bind. simpl.
  destruct (weak_ptr_expired_cases wp m) as [[b E]|E]; rewrite E; [|done].
  destruct b; simpl; [done|]. rewrite E. simpl.
  by destruct (inc_ref_cases (wp_control_block wp) m) as [[m' ->]| ->].
Qed.

(** C8 (the code differs). The expiry check and the strong increment of
    [lock()] are separate atomic accesses. With one shared_ptr and one
    weak_ptr on the object at [p]: thread A passes both checks of [lock()],
    another thread then destroys the only shared_ptr, which runs the deleter
    on [p], and thread A increments the strong count from 0 to 1. [lock()]
    returns a non-empty shared_ptr to the destroyed object; when that
    shared_ptr dies the deleter runs on [p] a second time and the control
    block is deleted under the weak_ptr. *)
Theorem C8_lock_races_with_last_release (q : positive) (d : deleter_t) :
  let p := N.pos q in
  let wp := mkWeak p 1%nat in
  let sp := mkShared p 1%nat in
  let m0 := one_owner_one_observer p d in
  shared_ptr_of_ptr_deleter p d (mkMem [] []) =
    Ret sp (mkMem [mkCell (mkControlBlock 1 1 (mkPtr p d)) false] []) ∧
  weak_ptr_of_shared sp (mkMem [mkCell (mkControlBlock 1 1 (mkPtr p d)) false] []) =
    Ret wp m0 ∧
  let c := interleave wp [ThreadA; ThreadA; ThreadB sp; ThreadA] (LockStart, m0) in
  lock_result c = Ret (mkShared p 1%nat) (snd c) ∧
  events (snd c) = [EvDestroy 1%nat d p] ∧
  strong_count 1%nat (snd c) = 1 ∧
  ∃ m', shared_ptr_dtor (mkShared p 1%nat) (snd c) = Ret tt m' ∧
        events m' = [EvDestroy 1%nat d p; EvDestroy 1%nat d p; EvRelease 1%nat] ∧
        is_released 1%nat m' = true ∧
        weak_ptr_expired wp m' = Undefined.
Proof.
  intros p wp sp m0.
  split; [reflexivity|]. split; [reflexivity|]. intros c.
  split; [reflexivity|]. split; [reflexivity|]. split; [reflexivity|].
  eexists. split; [lazy; reflexivity|]. split; [reflexivity|]. split; reflexivity.
Qed.

(** * Further properties of [sp::shared_ptr] and [sp::weak_ptr] *)

(** ** What the member functions return *)

Lemma weak_ptr_expired_ret (wp : weak_ptr) (m m' : mem) (b : bool) :
  weak_ptr_expired wp m = Ret b m' →
  m' = m ∧
  (wp_control_block wp = null_cb → b = false) ∧
  (wp_control_block wp ≠ null_cb → b = (strong_count (wp_control_block wp) m =? 0)).
Proof.
  unfold weak_ptr_expired, control_block_expired, strong_count, load, mbind, M_bind, bind, ret.
  destruct (wp_control_block wp) as [|i]; simpl.
  - intros [= <- <-]. by split_and!.
  - destruct (cells m !! i) as [c|]; [|done]. destruct (released c); [done|].
    intros [= <- <-]. by split_and!.
Qed.

Lemma shared_ptr_alias_ret (sp x : shared_ptr) (p : ptr) (m m' : mem) :
  shared_ptr_alias sp p m = Ret x m' → x = mkShared p (sp_control_block sp).
Proof.
  unfold shared_ptr_alias, mbind, M_bind, bind, ret. simpl.
  destruct (cb_is_null _); [by intros [= <- <-]|].
  destruct (inc_ref _ m); try done. by intros [= <- <-].
Qed.

Lemma shared_ptr_of_weak_ret (wp : weak_ptr) (x : shared_ptr) (m m' : mem) :
  shared_ptr_of_weak wp m = Ret x m' →
  x = mkShared (wp_ptr wp) (wp_control_block wp) ∧
  (wp_control_block wp ≠ null_cb → strong_count (wp_control_block wp) m ≠ 0).
Proof.
  unfold shared_ptr_of_weak, mbind, M_bind, bind, ret, throw. simpl.
  destruct (weak_ptr_expired wp m) as [b m0| | |] eqn:E; try done.
  apply weak_ptr_expired_ret in E as (-> & _ & Hb).
  destruct b; [done|]. destruct (inc_ref _ m); try done. intros [= <- <-].
  split; [done|]. intros Hn. specialize (Hb Hn). symmetry in Hb. by apply Z.eqb_neq in Hb.
Qed.

Lemma weak_ptr_lock_ret (wp : weak_ptr) (x : shared_ptr) (m m' : mem) :
  weak_ptr_lock wp m = Ret x m' →
  x = shared_ptr_default ∨
  (x = mkShared (wp_ptr wp) (wp_control_block wp) ∧
   (wp_control_block wp ≠ null_cb → strong_count (wp_control_block wp) m ≠ 0)).
Proof.
  unfold weak_ptr_lock, noexcept, mbind, M_bind, bind, ret.
  destruct (weak_ptr_expired wp m) as [b m0| | |] eqn:E; try done.
  apply weak_ptr_expired_ret in E as (-> & _ & _).
  destruct b; [intros [= <- <-]; by left|].
  destruct (shared_ptr_of_weak wp m) as [y m1| | |] eqn:E'; try done.
  intros [= <- <-]. right. by eapply shared_ptr_of_weak_ret.
Qed.

Lemma new_control_block_ret (p : ptr) (d : deleter_t) (a : cbptr) (m m' : mem) :
  new_control_block p d m = Ret a m' → a = S (length (cells m)).
Proof. unfold new_control_block. by intros [= <- <-]. Qed.

Lemma shared_ptr_of_ptr_deleter_ret (p : ptr) (d : deleter_t) (x : shared_ptr) (m m' : mem) :
  shared_ptr_of_ptr_deleter p d m = Ret x m' → x = mkShared p (S (length (cells m))).
Proof. unfold shared_ptr_of_ptr_deleter, new_control_block, mbind, M_bind, bind, ret.
       by intros [= <- <-]. Qed.

Lemma shared_ptr_assign_ret (this sp x : shared_ptr) (m m' : mem) :
  shared_ptr_assign this sp m = Ret x m' → x = mkShared (sp_ptr sp) (sp_control_block sp).
Proof.
  unfold shared_ptr_assign, mbind, M_bind, bind, ret.
  destruct (shared_ptr_copy sp m) as [y m1| | |] eqn:E; try done.
  apply shared_ptr_alias_ret in E as ->. simpl.
  destruct (shared_ptr_dtor this m1); try done. by intros [= <- <-].
Qed.

Lemma shared_ptr_move_assign_ret (this sp : shared_ptr) (r : shared_ptr * shared_ptr)
    (m m' : mem) :
  shared_ptr_move_assign this sp m = Ret r m' →
  r = (mkShared (sp_ptr sp) (sp_control_block sp), shared_ptr_default).
Proof.
  unfold shared_ptr_move_assign, mbind, M_bind, bind, ret. simpl.
  destruct (shared_ptr_dtor this m); try done. by intros [= <- <-].
Qed.

Lemma shared_ptr_reset_ret (this x : shared_ptr) (m m' : mem) :
  shared_ptr_reset this m = Ret x m' → x = shared_ptr_default.
Proof.
  unfold shared_ptr_reset, mbind, M_bind, bind, ret. simpl.
  destruct (shared_ptr_dtor this m); try done. by intros [= <- <-].
Qed.

Lemma shared_ptr_reset_ptr_deleter_ret (this x : shared_ptr) (p : ptr) (d : deleter_t)
    (m m' : mem) :
  shared_ptr_reset_ptr_deleter this p d m = Ret x m' →
  x = mkShared p (S (length (cells m))).
Proof.
  unfold shared_ptr_reset_ptr_deleter, mbind, M_bind, bind, ret.
  destruct (shared_ptr_of_ptr_deleter p d m) as [y m1| | |] eqn:E; try done.
  apply shared_ptr_of_ptr_deleter_ret in E as ->. simpl.
  destruct (shared_ptr_dtor this m1); try done. by intros [= <- <-].
Qed.

(** ** Where a new owner can come from *)

Lemma elem_of_insert_inv {A} (l : list A) (i : nat) (x y : A) :
  x ∈ <[i := y]> l → x = y ∨ x ∈ l.
Proof.
  intros Hin. apply list_elem_of_lookup in Hin as [j Hj].
  destruct (decide (i = j)) as [->|Hne].
  - destruct (decide (j < length l)%nat).
    + rewrite list_lookup_insert_eq in Hj by done. left. congruence.
    + rewrite list_insert_ge in Hj by lia. right. by eapply list_elem_of_lookup_2.
  - rewrite list_lookup_insert_ne in Hj by done. right. by eapply list_elem_of_lookup_2.
Qed.

Lemma elem_of_delete_inv {A} (l : list A) (i : nat) (x : A) :
  x ∈ delete i l → x ∈ l.
Proof.
  revert i. induction l as [|z l IH]; intros [|i]; simpl; try done.
  - intros H. by apply list_elem_of_further.
  - rewrite !elem_of_cons. intros [->|H]; [by left|right; by eapply IH].
Qed.

Lemma count_by_zero_iff {A} (f : A → cbptr) (a : cbptr) (l : list A) :
  count_by f a l = 0 ↔ ∀ x, x ∈ l → f x ≠ a.
Proof.
  split.
  - intros H0 x Hx. by eapply count_by_zero_not_elem.
  - induction l as [|z l IH]; intros H; [done|].
    rewrite count_by_cons. unfold ind.
    rewrite decide_False by (apply H, list_elem_of_here).
    rewrite IH; [done|]. intros x Hx. apply H. by apply list_elem_of_further.
Qed.

Ltac use_shapes :=
  repeat match goal with
    | H : shared_ptr_of_ptr ?p ?m = Ret _ _ |- _ =>
        apply (shared_ptr_of_ptr_deleter_ret p default_delete) in H
    | H : shared_ptr_of_ptr_deleter _ _ _ = Ret _ _ |- _ =>
        apply shared_ptr_of_ptr_deleter_ret in H
    | H : shared_ptr_of_nullptr_deleter ?d ?m = Ret _ _ |- _ =>
        apply (shared_ptr_of_ptr_deleter_ret nullptr d) in H
    | H : shared_ptr_alias _ _ _ = Ret _ _ |- _ => apply shared_ptr_alias_ret in H
    | H : shared_ptr_copy ?sp ?m = Ret _ _ |- _ =>
        apply (shared_ptr_alias_ret sp _ (sp_ptr sp)) in H
    | H : shared_ptr_of_weak _ _ = Ret _ _ |- _ =>
        apply shared_ptr_of_weak_ret in H as [? ?]
    | H : weak_ptr_lock _ _ = Ret _ _ |- _ =>
        apply weak_ptr_lock_ret in H as [?|[? ?]]
    | H : shared_ptr_assign _ _ _ = Ret _ _ |- _ => apply shared_ptr_assign_ret in H
    | H : shared_ptr_move_assign _ _ _ = Ret _ _ |- _ =>
        apply shared_ptr_move_assign_ret in H
    | H : shared_ptr_move_assign_self ?t ?m = Ret _ _ |- _ =>
        rewrite (shared_ptr_move_assign_self_eval m t) in H; injection H as <- <-
    | H : shared_ptr_reset _ _ = Ret _ _ |- _ => apply shared_ptr_reset_ret in H
    | H : shared_ptr_reset_ptr ?t ?p ?m = Ret _ _ |- _ =>
        apply (shared_ptr_reset_ptr_deleter_ret t _ p default_delete) in H
    | H : shared_ptr_reset_ptr_deleter _ _ _ _ = Ret _ _ |- _ =>
        apply shared_ptr_reset_ptr_deleter_ret in H
    end.

(** A shared_ptr of the next state that points at block [a] is a copy of
    one that did so before, or [a] was allocated by this operation, or it
    was promoted from a weak_ptr while the strong count of [a] was not 0. *)
Lemma step_new_owner (o : op) (s s' : state) (x : shared_ptr) :
  step o s = Some s' → x ∈ st_shared s' → sp_control_block x ≠ null_cb →
  (∃ y, y ∈ st_shared s ∧ sp_control_block y = sp_control_block x) ∨
  cell_at (sp_control_block x) (st_mem s) = None ∨
  strong_count (sp_control_block x) (st_mem s) ≠ 0.
Proof.
  destruct s as [m sps wps]. intros Hstep Hx Hn. cbn [st_mem st_shared st_weak].
  assert (cell_at (S (length (cells m))) m = None) as Hfresh
    by (simpl; by apply lookup_ge_None).
  unfold step, exec in Hstep. cbn [st_mem st_shared st_weak] in Hstep.
  destruct o;
    repeat match type of Hstep with
      | context [match ?l !! ?i with _ => _ end] =>
          let E := fresh "E" in destruct (l !! i) eqn:E
      | context [decide ?P] => destruct (decide P)
      end;
    try (injection Hstep as <-; left; by eauto);
    try match type of Hstep with
      | context [match ?c m with _ => _ end] =>
          let E := fresh "E" in destruct (c m) eqn:E; try done
      end;
    try (injection Hstep as <-; left; by eauto);
    simpl in Hstep; injection Hstep as <-; simpl in Hx.
  all: use_shapes; subst.
  all: try apply elem_of_app in Hx as [Hx|Hx%list_elem_of_singleton].
  all: repeat match goal with
         | H : _ ∈ <[_ := _]> _ |- _ => apply elem_of_insert_inv in H as [H|H]
         | H : _ ∈ delete _ _ |- _ => apply elem_of_delete_inv in H
         end.
  all: subst; simpl in *.
  all: try (left; by eauto).
  all: try (right; left; done).
  all: try (right; right; by auto).
  all: simplify_eq; left;
    match goal with
    | H : _ !! _ = Some ?y |- _ =>
        exists y; split; [eapply list_elem_of_lookup_2; exact H|done]
    end.
Qed.

(** Once no shared_ptr shares an allocated block, none ever will. *)
Lemma step_no_new_owner (o : op) (s s' : state) (a : cbptr) :
  Inv s → step o s = Some s' →
  is_Some (cell_at a (st_mem s)) → owners a (st_shared s) = 0 →
  owners a (st_shared s') = 0.
Proof.
  intros HI Hstep [c Hc] H0. apply count_by_zero_iff. intros x Hx Hxa.
  assert (a ≠ null_cb) as Hn by (intros ->; done).
  assert (sp_control_block x ≠ null_cb) as Hxn by congruence.
  destruct (step_new_owner o s s' x Hstep Hx Hxn) as [(y & Hy & Hya)|[Hnone|Hnz]].
  - rewrite Hxa in Hya. subst a.
    eapply (count_by_zero_not_elem sp_control_block); eauto.
  - congruence.
  - rewrite Hxa in Hnz. unfold strong_count in Hnz. rewrite Hc in Hnz.
    destruct a as [|i]; [done|]. simpl in Hc.
    destruct (Inv_block s i c HI Hc) as (Hu & _). unfold owners in *. lia.
Qed.

Lemma run_no_new_owner (ops : list op) (s s' : state) (a : cbptr) :
  Inv s →
  Z.of_nat (length (st_shared s) + length ops) < LONG_MAX →
  Z.of_nat (length (st_weak s) + length ops) + 1 < LONG_MAX →
  run ops s = Some s' →
  is_Some (cell_at a (st_mem s)) → owners a (st_shared s) = 0 →
  owners a (st_shared s') = 0 ∧ is_Some (cell_at a (st_mem s')).
Proof.
  revert s. induction ops as [|o ops IH]; intros s HI Hb1 Hb2 Hrun Hc H0; simpl in *.
  - by injection Hrun as <-.
  - destruct (step o s) as [s1|] eqn:Hs1; [|done].
    assert (bounded s) as Hb by (split; lia).
    pose proof (step_ok s o HI Hb) as Hstep. rewrite Hs1 in Hstep.
    destruct Hstep as [HI1 [_ Hx1] _ _ _ _ [Hl1 Hl2]].
    assert (is_Some (cell_at a (st_mem s1))) as Hc1.
    { destruct Hc as [c Hc]. destruct a as [|i]; [done|]. simpl in *.
      destruct (Hx1 _ _ Hc) as (c' & Hc' & _). by exists c'. }
    pose proof (step_no_new_owner o s s1 a HI Hs1 Hc H0) as H1.
    apply (IH s1); try done; lia.
Qed.

(** ** States reached in two stretches *)

Lemma run_reach_from (ops1 ops2 : list op) (s1 s2 : state) :
  Z.of_nat (length ops1 + length ops2) + 1 < LONG_MAX →
  run ops1 init_state = Some s1 → run ops2 s1 = Some s2 →
  Inv s1 ∧ Inv s2 ∧ mem_ext (st_mem s1) (st_mem s2) ∧
  Z.of_nat (length (st_shared s1) + length ops2) < LONG_MAX ∧
  Z.of_nat (length (st_weak s1) + length ops2) + 1 < LONG_MAX.
Proof.
  intros Hb H1 H2.
  pose proof (run_from ops1 init_state Inv_init) as Hr1. simpl in Hr1. rewrite H1 in Hr1.
  destruct Hr1 as (HI1 & _ & Hl1 & Hl2); [lia|lia|].
  pose proof (run_from ops2 s1 HI1) as Hr2. rewrite H2 in Hr2.
  destruct Hr2 as (HI2 & Hx & _ & _); [lia|lia|].
  split_and!; try done; lia.
Qed.

(** ** weak_use_count() *)

(** X1. In every state a program can reach, [control_block::weak_use_count()]
    of a block that some shared_ptr or weak_ptr still shares returns the
    number of live weak_ptr instances sharing it: the implicit unit held on
    behalf of the strong owners is subtracted. *)
Theorem weak_use_count_counts_weak_ptrs (ops : list op) (s : state) (a : cbptr) :
  Z.of_nat (length ops) + 1 < LONG_MAX →
  run ops init_state = Some s →
  a ≠ null_cb →
  0 < owners a (st_shared s) ∨ 0 < wowners a (st_weak s) →
  control_block_weak_use_count a (st_mem s) = Ret (wowners a (st_weak s)) (st_mem s).
Proof.
  intros Hb Hrun Ha Hpos. destruct (run_reach ops s Hb Hrun) as [HI Hbd].
  destruct a as [|i]; [done|].
  destruct (wf_live _ _ _ i HI Hpos) as (c & Hc & Hr & _).
  destruct (Inv_block s i c HI Hc) as (Hu & Hw & _).
  pose proof (wowners_bound s (S i) Hbd) as Hmax.
  pose proof (count_by_nonneg wp_control_block (S i) (st_weak s)) as Hmin.
  fold (wowners (S i) (st_weak s)) in Hmin.
  unfold control_block_weak_use_count, mbind, M_bind, bind.
  rewrite (load_live _ _ _ Hc Hr). cbn zeta.
  replace (_weak_use_count (block c) - (if 0 <? _use_count (block c) then 1 else 0))
    with (wowners (S i) (st_weak s)) by (rewrite Hw; lia).
  replace (LONG_MIN <=? wowners (S i) (st_weak s)) with true
    by (symmetry; apply Z.leb_le; unfold LONG_MIN; lia).
  replace (wowners (S i) (st_weak s) <=? LONG_MAX) with true
    by (symmetry; apply Z.leb_le; lia).
  done.
Qed.

Lemma weak_use_count_counts_weak_ptrs_witness :
  control_block_weak_use_count 1%nat
    (mkMem [mkCell (mkControlBlock 1 3 (mkPtr 5%N default_delete)) false] []) =
  Ret 2 (mkMem [mkCell (mkControlBlock 1 3 (mkPtr 5%N default_delete)) false] []).
Proof.
  exact (weak_use_count_counts_weak_ptrs
           [SpOfPtr 5%N; WpOfShared 0; WpCopy 0] _ 1%nat
           ltac:(vm_compute; reflexivity) eq_refl ltac:(discriminate)
           ltac:(left; vm_compute; reflexivity)).
Defined.

(** ** unique() *)

(** X2. In every state a program can reach, [shared_ptr::unique()] of a live
    shared_ptr is [true] exactly when it has a control block and is the only
    live shared_ptr sharing it; weak_ptr instances do not count. *)
Theorem unique_iff_single_owner (ops : list op) (s : state) (sp : shared_ptr) :
  Z.of_nat (length ops) + 1 < LONG_MAX →
  run ops init_state = Some s →
  sp ∈ st_shared s →
  ∃ b, shared_ptr_unique sp (st_mem s) = Ret b (st_mem s) ∧
       (b = true ↔ sp_control_block sp ≠ null_cb ∧
                   owners (sp_control_block sp) (st_shared s) = 1).
Proof.
  intros Hb Hrun Hin. destruct (run_reach ops s Hb Hrun) as [HI _].
  unfold shared_ptr_unique.
  destruct (sp_control_block sp) as [|i] eqn:Ha; simpl.
  - exists false. split; [done|]. split; [done|]. by intros [? _].
  - apply list_elem_of_lookup in Hin as [j Hj].
    pose proof (count_by_lookup sp_control_block _ _ _ _ Hj Ha) as Hpos.
    destruct (wf_live _ _ _ i HI) as (c & Hc & Hr & _); [left; unfold owners; simpl; lia|].
    destruct (Inv_block s i c HI Hc) as (Hu & _).
    unfold control_block_unique, mbind, M_bind, bind.
    rewrite (load_live _ _ _ Hc Hr). unfold ret. eexists. split; [reflexivity|].
    rewrite Hu. rewrite Z.eqb_eq. split; [by intros ?|by intros [_ ?]].
Qed.

Lemma unique_iff_single_owner_witness :
  ∃ b, shared_ptr_unique (mkShared 5%N 1%nat)
         (mkMem [mkCell (mkControlBlock 1 2 (mkPtr 5%N default_delete)) false] []) =
       Ret b (mkMem [mkCell (mkControlBlock 1 2 (mkPtr 5%N default_delete)) false] []) ∧
       (b = true ↔ sp_control_block (mkShared 5%N 1%nat) ≠ null_cb ∧
                   owners (sp_control_block (mkShared 5%N 1%nat)) [mkShared 5%N 1%nat] = 1).
Proof.
  exact (unique_iff_single_owner [SpOfPtr 5%N; WpOfShared 0] _ (mkShared 5%N 1%nat)
           ltac:(vm_compute; reflexivity) eq_refl ltac:(apply list_elem_of_here)).
Defined.

(** ** Expiry *)

(** X3. For a live weak_ptr that holds a control block, [expired()] is [true]
    exactly when no live shared_ptr shares the block; and once that is so it
    stays so whatever the program does next: [expired()] keeps returning
    [true] and [lock()] the empty shared_ptr, with the memory untouched. *)
Theorem expired_iff_no_owner_and_permanent (ops1 ops2 : list op) (s1 s2 : state)
    (wp : weak_ptr) :
  Z.of_nat (length ops1 + length ops2) + 1 < LONG_MAX →
  run ops1 init_state = Some s1 → run ops2 s1 = Some s2 →
  wp ∈ st_weak s2 → wp_control_block wp ≠ null_cb →
  weak_ptr_expired wp (st_mem s2) =
    Ret (owners (wp_control_block wp) (st_shared s2) =? 0) (st_mem s2) ∧
  (is_Some (cell_at (wp_control_block wp) (st_mem s1)) →
   owners (wp_control_block wp) (st_shared s1) = 0 →
   weak_ptr_expired wp (st_mem s2) = Ret true (st_mem s2) ∧
   weak_ptr_lock wp (st_mem s2) = Ret shared_ptr_default (st_mem s2) ∧
   weak_ptr_use_count wp (st_mem s2) = Ret 0 (st_mem s2)).
Proof.
  intros Hb H1 H2 Hin Hn.
  destruct (run_reach_from ops1 ops2 s1 s2 Hb H1 H2) as (HI1 & HI2 & Hx & Hb1 & Hb2).
  apply list_elem_of_lookup in Hin as [k Hk].
  pose proof (count_by_lookup wp_control_block _ _ _ _ Hk eq_refl) as Hpos.
  assert (weak_ptr_expired wp (st_mem s2) =
          Ret (owners (wp_control_block wp) (st_shared s2) =? 0) (st_mem s2)) as Hexp.
  { apply (weak_ptr_expired_live _ _ _ wp HI2 Hn). unfold wowners. lia. }
  split; [done|]. intros Hc H0.
  destruct (run_no_new_owner ops2 s1 s2 _ HI1 Hb1 Hb2 H2 Hc H0) as [H0' _].
  rewrite H0' in Hexp. split; [done|]. split.
  - unfold weak_ptr_lock, noexcept, mbind, M_bind, bind. by rewrite Hexp.
  - rewrite (Inv_weak_use_count s2 wp HI2); [by rewrite H0'| |done].
    by eapply list_elem_of_lookup_2.
Qed.

Lemma expired_iff_no_owner_and_permanent_witness :
  ∃ s2,
    run [WpCopy 0; SpDefault] (mkState
      (mkMem [mkCell (mkControlBlock 0 1 (mkPtr 5%N default_delete)) false]
             [EvDestroy 1%nat default_delete 5%N])
      [] [mkWeak 5%N 1%nat]) = Some s2 ∧
    weak_ptr_lock (mkWeak 5%N 1%nat) (st_mem s2) = Ret shared_ptr_default (st_mem s2).
Proof.
  eexists. split; [reflexivity|].
  refine (proj1 (proj2 (proj2 (expired_iff_no_owner_and_permanent
           [SpOfPtr 5%N; WpOfShared 0; SpDestroy 0] [WpCopy 0; SpDefault] _ _ (mkWeak 5%N 1%nat)
           ltac:(vm_compute; reflexivity) eq_refl eq_refl
           ltac:(apply list_elem_of_here) ltac:(discriminate))
           ltac:(by eexists) ltac:(reflexivity)))).
Defined.

(** ** lock() in one thread *)

(** X4. Whatever the memory and the weak_ptr, [lock()] called without
    interference neither lets an exception out nor terminates: the test in
    [lock()] and the one repeated in the converting constructor read the same
    counter, so [bad_weak_ptr] is never thrown inside the [noexcept]
    function. *)
Theorem lock_never_throws_in_one_thread (wp : weak_ptr) (m : mem) :
  weak_ptr_lock wp m ≠ Terminate ∧ ∀ e m', weak_ptr_lock wp m ≠ Raise e m'.
Proof.
  unfold weak_ptr_lock, noexcept, shared_ptr_of_weak, mbind, M_bind, bind, ret, throw.
  destruct (weak_ptr_expired_cases wp m) as [[b E]|E]; rewrite E; [|by split].
  destruct b; [by split|]. rewrite E. cbn [sp_control_block].
  by destruct (inc_ref_cases (wp_control_block wp) m) as [[m' ->]| ->].
Qed.

(** ** get_deleter *)

(** X5. [get_deleter] on a shared_ptr that shares the block made by
    [shared_ptr(p, d)] returns [d], whatever the program has done since and
    whichever copy, alias or promoted shared_ptr is asked; on a shared_ptr
    without control block it dereferences the null pointer. *)
Theorem get_deleter_returns_bound_deleter (ops1 ops2 : list op) (p : ptr) (d : deleter_t)
    (s1 s2 : state) (sp : shared_ptr) :
  Z.of_nat (length ops1 + length ops2) + 2 < LONG_MAX →
  run ops1 init_state = Some s1 →
  run (SpOfPtrDeleter p d :: ops2) s1 = Some s2 →
  sp ∈ st_shared s2 → sp_control_block sp = S (length (cells (st_mem s1))) →
  get_deleter sp (st_mem s2) = Ret d (st_mem s2) ∧
  get_deleter shared_ptr_default (st_mem s2) = Undefined.
Proof.
  intros Hb H1 H2 Hin Ha. split; [|done].
  change (SpOfPtrDeleter p d :: ops2) with ([SpOfPtrDeleter p d] ++ ops2) in H2.
  rewrite run_app in H2.
  destruct (run [SpOfPtrDeleter p d] s1) as [s1'|] eqn:Hs1'; [|done].
  assert (run (ops1 ++ [SpOfPtrDeleter p d]) init_state = Some s1') as H1'.
  { by rewrite run_app, H1. }
  destruct (run_reach_from (ops1 ++ [SpOfPtrDeleter p d]) ops2 s1' s2) as
    (HI1 & HI2 & [_ Hcells] & _); try done.
  { rewrite length_app. simpl. lia. }
  simpl in Hs1'. injection Hs1' as <-. simpl in Hcells.
  destruct (Hcells (length (cells (st_mem s1)))
              (mkCell (mkControlBlock 1 1 (mkPtr p d)) false)) as (c & Hc & Himpl).
  { by rewrite lookup_app_r, Nat.sub_diag. }
  apply list_elem_of_lookup in Hin as [j Hj].
  pose proof (count_by_lookup sp_control_block _ _ _ _ Hj Ha) as Hpos.
  destruct (wf_live _ _ _ (length (cells (st_mem s1))) HI2) as (c' & Hc' & Hr & _).
  { left. unfold owners. simpl. lia. }
  rewrite Hc in Hc'. injection Hc' as <-.
  unfold get_deleter, control_block_get_deleter, mbind, M_bind, bind. rewrite Ha.
  rewrite (load_live _ _ _ Hc Hr). unfold ret. by rewrite Himpl.
Qed.

Lemma get_deleter_returns_bound_deleter_witness :
  get_deleter (mkShared 9%N 2%nat)
    (mkMem [mkCell (mkControlBlock 1 1 (mkPtr 5%N default_delete)) false;
            mkCell (mkControlBlock 2 1 (mkPtr 7%N (custom_deleter 3))) false] []) =
  Ret (custom_deleter 3)
    (mkMem [mkCell (mkControlBlock 1 1 (mkPtr 5%N default_delete)) false;
            mkCell (mkControlBlock 2 1 (mkPtr 7%N (custom_deleter 3))) false] []).
Proof.
  exact (proj1 (get_deleter_returns_bound_deleter
           [SpOfPtr 5%N] [SpAlias 1 9%N] 7%N (custom_deleter 3) _ _ (mkShared 9%N 2%nat)
           ltac:(vm_compute; reflexivity) eq_refl eq_refl
           ltac:(apply list_elem_of_further, list_elem_of_further, list_elem_of_here)
           eq_refl)).
Defined.

(** ** Self-assignment *)

Lemma shared_ptr_eta (sp : shared_ptr) : mkShared (sp_ptr sp) (sp_control_block sp) = sp.
Proof. by destruct sp. Qed.

Lemma weak_ptr_eta (wp : weak_ptr) : mkWeak (wp_ptr wp) (wp_control_block wp) = wp.
Proof. by destruct wp. Qed.

Lemma inc_ref_then_dec_ref (m : mem) (i : nat) (c : cell) :
  cells m !! i = Some c → released c = false →
  1 ≤ _use_count (block c) < LONG_MAX →
  ∃ m1, inc_ref (S i) m = Ret tt m1 ∧ dec_ref (S i) m1 = Ret tt m.
Proof.
  intros Hc Hr Hu. pose proof (lookup_lt_Some _ _ _ Hc) as Hlt.
  rewrite (inc_ref_eval _ _ _ Hc Hr). eexists. split; [reflexivity|].
  erewrite dec_ref_eval; [|simpl; by apply list_lookup_insert_eq|done]. simpl.
  unfold dec_ref_cell, dec_ref_events. simpl.
  rewrite (long_wrap_id (_ + 1)) by (unfold in_long, LONG_MIN; lia).
  rewrite long_wrap_id by (unfold in_long, LONG_MIN; lia).
  replace (_use_count (block c) + 1 - 1) with (_use_count (block c)) by lia.
  destruct (Z.eqb_spec (_use_count (block c)) 0); [lia|].
  rewrite list_insert_insert_eq, app_nil_r.
  unfold set_use_count. simpl. rewrite control_block_eta.
  rewrite <- Hr, cell_eta, list_insert_id by done. by rewrite mem_eta.
Qed.

Lemma inc_wref_then_dec_wref (m : mem) (i : nat) (c : cell) :
  cells m !! i = Some c → released c = false →
  1 ≤ _weak_use_count (block c) < LONG_MAX →
  ∃ m1, inc_wref (S i) m = Ret tt m1 ∧ dec_wref (S i) m1 = Ret tt m.
Proof.
  intros Hc Hr Hu. pose proof (lookup_lt_Some _ _ _ Hc) as Hlt.
  rewrite (inc_wref_eval _ _ _ Hc Hr). eexists. split; [reflexivity|].
  erewrite dec_wref_eval; [|simpl; by apply list_lookup_insert_eq|done]. simpl.
  unfold dec_wref_cell, dec_wref_events. simpl.
  rewrite (long_wrap_id (_ + 1)) by (unfold in_long, LONG_MIN; lia).
  rewrite long_wrap_id by (unfold in_long, LONG_MIN; lia).
  replace (_weak_use_count (block c) + 1 - 1) with (_weak_use_count (block c)) by lia.
  destruct (Z.eqb_spec (_weak_use_count (block c)) 0); [lia|].
  rewrite list_insert_insert_eq, app_nil_r.
  unfold set_weak_use_count. simpl. rewrite control_block_eta.
  rewrite <- Hr, cell_eta, list_insert_id by done. by rewrite mem_eta.
Qed.

(** X6. Assigning a shared_ptr or a weak_ptr to itself, by copy or by move,
    leaves the object and the memory exactly as they were, also when it is the
    only owner of its block: the copy is taken before the old value is
    released, so the count never touches 0 and nothing is logged. *)
Theorem self_assignment_changes_nothing (m : mem) (this : shared_ptr) (wthis : weak_ptr)
    (i : nat) (c : cell) :
  cells m !! i = Some c → released c = false →
  1 ≤ _use_count (block c) < LONG_MAX →
  1 ≤ _weak_use_count (block c) < LONG_MAX →
  sp_control_block this = S i → wp_control_block wthis = S i →
  shared_ptr_assign this this m = Ret this m ∧
  shared_ptr_move_assign_self this m = Ret this m ∧
  weak_ptr_assign wthis wthis m = Ret wthis m.
Proof.
  intros Hc Hr Hu Hw Ha Hwa.
  destruct (inc_ref_then_dec_ref m i c Hc Hr Hu) as (m1 & E1 & E2).
  destruct (inc_wref_then_dec_wref m i c Hc Hr Hw) as (m2 & E3 & E4).
  split_and!.
  - unfold shared_ptr_assign, shared_ptr_copy, shared_ptr_dtor, mbind, M_bind, bind.
    rewrite Ha. cbn [sp_control_block sp_ptr cb_is_null Nat.eqb ret shared_ptr_swap].
    rewrite E1. cbn [sp_control_block sp_ptr cb_is_null Nat.eqb ret shared_ptr_swap].
    rewrite Ha. cbn [cb_is_null Nat.eqb]. rewrite E2. unfold ret.
    by rewrite <- Ha, shared_ptr_eta.
  - rewrite shared_ptr_move_assign_self_eval. by rewrite shared_ptr_eta.
  - unfold weak_ptr_assign, weak_ptr_copy, weak_ptr_dtor, mbind, M_bind, bind.
    rewrite Hwa. cbn [wp_control_block wp_ptr cb_is_null Nat.eqb ret weak_ptr_swap].
    rewrite E3. cbn [wp_control_block wp_ptr cb_is_null Nat.eqb ret weak_ptr_swap].
    rewrite Hwa. cbn [cb_is_null Nat.eqb]. rewrite E4. unfold ret.
    by rewrite <- Hwa, weak_ptr_eta.
Qed.

Lemma self_assignment_changes_nothing_witness :
  shared_ptr_assign (mkShared 5%N 1%nat) (mkShared 5%N 1%nat)
    (mkMem [mkCell (mkControlBlock 1 2 (mkPtr 5%N default_delete)) false] []) =
  Ret (mkShared 5%N 1%nat)
    (mkMem [mkCell (mkControlBlock 1 2 (mkPtr 5%N default_delete)) false] []).
Proof.
  exact (proj1 (self_assignment_changes_nothing
           (mkMem [mkCell (mkControlBlock 1 2 (mkPtr 5%N default_delete)) false] [])
           (mkShared 5%N 1%nat) (mkWeak 5%N 1%nat) 0%nat
           (mkCell (mkControlBlock 1 2 (mkPtr 5%N default_delete)) false)
           eq_refl eq_refl ltac:(simpl; unfold LONG_MAX; lia)
           ltac:(simpl; unfold LONG_MAX; lia) eq_refl eq_refl)).
Defined.

(** ** owner_before *)

Lemma weak_ptr_of_shared_ret (sp : shared_ptr) (w : weak_ptr) (m m' : mem) :
  weak_ptr_of_shared sp m = Ret w m' → w = mkWeak (sp_ptr sp) (sp_control_block sp).
Proof.
  unfold weak_ptr_of_shared, mbind, M_bind, bind, ret. simpl.
  destruct (cb_is_null _); [by intros [= <- <-]|].
  destruct (inc_wref _ m); try done. by intros [= <- <-].
Qed.

(** X7. [owner_before] is a strict order on control blocks, and two handles
    are equivalent under it exactly when they hold the same control block.
    Hence what the aliasing constructor, a pointer cast, the conversion to
    weak_ptr or the promotion of a weak_ptr returns is equivalent to the
    handle it was made from, whatever pointer it stores. *)
Theorem owner_before_compares_control_blocks (a b c : shared_ptr) (w : weak_ptr)
    (p : ptr) (conv : ptr → ptr) (m : mem) :
  shared_ptr_owner_before a a = false ∧
  (shared_ptr_owner_before a b = true → shared_ptr_owner_before b c = true →
   shared_ptr_owner_before a c = true) ∧
  (shared_ptr_owner_before a b = false ∧ shared_ptr_owner_before b a = false ↔
   sp_control_block a = sp_control_block b) ∧
  (shared_ptr_owner_before_weak a w = false ∧ weak_ptr_owner_before_shared w a = false ↔
   sp_control_block a = wp_control_block w) ∧
  (∀ x m', shared_ptr_alias a p m = Ret x m' →
     shared_ptr_owner_before a x = false ∧ shared_ptr_owner_before x a = false) ∧
  (∀ x m', static_pointer_cast conv a m = Ret x m' →
     shared_ptr_owner_before a x = false ∧ shared_ptr_owner_before x a = false) ∧
  (∀ x m', weak_ptr_of_shared a m = Ret x m' →
     shared_ptr_owner_before_weak a x = false ∧ weak_ptr_owner_before_shared x a = false) ∧
  (∀ x m', shared_ptr_of_weak w m = Ret x m' →
     shared_ptr_owner_before_weak x w = false ∧ weak_ptr_owner_before_shared w x = false).
Proof.
  unfold shared_ptr_owner_before, shared_ptr_owner_before_weak, weak_ptr_owner_before_shared,
    static_pointer_cast.
  split_and!.
  - apply Nat.ltb_irrefl.
  - rewrite !Nat.ltb_lt. lia.
  - rewrite !Nat.ltb_ge. lia.
  - rewrite !Nat.ltb_ge. lia.
  - intros x m' ->%shared_ptr_alias_ret. simpl. by rewrite Nat.ltb_irrefl.
  - intros x m' ->%shared_ptr_alias_ret. simpl. by rewrite Nat.ltb_irrefl.
  - intros x m' ->%weak_ptr_of_shared_ret. simpl. by rewrite Nat.ltb_irrefl.
  - intros x m' [-> _]%shared_ptr_of_weak_ret. simpl. by rewrite Nat.ltb_irrefl.
Qed.

Lemma owner_before_compares_control_blocks_witness :
  shared_ptr_owner_before (mkShared 5%N 1%nat) (mkShared 9%N 1%nat) = false ∧
  shared_ptr_owner_before (mkShared 9%N 1%nat) (mkShared 5%N 1%nat) = false.
Proof.
  exact (proj1 (proj2 (proj2 (proj2 (proj2
           (owner_before_compares_control_blocks
              (mkShared 5%N 1%nat) (mkShared 5%N 1%nat) (mkShared 5%N 1%nat)
              (mkWeak 5%N 1%nat) 9%N (λ q, q)
              (mkMem [mkCell (mkControlBlock 1 1 (mkPtr 5%N default_delete)) false] []))))))
           (mkShared 9%N 1%nat) _ eq_refl).
Defined.

(** ** dynamic_pointer_cast *)

(** X8. A [dynamic_pointer_cast] whose conversion fails (yields the null
    pointer) returns the empty shared_ptr and leaves the memory, hence the
    source's ownership, untouched; one whose conversion succeeds on a
    shared_ptr with a live block returns a shared_ptr storing the converted
    pointer on the same block, which costs exactly one strong unit. *)
Theorem dynamic_pointer_cast_outcomes (conv : ptr → ptr) (sp : shared_ptr) (m : mem)
    (i : nat) (c : cell) :
  (conv (shared_ptr_get sp) = nullptr →
   dynamic_pointer_cast conv sp m = Ret shared_ptr_default m) ∧
  (conv (shared_ptr_get sp) ≠ nullptr →
   sp_control_block sp = S i → cells m !! i = Some c → released c = false →
   LONG_MIN ≤ _use_count (block c) < LONG_MAX →
   ∃ m', dynamic_pointer_cast conv sp m =
           Ret (mkShared (conv (shared_ptr_get sp)) (sp_control_block sp)) m' ∧
         strong_count (S i) m' = _use_count (block c) + 1 ∧
         weak_count (S i) m' = _weak_use_count (block c) ∧
         (∀ b, b ≠ S i → cell_at b m' = cell_at b m) ∧
         events m' = events m).
Proof.
  unfold dynamic_pointer_cast. split.
  - intros ->. done.
  - intros Hnn Ha Hc Hr Hu.
    assert (is_null (conv (shared_ptr_get sp)) = false) as ->.
    { unfold is_null, nullptr in *. by apply N.eqb_neq. }
    unfold shared_ptr_alias, mbind, M_bind, bind. rewrite Ha. simpl.
    rewrite (inc_ref_eval _ _ _ Hc Hr).
    rewrite long_wrap_id by (unfold in_long; lia).
    eexists. split; [reflexivity|].
    pose proof (lookup_lt_Some _ _ _ Hc) as Hlt.
    unfold strong_count, weak_count. simpl.
    rewrite list_lookup_insert_eq by done. simpl. split_and!; try done.
    intros [|j] Hb; [done|]. simpl. apply list_lookup_insert_ne. congruence.
Qed.

Lemma dynamic_pointer_cast_outcomes_witness :
  dynamic_pointer_cast (λ _, nullptr) (mkShared 5%N 1%nat)
    (mkMem [mkCell (mkControlBlock 1 1 (mkPtr 5%N default_delete)) false] []) =
  Ret shared_ptr_default
    (mkMem [mkCell (mkControlBlock 1 1 (mkPtr 5%N default_delete)) false] []).
Proof.
  exact (proj1 (dynamic_pointer_cast_outcomes (λ _, nullptr) (mkShared 5%N 1%nat)
           (mkMem [mkCell (mkControlBlock 1 1 (mkPtr 5%N default_delete)) false] [])
           0%nat (mkCell (mkControlBlock 1 1 (mkPtr 5%N default_delete)) false)) eq_refl).
Defined.

(** ** Nothing is left behind *)

(** X9. When a program ends with no shared_ptr and no weak_ptr alive, every
    control block it allocated has been deleted exactly once, and the deleter
    of every block that managed an object has run exactly once, before that
    deletion. *)
Theorem nothing_leaks_when_all_handles_are_gone (ops : list op) (s : state) (i : nat)
    (c : cell) :
  Z.of_nat (length ops) + 1 < LONG_MAX →
  run ops init_state = Some s →
  st_shared s = [] → st_weak s = [] →
  cells (st_mem s) !! i = Some c →
  released c = true ∧
  releases (S i) (events (st_mem s)) = 1%nat ∧
  destroys (S i) (events (st_mem s)) =
    (if is_null (_impl_ptr (_impl (block c))) then 0%nat else 1%nat) ∧
  (is_null (_impl_ptr (_impl (block c))) = false →
   destroy_before_release (S i) (events (st_mem s))).
Proof.
  intros Hb Hrun Hs Hw Hc. destruct (run_reach ops s Hb Hrun) as [HI _].
  destruct (Inv_block s i c HI Hc) as (Hu & _ & _ & Hiff & Hrels & Hdes & Hord).
  assert (released c = true) as Hr.
  { apply Hiff. by rewrite Hs, Hw. }
  rewrite Hr in Hrels. rewrite Hu, Hs in Hdes. simpl in Hdes.
  split_and!; try done. rewrite Hdes. by destruct (is_null _).
Qed.

Lemma nothing_leaks_when_all_handles_are_gone_witness :
  releases 1%nat [EvDestroy 1%nat default_delete 5%N; EvRelease 1%nat] = 1%nat.
Proof.
  exact (proj1 (proj2 (nothing_leaks_when_all_handles_are_gone
           [SpOfPtr 5%N; WpOfShared 0; SpDestroy 0; WpDestroy 0] _ 0%nat _
           ltac:(vm_compute; reflexivity) eq_refl eq_refl eq_refl eq_refl))).
Defined.

(** ** A property kept by the five counter primitives is kept by every operation *)

Section preservation.
Context (P : mem → Prop).
Hypothesis P_new : ∀ p d, preserves P (new_control_block p d).
Hypothesis P_inc_ref : ∀ a, preserves P (inc_ref a).
Hypothesis P_inc_wref : ∀ a, preserves P (inc_wref a).
Hypothesis P_dec_ref : ∀ a, preserves P (dec_ref a).
Hypothesis P_dec_wref : ∀ a, preserves P (dec_wref a).

Lemma preserves_ret {A} (x : A) : preserves P (ret x).
Proof. by intros m Hm. Qed.

Lemma preserves_throw {A} (e : exn) : preserves P (@throw A e).
Proof. by intros m Hm. Qed.

Lemma preserves_bind {A B} (c : M A) (k : A → M B) :
  preserves P c → (∀ x, preserves P (k x)) → preserves P (c ≫= k).
Proof.
  intros Hc Hk m Hm. unfold mbind, M_bind, bind. specialize (Hc m Hm).
  destruct (c m) as [x m'|e m'| |]; try done. by apply Hk.
Qed.

Lemma preserves_noexcept {A} (c : M A) : preserves P c → preserves P (noexcept c).
Proof.
  intros Hc m Hm. unfold noexcept. specialize (Hc m Hm). by destruct (c m).
Qed.

Lemma preserves_load a : preserves P (load a).
Proof.
  intros m Hm. unfold load. destruct (cell_at a m) as [c|]; [|done]. by destruct (released c).
Qed.

Lemma preserves_weak_ptr_expired wp : preserves P (weak_ptr_expired wp).
Proof.
  unfold weak_ptr_expired, control_block_expired.
  destruct (cb_is_null _); [apply preserves_ret|].
  apply preserves_bind; [apply preserves_load|]. intros cb. apply preserves_ret.
Qed.

Lemma preserves_shared_ptr_alias sp p : preserves P (shared_ptr_alias sp p).
Proof.
  unfold shared_ptr_alias. apply preserves_bind; [|intros; apply preserves_ret].
  destruct (cb_is_null _); [apply preserves_ret|apply P_inc_ref].
Qed.

Lemma preserves_shared_ptr_dtor sp : preserves P (shared_ptr_dtor sp).
Proof. unfold shared_ptr_dtor. destruct (cb_is_null _); [apply preserves_ret|apply P_dec_ref]. Qed.

Lemma preserves_shared_ptr_of_ptr_deleter p d : preserves P (shared_ptr_of_ptr_deleter p d).
Proof.
  unfold shared_ptr_of_ptr_deleter. apply preserves_bind; [apply P_new|].
  intros; apply preserves_ret.
Qed.

Lemma preserves_shared_ptr_of_weak wp : preserves P (shared_ptr_of_weak wp).
Proof.
  unfold shared_ptr_of_weak. apply preserves_bind; [apply preserves_weak_ptr_expired|].
  intros [|]; [apply preserves_throw|].
  apply preserves_bind; [apply P_inc_ref|intros; apply preserves_ret].
Qed.

Lemma preserves_weak_ptr_lock wp : preserves P (weak_ptr_lock wp).
Proof.
  unfold weak_ptr_lock. apply preserves_noexcept.
  apply preserves_bind; [apply preserves_weak_ptr_expired|].
  intros [|]; [apply preserves_ret|apply preserves_shared_ptr_of_weak].
Qed.

Lemma preserves_weak_ptr_of_shared sp : preserves P (weak_ptr_of_shared sp).
Proof.
  unfold weak_ptr_of_shared. apply preserves_bind; [|intros; apply preserves_ret].
  destruct (cb_is_null _); [apply preserves_ret|apply P_inc_wref].
Qed.

Lemma preserves_weak_ptr_copy wp : preserves P (weak_ptr_copy wp).
Proof.
  unfold weak_ptr_copy. apply preserves_bind; [|intros; apply preserves_ret].
  destruct (cb_is_null _); [apply preserves_ret|apply P_inc_wref].
Qed.

Lemma preserves_weak_ptr_dtor wp : preserves P (weak_ptr_dtor wp).
Proof. unfold weak_ptr_dtor. destruct (cb_is_null _); [apply preserves_ret|apply P_dec_wref]. Qed.

Lemma preserves_shared_ptr_copy sp : preserves P (shared_ptr_copy sp).
Proof. apply (preserves_shared_ptr_alias sp (sp_ptr sp)). Qed.

Lemma preserves_shared_ptr_assign this sp : preserves P (shared_ptr_assign this sp).
Proof.
  unfold shared_ptr_assign. apply preserves_bind; [apply preserves_shared_ptr_copy|].
  intros tmp. simpl.
  apply preserves_bind; [apply preserves_shared_ptr_dtor|intros; apply preserves_ret].
Qed.

Lemma preserves_shared_ptr_move_assign this sp :
  preserves P (shared_ptr_move_assign this sp).
Proof.
  unfold shared_ptr_move_assign. simpl.
  apply preserves_bind; [apply preserves_shared_ptr_dtor|intros; apply preserves_ret].
Qed.

Lemma preserves_shared_ptr_move_assign_self this :
  preserves P (shared_ptr_move_assign_self this).
Proof.
  unfold shared_ptr_move_assign_self. simpl.
  apply preserves_bind; [apply preserves_shared_ptr_dtor|intros; apply preserves_ret].
Qed.

Lemma preserves_shared_ptr_reset this : preserves P (shared_ptr_reset this).
Proof.
  unfold shared_ptr_reset. simpl.
  apply preserves_bind; [apply preserves_shared_ptr_dtor|intros; apply preserves_ret].
Qed.

Lemma preserves_shared_ptr_reset_ptr_deleter this p d :
  preserves P (shared_ptr_reset_ptr_deleter this p d).
Proof.
  unfold shared_ptr_reset_ptr_deleter.
  apply preserves_bind; [apply preserves_shared_ptr_of_ptr_deleter|].
  intros tmp. simpl.
  apply preserves_bind; [apply preserves_shared_ptr_dtor|intros; apply preserves_ret].
Qed.

Lemma preserves_weak_ptr_assign this wp : preserves P (weak_ptr_assign this wp).
Proof.
  unfold weak_ptr_assign. apply preserves_bind; [apply preserves_weak_ptr_copy|].
  intros tmp. simpl.
  apply preserves_bind; [apply preserves_weak_ptr_dtor|intros; apply preserves_ret].
Qed.

Lemma preserves_weak_ptr_assign_shared this sp :
  preserves P (weak_ptr_assign_shared this sp).
Proof.
  unfold weak_ptr_assign_shared. apply preserves_bind; [apply preserves_weak_ptr_of_shared|].
  intros tmp. simpl.
  apply preserves_bind; [apply preserves_weak_ptr_dtor|intros; apply preserves_ret].
Qed.

Lemma preserves_weak_ptr_reset this : preserves P (weak_ptr_reset this).
Proof.
  unfold weak_ptr_reset. simpl.
  apply preserves_bind; [apply preserves_weak_ptr_dtor|intros; apply preserves_ret].
Qed.

Lemma exec_preserves {A} (c : M A) (s s' : state) (k : A → mem → state) :
  preserves P c → (∀ x m, st_mem (k x m) = m) →
  P (st_mem s) → exec c s k = Some s' → P (st_mem s').
Proof.
  intros Hc Hk Hs. unfold exec. specialize (Hc _ Hs).
  destruct (c (st_mem s)) as [x m'|e m'| |]; try done.
  - intros [= <-]. by rewrite Hk.
  - by intros [= <-].
Qed.

Lemma step_preserves (o : op) (s s' : state) :
  P (st_mem s) → step o s = Some s' → P (st_mem s').
Proof.
  intros Hs Hstep. unfold step in Hstep.
  destruct o;
    repeat match type of Hstep with
      | context [match ?l !! ?i with _ => _ end] => destruct (l !! i)
      | context [decide ?Q] => destruct (decide Q)
      end;
    try (injection Hstep as <-; exact Hs);
    try (simpl in Hstep; injection Hstep as <-; exact Hs);
    (eapply exec_preserves; [| |exact Hs|exact Hstep]; [|done]).
  all: first
    [ apply preserves_shared_ptr_of_ptr_deleter
    | apply (preserves_shared_ptr_of_ptr_deleter _ default_delete)
    | apply (preserves_shared_ptr_of_ptr_deleter nullptr)
    | apply preserves_shared_ptr_alias
    | apply preserves_shared_ptr_copy
    | apply preserves_shared_ptr_of_weak
    | apply preserves_weak_ptr_lock
    | apply preserves_shared_ptr_assign
    | apply preserves_shared_ptr_move_assign
    | apply preserves_shared_ptr_move_assign_self
    | apply preserves_shared_ptr_reset
    | apply preserves_shared_ptr_reset_ptr_deleter
    | apply (preserves_shared_ptr_reset_ptr_deleter _ _ default_delete)
    | apply preserves_shared_ptr_dtor
    | apply preserves_weak_ptr_of_shared
    | apply preserves_weak_ptr_copy
    | apply preserves_weak_ptr_assign
    | apply preserves_weak_ptr_assign_shared
    | apply preserves_weak_ptr_reset
    | apply preserves_weak_ptr_dtor ].
Qed.

Lemma run_preserves (ops : list op) (s s' : state) :
  P (st_mem s) → run ops s = Some s' → P (st_mem s').
Proof.
  revert s. induction ops as [|o ops IH]; intros s Hs Hrun; simpl in Hrun.
  - by injection Hrun as <-.
  - destruct (step o s) as [s1|] eqn:Hs1; [|done].
    apply (IH s1); [|done]. by eapply step_preserves.
Qed.
End preservation.

(** ** The deleter is called on the managed pointer *)

Ltac prim_cases a m i c Hc Hr :=
  destruct a as [|i];
  [ by unfold inc_ref, inc_wref, dec_ref, dec_wref, update, load, mbind, M_bind, bind
  | destruct (cells m !! i) as [c|] eqn:Hc;
    [ destruct (released c) eqn:Hr;
      [ by unfold inc_ref, inc_wref, dec_ref, dec_wref, update, load, mbind, M_bind, bind;
           simpl; rewrite Hc, Hr
      | ]
    | by unfold inc_ref, inc_wref, dec_ref, dec_wref, update, load, mbind, M_bind, bind;
         simpl; rewrite Hc ] ].

Lemma destroys_match_update (m : mem) (i : nat) (c c' : cell) (evs : list event) :
  destroys_match m → cells m !! i = Some c →
  _impl (block c') = _impl (block c) →
  (∀ a d p, EvDestroy a d p ∈ evs →
            a = S i ∧ _impl (block c) = mkPtr p d ∧ is_null p = false) →
  destroys_match (mkMem (<[i := c']> (cells m)) (events m ++ evs)).
Proof.
  intros Hm Hc Himpl Hevs a d p Hin. simpl in Hin. apply elem_of_app in Hin as [Hin|Hin].
  - destruct (Hm a d p Hin) as (c0 & Hc0 & Hi0 & Hn). destruct a as [|j]; [done|].
    simpl in *. destruct (decide (i = j)) as [->|Hne].
    + exists c'. rewrite list_lookup_insert_eq by (by eapply lookup_lt_Some).
      split; [done|]. split; [congruence|done].
    + exists c0. by rewrite list_lookup_insert_ne.
  - destruct (Hevs a d p Hin) as (-> & Hi & Hn). exists c'. simpl.
    rewrite list_lookup_insert_eq by (by eapply lookup_lt_Some).
    split; [done|]. split; [congruence|done].
Qed.

Lemma holds_impl_update (j : nat) (p : ptr) (d : deleter_t) (m : mem) (i : nat)
    (c c' : cell) (evs : list event) :
  holds_impl j p d m → cells m !! i = Some c →
  _impl (block c') = _impl (block c) →
  holds_impl j p d (mkMem (<[i := c']> (cells m)) evs).
Proof.
  intros (c0 & Hc0 & Hi0) Hc Himpl. unfold holds_impl. simpl.
  destruct (decide (i = j)) as [->|Hne].
  - exists c'. rewrite list_lookup_insert_eq by (by eapply lookup_lt_Some).
    split; [done|congruence].
  - exists c0. by rewrite list_lookup_insert_ne.
Qed.

Lemma dec_wref_events_no_destroy a cb x d p : EvDestroy x d p ∉ dec_wref_events a cb.
Proof.
  unfold dec_wref_events. destruct (_ =? 0).
  - intros Hin. apply list_elem_of_singleton in Hin. discriminate.
  - apply not_elem_of_nil.
Qed.

Lemma dec_ref_events_destroy a cb x d p :
  EvDestroy x d p ∈ dec_ref_events a cb →
  x = a ∧ _impl cb = mkPtr p d ∧ is_null p = false.
Proof.
  unfold dec_ref_events. simpl. destruct (_ =? 0); [|by intros ?%not_elem_of_nil].
  intros Hin. apply elem_of_app in Hin as [Hin|Hin].
  - destruct (is_null (_impl_ptr (_impl cb))) eqn:Hn; [by apply not_elem_of_nil in Hin|].
    apply list_elem_of_singleton in Hin. injection Hin as -> -> ->.
    split; [done|]. split; [|done]. by destruct (_impl cb).
  - by apply dec_wref_events_no_destroy in Hin.
Qed.

Lemma dec_ref_cell_impl cb : _impl (block (dec_ref_cell cb)) = _impl cb.
Proof. unfold dec_ref_cell, dec_wref_cell. simpl. by destruct (_ =? 0). Qed.

Section prims_preserve.
Implicit Types (a : cbptr) (m : mem).

Lemma destroys_match_new p d : preserves destroys_match (new_control_block p d).
Proof.
  intros m Hm a d' p' Hin. simpl in *. destruct (Hm a d' p' Hin) as (c & Hc & Hi).
  exists c. split; [|done]. destruct a as [|i]; [done|]. simpl in *.
  by apply lookup_app_l_Some.
Qed.

Lemma destroys_match_inc_ref a : preserves destroys_match (inc_ref a).
Proof.
  intros m Hm. prim_cases a m i c Hc Hr. rewrite (inc_ref_eval _ _ _ Hc Hr).
  rewrite <- (app_nil_r (events m)). eapply destroys_match_update; eauto.
  by intros ? ? ? ?%not_elem_of_nil.
Qed.

Lemma destroys_match_inc_wref a : preserves destroys_match (inc_wref a).
Proof.
  intros m Hm. prim_cases a m i c Hc Hr. rewrite (inc_wref_eval _ _ _ Hc Hr).
  rewrite <- (app_nil_r (events m)). eapply destroys_match_update; eauto.
  by intros ? ? ? ?%not_elem_of_nil.
Qed.

Lemma destroys_match_dec_wref a : preserves destroys_match (dec_wref a).
Proof.
  intros m Hm. prim_cases a m i c Hc Hr. rewrite (dec_wref_eval _ _ _ Hc Hr).
  eapply destroys_match_update; eauto.
  by intros ? ? ? ?%dec_wref_events_no_destroy.
Qed.

Lemma destroys_match_dec_ref a : preserves destroys_match (dec_ref a).
Proof.
  intros m Hm. prim_cases a m i c Hc Hr. rewrite (dec_ref_eval _ _ _ Hc Hr).
  eapply destroys_match_update; eauto using dec_ref_cell_impl.
  intros x d p Hin. by apply dec_ref_events_destroy in Hin.
Qed.

Lemma holds_impl_new j p0 d0 p d : preserves (holds_impl j p0 d0) (new_control_block p d).
Proof.
  intros m (c & Hc & Hi). exists c. split; [|done]. simpl. by apply lookup_app_l_Some.
Qed.

Lemma holds_impl_inc_ref j p0 d0 a : preserves (holds_impl j p0 d0) (inc_ref a).
Proof.
  intros m Hm. prim_cases a m i c Hc Hr. rewrite (inc_ref_eval _ _ _ Hc Hr).
  by eapply holds_impl_update.
Qed.

Lemma holds_impl_inc_wref j p0 d0 a : preserves (holds_impl j p0 d0) (inc_wref a).
Proof.
  intros m Hm. prim_cases a m i c Hc Hr. rewrite (inc_wref_eval _ _ _ Hc Hr).
  by eapply holds_impl_update.
Qed.

Lemma holds_impl_dec_wref j p0 d0 a : preserves (holds_impl j p0 d0) (dec_wref a).
Proof.
  intros m Hm. prim_cases a m i c Hc Hr. rewrite (dec_wref_eval _ _ _ Hc Hr).
  by eapply holds_impl_update.
Qed.

Lemma holds_impl_dec_ref j p0 d0 a : preserves (holds_impl j p0 d0) (dec_ref a).
Proof.
  intros m Hm. prim_cases a m i c Hc Hr. rewrite (dec_ref_eval _ _ _ Hc Hr).
  eapply holds_impl_update; eauto using dec_ref_cell_impl.
Qed.
End prims_preserve.

(** X10. Let a block be made by [shared_ptr(p, d)] at any point of a program.
    Whatever follows (copies, aliases storing other pointers, casts,
    promotions, resets), every deleter call made by that block is a call of
    [d] on [p], and [p] is not null: the stored pointer of the shared_ptr
    that happens to be destroyed last plays no part. *)
Theorem deleter_is_called_on_the_managed_pointer (ops1 ops2 : list op) (p p' : ptr)
    (d d' : deleter_t) (s1 s2 : state) :
  run ops1 init_state = Some s1 →
  run (SpOfPtrDeleter p d :: ops2) s1 = Some s2 →
  EvDestroy (S (length (cells (st_mem s1)))) d' p' ∈ events (st_mem s2) →
  p' = p ∧ d' = d ∧ p ≠ nullptr.
Proof.
  intros H1 H2 Hin.
  assert (destroys_match (st_mem s2)) as Hdm.
  { apply (run_preserves destroys_match destroys_match_new destroys_match_inc_ref
             destroys_match_inc_wref destroys_match_dec_ref destroys_match_dec_wref
             (ops1 ++ SpOfPtrDeleter p d :: ops2) init_state).
    - by intros a d0 p0 ?%not_elem_of_nil.
    - by rewrite run_app, H1. }
  assert (holds_impl (length (cells (st_mem s1))) p d (st_mem s2)) as (c & Hc & Hi).
  { simpl in H2.
    eapply (run_preserves _ (holds_impl_new _ p d) (holds_impl_inc_ref _ p d)
              (holds_impl_inc_wref _ p d) (holds_impl_dec_ref _ p d)
              (holds_impl_dec_wref _ p d) ops2); [|exact H2].
    unfold holds_impl. cbn [st_mem cells]. eexists. split.
    - rewrite lookup_app_r by lia. by rewrite Nat.sub_diag.
    - reflexivity. }
  destruct (Hdm _ _ _ Hin) as (c' & Hc' & Hi' & Hn). simpl in Hc'.
  rewrite Hc in Hc'. injection Hc' as <-. rewrite Hi in Hi'. injection Hi' as <- <-.
  split_and!; try done. intros ->. done.
Qed.

Lemma deleter_is_called_on_the_managed_pointer_witness :
  5%N = 5%N ∧ default_delete = default_delete ∧ 5%N ≠ nullptr.
Proof.
  exact (deleter_is_called_on_the_managed_pointer
           [] [SpAlias 0 9%N; SpDestroy 0; SpDestroy 0] 5%N 5%N default_delete default_delete
           _ _ eq_refl eq_refl ltac:(apply list_elem_of_here)).
Defined.

(** ** From unique_ptr to shared_ptr *)

Lemma dec_ref_sole_owner (m : mem) (i : nat) (q : ptr) (e : deleter_t) :
  cells m !! i = Some (mkCell (mkControlBlock 1 1 (mkPtr q e)) false) →
  ∃ m', dec_ref (S i) m = Ret tt m' ∧
        events m' = events m ++ (if is_null q then [] else [EvDestroy (S i) e q])
                             ++ [EvRelease (S i)] ∧
        is_released (S i) m' = true ∧
        length (cells m') = length (cells m).
Proof.
  intros Hc. rewrite (dec_ref_eval _ _ _ Hc eq_refl). eexists. split; [reflexivity|].
  pose proof (lookup_lt_Some _ _ _ Hc) as Hlt.
  unfold is_released, dec_ref_cell, dec_ref_events, dec_wref_cell, dec_wref_events. simpl.
  rewrite list_lookup_insert_eq by done. rewrite length_insert. done.
Qed.

(** X18. A unique_ptr hands its object over to a shared_ptr for good.
    [shared_ptr(unique_ptr&&)] puts the pointer and the deleter of [up] in a
    fresh control block and empties [up], whose destructor then deletes
    nothing; the destructor of the new shared_ptr calls that deleter on that
    pointer (if it is not null) and deletes the block. Assigned to a
    shared_ptr that is the sole owner of another object, [up] also makes
    that object be deleted, by its own deleter, before the assignment
    returns. *)
Theorem unique_ptr_hands_over_to_shared_ptr (up : unique_ptr) (m : mem) (this : shared_ptr)
    (i : nat) (q : ptr) (e : deleter_t) :
  let p := unique_ptr_get up in
  let d := unique_ptr_get_deleter up in
  let a := S (length (cells m)) in
  (∃ up' m1 m2,
     shared_ptr_of_unique up m = Ret (mkShared p a, up') m1 ∧
     unique_ptr_get up' = nullptr ∧
     unique_ptr_dtor up' m1 = Ret tt m1 ∧
     events m1 = events m ∧
     shared_ptr_dtor (mkShared p a) m1 = Ret tt m2 ∧
     events m2 = events m ++ (if is_null p then [] else [EvDestroy a d p])
                          ++ [EvRelease a]) ∧
  (sp_control_block this = S i →
   cells m !! i = Some (mkCell (mkControlBlock 1 1 (mkPtr q e)) false) →
   ∃ up' m1,
     shared_ptr_assign_unique this up m = Ret (mkShared p a, up') m1 ∧
     unique_ptr_get up' = nullptr ∧
     events m1 = events m ++ (if is_null q then [] else [EvDestroy (S i) e q])
                          ++ [EvRelease (S i)] ∧
     is_released (S i) m1 = true ∧
     cell_at a m1 = Some (mkCell (mkControlBlock 1 1 (mkPtr p d)) false)).
Proof.
  intros p d a. split.
  - assert (shared_ptr_of_unique up m =
            Ret (mkShared p a, mkUnique (mkPtr nullptr d))
              (mkMem (cells m ++ [mkCell (mkControlBlock 1 1 (mkPtr p d)) false])
                 (events m))) as E by done.
    destruct (dec_ref_sole_owner
                (mkMem (cells m ++ [mkCell (mkControlBlock 1 1 (mkPtr p d)) false]) (events m))
                (length (cells m)) p d) as (m2 & E2 & Hev & _).
    { simpl. by rewrite lookup_app_r, Nat.sub_diag. }
    eexists _, _, m2. split; [exact E|]. split_and!; try done.
  - intros Ha Hc.
    set (m0 := mkMem (cells m ++ [mkCell (mkControlBlock 1 1 (mkPtr p d)) false]) (events m)).
    destruct (dec_ref_sole_owner m0 i q e) as (m1 & E1 & Hev & Hrel & Hlen).
    { simpl. by apply lookup_app_l_Some. }
    exists (mkUnique (mkPtr nullptr d)), m1.
    assert (cell_at a m1 = Some (mkCell (mkControlBlock 1 1 (mkPtr p d)) false)) as Hnew.
    { pose proof (lookup_lt_Some _ _ _ Hc) as Hlt.
      rewrite (dec_ref_eval m0 i _ (lookup_app_l_Some _ _ _ _ Hc) eq_refl) in E1.
      injection E1 as <-. unfold a. simpl.
      rewrite list_lookup_insert_ne by lia. by rewrite lookup_app_r, Nat.sub_diag. }
    split_and!; try done.
    unfold shared_ptr_assign_unique, mbind, M_bind, bind.
    change (shared_ptr_of_unique up m) with (Ret (mkShared p a, mkUnique (mkPtr nullptr d)) m0).
    cbn [fst snd shared_ptr_swap]. unfold shared_ptr_dtor. rewrite Ha.
    cbn [cb_is_null Nat.eqb]. by rewrite E1.
Qed.

Lemma unique_ptr_hands_over_to_shared_ptr_witness :
  ∃ up' m1,
    shared_ptr_assign_unique (mkShared 7%N 1%nat)
      (unique_ptr_of_ptr_deleter 5%N (custom_deleter 2))
      (mkMem [mkCell (mkControlBlock 1 1 (mkPtr 7%N default_delete)) false] [])
      = Ret (mkShared 5%N 2%nat, up') m1 ∧
    events m1 = [EvDestroy 1%nat default_delete 7%N; EvRelease 1%nat].
Proof.
  destruct (proj2 (unique_ptr_hands_over_to_shared_ptr
                     (unique_ptr_of_ptr_deleter 5%N (custom_deleter 2))
                     (mkMem [mkCell (mkControlBlock 1 1 (mkPtr 7%N default_delete)) false] [])
                     (mkShared 7%N 1%nat) 0%nat 7%N default_delete) eq_refl eq_refl)
    as (up' & m1 & E & _ & Hev & _).
  exists up', m1. split; [exact E|exact Hev].
Defined.

(** ** unique_ptr: what goes in comes out once *)

Section tally.
Context {A : Type} (t : A → bool).
Implicit Types (l : list A) (x y : A).

Lemma tally_nil : tally t [] = 0.
Proof. done. Qed.

Lemma tally_cons x l : tally t (x :: l) = Z.b2z (t x) + tally t l.
Proof.
  unfold tally. rewrite filter_cons. destruct (decide (t x = true)) as [->| Hx]; simpl.
  - lia.
  - destruct (t x); [done|simpl; lia].
Qed.

Lemma tally_app l1 l2 : tally t (l1 ++ l2) = tally t l1 + tally t l2.
Proof. unfold tally. rewrite list.filter_app, length_app. lia. Qed.

Lemma tally_snoc l x : tally t (l ++ [x]) = tally t l + Z.b2z (t x).
Proof. rewrite tally_app, tally_cons, tally_nil. lia. Qed.

Lemma tally_nonneg l : 0 ≤ tally t l.
Proof. unfold tally. lia. Qed.

Lemma tally_insert l i x y :
  l !! i = Some y → tally t (<[i := x]> l) = tally t l - Z.b2z (t y) + Z.b2z (t x).
Proof.
  revert i. induction l as [|z l IH]; intros [|i] Hi; simpl in *; try done.
  - inversion Hi; subst. rewrite !tally_cons. lia.
  - rewrite !tally_cons, (IH _ Hi). lia.
Qed.

Lemma tally_delete l i y :
  l !! i = Some y → tally t (delete i l) = tally t l - Z.b2z (t y).
Proof.
  revert i. induction l as [|z l IH]; intros [|i] Hi; simpl in *; try done.
  - inversion Hi; subst. rewrite !tally_cons. lia.
  - rewrite !tally_cons, (IH _ Hi). lia.
Qed.

Lemma tally_elem l x : x ∈ l → t x = true → 1 ≤ tally t l.
Proof.
  intros Hin Hx. apply list_elem_of_split in Hin as (l1 & l2 & ->).
  rewrite tally_app, tally_cons, Hx.
  pose proof (tally_nonneg l1). pose proof (tally_nonneg l2). simpl. lia.
Qed.
End tally.

Lemma unique_destroyed_snoc ev d p :
  unique_destroyed (ev ++ [EvUniqueDestroy d p]) = unique_destroyed ev ++ [mkPtr p d].
Proof. unfold unique_destroyed. by rewrite omap_app. Qed.

Lemma Ptr_eta (x : Ptr) : mkPtr (_impl_ptr x) (_impl_deleter x) = x.
Proof. by destruct x. Qed.

Lemma is_null_eq (p : ptr) : is_null p = true → p = nullptr.
Proof. unfold is_null, nullptr. by intros ?%N.eqb_eq. Qed.

Ltac tally_simpl :=
  unfold handed_in, held, deleted, handed_back, set_live, note_taken, note_given,
    unique_ptr_default, unique_ptr_of_ptr, unique_ptr_of_ptr_deleter in *;
  cbn [us_mem us_live us_taken us_given events] in *;
  rewrite ?fmap_app, ?list_fmap_insert in *;
  cbn [fmap list_fmap up_impl] in *;
  rewrite ?unique_destroyed_snoc, ?tally_snoc in *.

Lemma ustep_total (o : uop) (s : ustate) : ∃ s', ustep o s = Some s'.
Proof.
  destruct o; simpl; repeat case_match; eauto;
    unfold on_log, unique_ptr_move_assign_self, unique_ptr_move_assign,
      unique_ptr_assign_null, unique_ptr_reset, unique_ptr_reset_ptr, unique_ptr_dtor,
      unique_ptr_release, mbind, M_bind, bind, mret, M_ret, ret, emit in *;
    simpl in *; repeat case_match; eauto; simplify_eq.
Qed.

Lemma urun_total (ops : list uop) (s : ustate) : ∃ s', urun ops s = Some s'.
Proof.
  revert s. induction ops as [|o ops IH]; intros s; simpl; [eauto|].
  destruct (ustep_total o s) as [s' ->]. apply IH.
Qed.

Lemma ustep_balanced (o : uop) (s s' : ustate) :
  balanced s → ustep o s = Some s' → balanced s'.
Proof.
  intros Hs Hstep t Ht. specialize (Hs t Ht).
  assert (∀ x, is_null (_impl_ptr x) = true → t x = false) as Hnull.
  { intros [p d] Hp. simpl in Hp. apply is_null_eq in Hp as ->. apply Ht. }
  destruct o; simpl in Hstep.
  - injection Hstep as <-. tally_simpl. rewrite Ht. simpl. lia.
  - injection Hstep as <-. tally_simpl. lia.
  - injection Hstep as <-. tally_simpl. lia.
  - destruct (us_live s !! i) as [[x]|] eqn:Hi; [|by injection Hstep as <-].
    unfold unique_ptr_move, unique_ptr_release, unique_ptr_get_deleter in Hstep.
    simpl in Hstep. injection Hstep as <-. tally_simpl.
    rewrite (tally_insert t _ i _ x) by (by rewrite list_lookup_fmap, Hi).
    rewrite Ht, Ptr_eta. simpl. lia.
  - destruct (us_live s !! i) as [[x]|] eqn:Hi; [|by injection Hstep as <-].
    destruct (us_live s !! j) as [[y]|] eqn:Hj; [|by injection Hstep as <-].
    destruct (decide (i = j)) as [->|Hne].
    + unfold on_log, unique_ptr_move_assign_self, unique_ptr_release, unique_ptr_reset_ptr,
        unique_ptr_get, unique_ptr_get_deleter, mbind, M_bind, bind, mret, M_ret, ret
        in Hstep. simpl in Hstep. injection Hstep as <-. tally_simpl.
      rewrite (tally_insert t _ j _ x) by (by rewrite list_lookup_fmap, Hi).
      rewrite Ptr_eta. lia.
    + unfold on_log, unique_ptr_move_assign, unique_ptr_release, unique_ptr_reset_ptr,
        unique_ptr_get, unique_ptr_get_deleter, mbind, M_bind, bind, mret, M_ret, ret, emit
        in Hstep. simpl in Hstep.
      pose proof (Hnull x) as Hx.
      destruct (is_null (_impl_ptr x)); simpl in Hstep; injection Hstep as <-; tally_simpl.
      all: rewrite (tally_insert t _ i _ x)
             by (by rewrite list_lookup_insert_ne, list_lookup_fmap, Hi by done).
      all: rewrite (tally_insert t _ j _ y) by (by rewrite list_lookup_fmap, Hj).
      all: rewrite Ht, ?Ptr_eta; simpl.
      * rewrite Hx by done. simpl. lia.
      * lia.
  - destruct (us_live s !! i) as [[x]|] eqn:Hi; [|by injection Hstep as <-].
    unfold on_log, unique_ptr_assign_null, unique_ptr_reset, mbind, M_bind, bind, mret,
      M_ret, ret, emit in Hstep. simpl in Hstep.
    pose proof (Hnull x) as Hx.
    destruct (is_null (_impl_ptr x)); simpl in Hstep; injection Hstep as <-; tally_simpl.
    all: rewrite (tally_insert t _ i _ x) by (by rewrite list_lookup_fmap, Hi).
    all: rewrite Ht, ?Ptr_eta; simpl.
    + rewrite Hx by done. simpl. lia.
    + lia.
  - destruct (us_live s !! i) as [[x]|] eqn:Hi; [|by injection Hstep as <-].
    unfold unique_ptr_release, unique_ptr_get_deleter in Hstep. simpl in Hstep.
    injection Hstep as <-. tally_simpl.
    rewrite (tally_insert t _ i _ x) by (by rewrite list_lookup_fmap, Hi).
    rewrite Ht, Ptr_eta. simpl. lia.
  - destruct (us_live s !! i) as [[x]|] eqn:Hi; [|by injection Hstep as <-].
    unfold on_log, unique_ptr_reset_ptr, unique_ptr_get_deleter, mbind, M_bind, bind,
      mret, M_ret, ret, emit in Hstep. simpl in Hstep.
    pose proof (Hnull x) as Hx.
    destruct (is_null (_impl_ptr x)); simpl in Hstep; injection Hstep as <-; tally_simpl.
    all: rewrite (tally_insert t _ i _ x) by (by rewrite list_lookup_fmap, Hi).
    all: rewrite ?Ptr_eta; simpl.
    + rewrite Hx by done. simpl. lia.
    + lia.
  - destruct (us_live s !! i) as [[x]|] eqn:Hi; [|by injection Hstep as <-].
    unfold on_log, unique_ptr_reset, mbind, M_bind, bind, mret, M_ret, ret, emit in Hstep.
    simpl in Hstep. pose proof (Hnull x) as Hx.
    destruct (is_null (_impl_ptr x)); simpl in Hstep; injection Hstep as <-; tally_simpl.
    all: rewrite (tally_insert t _ i _ x) by (by rewrite list_lookup_fmap, Hi).
    all: rewrite Ht, ?Ptr_eta; simpl.
    + rewrite Hx by done. simpl. lia.
    + lia.
  - destruct (us_live s !! i) as [[x]|] eqn:Hi; [|by injection Hstep as <-].
    destruct (us_live s !! j) as [[y]|] eqn:Hj; [|by injection Hstep as <-].
    unfold unique_ptr_swap in Hstep. injection Hstep as <-. tally_simpl.
    destruct (decide (i = j)) as [->|Hne].
    + rewrite list_insert_insert_eq.
      rewrite (tally_insert t _ j _ x) by (by rewrite list_lookup_fmap, Hi).
      assert (x = y) as -> by congruence. lia.
    + rewrite (tally_insert t _ i _ x)
        by (by rewrite list_lookup_insert_ne, list_lookup_fmap, Hi by done).
      rewrite (tally_insert t _ j _ y) by (by rewrite list_lookup_fmap, Hj). lia.
  - destruct (us_live s !! i) as [[x]|] eqn:Hi; [|by injection Hstep as <-].
    unfold on_log, unique_ptr_dtor, mbind, M_bind, bind, mret, M_ret, ret, emit in Hstep.
    simpl in Hstep. pose proof (Hnull x) as Hx.
    destruct (is_null (_impl_ptr x)); simpl in Hstep; injection Hstep as <-; tally_simpl.
    all: rewrite list_fmap_delete.
    all: rewrite (tally_delete t _ i x) by (by rewrite list_lookup_fmap, Hi).
    all: rewrite ?Ptr_eta; simpl.
    + rewrite Hx by done. simpl. lia.
    + lia.
Qed.

Lemma urun_balanced (ops : list uop) (s s' : ustate) :
  balanced s → urun ops s = Some s' → balanced s'.
Proof.
  revert s. induction ops as [|o ops IH]; intros s Hs Hrun; simpl in Hrun.
  - by injection Hrun as <-.
  - destruct (ustep o s) as [s1|] eqn:Hstep; [|done].
    eapply IH; [|exact Hrun]. by eapply ustep_balanced.
Qed.

Lemma balanced_uinit : balanced uinit.
Proof. intros t _. done. Qed.

Lemma tally_le {A} (t1 t2 : A → bool) (l : list A) :
  (∀ x, t1 x = true → t2 x = true) → tally t1 l ≤ tally t2 l.
Proof.
  intros H12. induction l as [|x l IH]; [done|]. rewrite !tally_cons.
  specialize (H12 x). destruct (t1 x), (t2 x); simpl; lia.
Qed.

Lemma points_to_null p d : p ≠ nullptr → points_to p (mkPtr nullptr d) = false.
Proof. intros Hp. unfold points_to. cbn [_impl_ptr]. apply N.eqb_neq. congruence. Qed.

Lemma is_pair_null p d d' : p ≠ nullptr → is_pair p d (mkPtr nullptr d') = false.
Proof.
  intros Hp. unfold is_pair. cbn [_impl_ptr]. apply andb_false_iff. left.
  apply N.eqb_neq. congruence.
Qed.

Lemma is_pair_points_to p d x : is_pair p d x = true → points_to p x = true.
Proof. unfold is_pair, points_to. by intros [? _]%andb_true_iff. Qed.

(** X11. Any program over unique_ptr objects runs to its end, and for every
    non-null pointer [p] the books balance: as often as [p] was handed to a
    unique_ptr (constructor or [reset(p)]), it is now held by an object in
    scope, or was passed to a deleter, or was handed back by [release()].
    The same holds for [p] together with a deleter [d]: moves, move
    assignment and swap carry the deleter along with the pointer. *)
Theorem unique_ptr_balance (ops : list uop) (p : ptr) (d : deleter_t) :
  p ≠ nullptr →
  ∃ s, urun ops uinit = Some s ∧
       handed_in (points_to p) s =
         held (points_to p) s + deleted (points_to p) s + handed_back (points_to p) s ∧
       handed_in (is_pair p d) s =
         held (is_pair p d) s + deleted (is_pair p d) s + handed_back (is_pair p d) s.
Proof.
  intros Hp. destruct (urun_total ops uinit) as [s Hrun]. exists s. split; [done|].
  pose proof (urun_balanced ops uinit s balanced_uinit Hrun) as Hb. split.
  - apply Hb. intros d'. by apply points_to_null.
  - apply Hb. intros d'. by apply is_pair_null.
Qed.

Lemma unique_ptr_balance_witness :
  ∃ s, urun [UpOfPtr 5%N; UpMove 0; UpDefault (custom_deleter 1); UpMoveAssign 2 1;
             UpSwap 0 2; UpDestroy 0; UpDestroy 0; UpDestroy 0] uinit = Some s ∧
       handed_in (points_to 5%N) s =
         held (points_to 5%N) s + deleted (points_to 5%N) s + handed_back (points_to 5%N) s ∧
       handed_in (is_pair 5%N default_delete) s =
         held (is_pair 5%N default_delete) s + deleted (is_pair 5%N default_delete) s
         + handed_back (is_pair 5%N default_delete) s.
Proof.
  apply (unique_ptr_balance _ 5%N default_delete). unfold nullptr. discriminate.
Defined.

(** X12. Let a non-null pointer [p] be handed to unique_ptr objects once in a
    whole program, with deleter [d]. Then [p] is passed to a deleter at most
    once, and only to [d]; while some unique_ptr in scope holds [p], no other
    one does, and [p] has been neither deleted nor released; and once no
    unique_ptr is left, [p] has been either deleted (once) or released
    (once). *)
Theorem unique_ptr_owns_exclusively (ops : list uop) (s : ustate) (p : ptr) (d : deleter_t) :
  urun ops uinit = Some s → p ≠ nullptr →
  handed_in (points_to p) s = 1 → handed_in (is_pair p d) s = 1 →
  deleted (points_to p) s ≤ 1 ∧
  deleted (is_pair p d) s = deleted (points_to p) s ∧
  (∀ u, u ∈ us_live s → unique_ptr_get u = p →
        held (points_to p) s = 1 ∧ unique_ptr_get_deleter u = d ∧
        deleted (points_to p) s = 0 ∧ handed_back (points_to p) s = 0) ∧
  (us_live s = [] → deleted (points_to p) s + handed_back (points_to p) s = 1).
Proof.
  intros Hrun Hp H1 H2.
  pose proof (urun_balanced ops uinit s balanced_uinit Hrun) as Hb.
  pose proof (Hb (points_to p) (λ d', points_to_null p d' Hp)) as Ep.
  pose proof (Hb (is_pair p d) (λ d', is_pair_null p d d' Hp)) as Epd.
  unfold handed_in, held, deleted, handed_back in *.
  pose proof (tally_le _ _ (up_impl <$> us_live s) (is_pair_points_to p d)).
  pose proof (tally_le _ _ (unique_destroyed (events (us_mem s))) (is_pair_points_to p d)).
  pose proof (tally_le _ _ (us_given s) (is_pair_points_to p d)).
  pose proof (tally_nonneg (points_to p) (up_impl <$> us_live s)).
  pose proof (tally_nonneg (points_to p) (unique_destroyed (events (us_mem s)))).
  pose proof (tally_nonneg (points_to p) (us_given s)).
  pose proof (tally_nonneg (is_pair p d) (up_impl <$> us_live s)).
  pose proof (tally_nonneg (is_pair p d) (unique_destroyed (events (us_mem s)))).
  pose proof (tally_nonneg (is_pair p d) (us_given s)).
  split; [lia|]. split; [lia|]. split.
  - intros u Hu Hget.
    assert (1 ≤ tally (points_to p) (up_impl <$> us_live s)) as Hheld.
    { apply (tally_elem _ _ (up_impl u)); [by apply list_elem_of_fmap_2|].
      unfold points_to. apply N.eqb_eq. exact Hget. }
    split; [lia|]. split; [|lia].
    assert (tally (is_pair p d) (up_impl <$> us_live s) = 1) as Hpair by lia.
    destruct (deleter_eqb (unique_ptr_get_deleter u) d) eqn:Hd.
    + unfold deleter_eqb in Hd. repeat case_match; try done.
      apply Nat.eqb_eq in Hd. congruence.
    + exfalso. apply list_elem_of_split in Hu as (l1 & l2 & Hl). rewrite Hl in *.
      rewrite fmap_app, fmap_cons, tally_app, tally_cons in *.
      pose proof (tally_le _ _ (up_impl <$> l1) (is_pair_points_to p d)).
      pose proof (tally_le _ _ (up_impl <$> l2) (is_pair_points_to p d)).
      assert (points_to p (up_impl u) = true) as Hpt by (by apply N.eqb_eq).
      assert (is_pair p d (up_impl u) = false) as Hip.
      { unfold is_pair. apply andb_false_iff. by right. }
      rewrite Hpt, Hip in *. simpl in *. lia.
  - intros Hl. rewrite Hl in *. simpl in *. rewrite tally_nil in *. lia.
Qed.

Lemma unique_ptr_owns_exclusively_witness :
  ∃ s, urun [UpOfPtrDeleter 5%N (custom_deleter 1); UpDefault (custom_deleter 2);
             UpMoveAssign 1 0; UpDestroy 0; UpDestroy 0] uinit = Some s ∧
       us_live s = [] ∧
       deleted (is_pair 5%N (custom_deleter 1)) s = deleted (points_to 5%N) s ∧
       deleted (points_to 5%N) s + handed_back (points_to 5%N) s = 1.
Proof.
  eexists. split; [reflexivity|]. split; [reflexivity|].
  pose proof (unique_ptr_owns_exclusively
                [UpOfPtrDeleter 5%N (custom_deleter 1); UpDefault (custom_deleter 2);
                 UpMoveAssign 1 0; UpDestroy 0; UpDestroy 0] _ 5%N (custom_deleter 1)
                eq_refl ltac:(unfold nullptr; discriminate) eq_refl eq_refl)
    as (_ & Hd & _ & Hend).
  split; [exact Hd|]. apply Hend. reflexivity.
Defined.

(** ** The minimal shared_ptr: counting invariant *)

Section minimal_facts.
Import minimal.
Implicit Types (h : heap) (l : list shared_ptr) (x y : shared_ptr) (k : counter) (i j : nat).

Lemma min_shared_ptr_eta x : mkShared (_ptr x) (_ref_count x) (_deleter x) = x.
Proof. by destruct x. Qed.

Lemma shares_true i x :
  shares i x = true ↔ is_null (_ptr x) = false ∧ _ref_count x = Addr (S i).
Proof.
  unfold shares. rewrite andb_true_iff, negb_true_iff. split.
  - intros [Hp Hc]. split; [done|]. destruct (_ref_count x) as [|a]; [done|].
    apply Nat.eqb_eq in Hc. by subst.
  - intros [Hp ->]. split; [done|]. apply Nat.eqb_refl.
Qed.

Lemma shares_null i x : is_null (_ptr x) = true → shares i x = false.
Proof. intros Hp. unfold shares. by rewrite Hp. Qed.

Lemma shares_other i j x : _ref_count x = Addr (S j) → i ≠ j → shares i x = false.
Proof.
  intros Hc Hne. unfold shares. rewrite Hc. apply andb_false_iff. right.
  apply Nat.eqb_neq. lia.
Qed.

Lemma sharers_snoc i l x : sharers i (l ++ [x]) = sharers i l + Z.b2z (shares i x).
Proof. apply tally_snoc. Qed.

Lemma sharers_insert i l j x y :
  l !! j = Some y →
  sharers i (<[j := x]> l) = sharers i l - Z.b2z (shares i y) + Z.b2z (shares i x).
Proof. apply tally_insert. Qed.

Lemma sharers_delete i l j y :
  l !! j = Some y → sharers i (delete j l) = sharers i l - Z.b2z (shares i y).
Proof. apply tally_delete. Qed.

Lemma sharers_nonneg i l : 0 ≤ sharers i l.
Proof. apply tally_nonneg. Qed.

Lemma sharers_le_length i l : sharers i l ≤ Z.of_nat (length l).
Proof. unfold sharers, tally. pose proof (length_filter (λ x, shares i x = true) l). lia. Qed.

Lemma sharers_elem i l x : x ∈ l → shares i x = true → 1 ≤ sharers i l.
Proof. apply tally_elem. Qed.

Lemma events_of_app i ev1 ev2 : events_of i (ev1 ++ ev2) = events_of i ev1 ++ events_of i ev2.
Proof. unfold events_of. by rewrite list.filter_app. Qed.

Lemma events_of_none i ev :
  (∀ e, e ∈ ev → about i e = false) → events_of i ev = [].
Proof.
  intros Hev. unfold events_of. induction ev as [|e ev IH]; [done|].
  rewrite filter_cons. rewrite decide_False.
  - apply IH. intros e' He'. apply Hev. by right.
  - rewrite (Hev e) by left. done.
Qed.

Lemma about_teardown i j p e : e ∈ teardown j p → about i e = Nat.eqb j i.
Proof.
  unfold teardown. rewrite !elem_of_cons. intros [->|[->|[->|Hn]]]; simpl; try done.
  by apply not_elem_of_nil in Hn.
Qed.

Lemma events_of_teardown i p : events_of i (teardown i p) = teardown i p.
Proof. unfold events_of, teardown. rewrite !filter_cons. simpl. by rewrite !Nat.eqb_refl. Qed.

Lemma keeps_refl h : keeps h h.
Proof. intros i k Hk. eauto. Qed.

Lemma keeps_trans h1 h2 h3 : keeps h1 h2 → keeps h2 h3 → keeps h1 h3.
Proof.
  intros H12 H23 i k Hk. destruct (H12 i k Hk) as (k2 & Hk2 & E2).
  destruct (H23 i k2 Hk2) as (k3 & Hk3 & E3). exists k3. split; [done|congruence].
Qed.

Lemma object_ok_keeps h h' x : keeps h h' → object_ok h x → object_ok h' x.
Proof.
  intros Hk Hx Hp. destruct (Hx Hp) as (i & k & Hc & Hd & Hi & Hm).
  destruct (Hk i k Hi) as (k' & Hi' & Hm'). exists i, k'. split_and!; congruence.
Qed.

Lemma keeps_store h i k k' :
  counters h !! i = Some k → made_for k' = made_for k → keeps h (store i k' h).
Proof.
  intros Hi Hm j kj Hj. unfold store. simpl. destruct (decide (i = j)) as [->|Hne].
  - exists k'. rewrite list_lookup_insert_eq by (by eapply lookup_lt_Some).
    split; [done|congruence].
  - exists kj. by rewrite list_lookup_insert_ne.
Qed.

Lemma counter_ok_other h l h' l' i k :
  counter_ok h l i k →
  deleters h' !! i = deleters h !! i →
  events_of i (log h') = events_of i (log h) →
  sharers i l' = sharers i l →
  counter_ok h' l' i k.
Proof.
  intros (dl & Hdl & Hk) Hd He Hs. exists dl. split; [congruence|].
  rewrite He, Hs. exact Hk.
Qed.

(** No object in scope refers to an allocation that is yet to be made. *)
Lemma sharers_fresh h l i :
  Forall (object_ok h) l → (length (counters h) ≤ i)%nat → sharers i l = 0.
Proof.
  intros HF Hi. unfold sharers. induction HF as [|x l Hx HF IH]; [done|].
  rewrite tally_cons, IH. destruct (shares i x) eqn:Hs; [|done].
  apply shares_true in Hs as [Hp Hc]. destruct (Hx Hp) as (j & k & Hc' & _ & Hj & _).
  apply lookup_lt_Some in Hj. rewrite Hc in Hc'. injection Hc' as ->. lia.
Qed.

Lemma Inv_init_state : Inv init_state.
Proof.
  split_and!; simpl; try done.
  intros i e He. by apply not_elem_of_nil in He.
Qed.

(** *** The constructors *)

Lemma step_default_Inv s :
  Inv s → ∃ s', step SpDefault s = Some s' ∧ Inv s' ∧ keeps (st_heap s) (st_heap s') ∧
               length (st_live s') = S (length (st_live s)).
Proof.
  intros (Hc & Ho & Hl & Hlen). eexists. split; [reflexivity|]. split; [|split].
  - split_and!; simpl; try done.
    + intros i k Hk. eapply counter_ok_other; [by apply Hc|done|done|].
      rewrite sharers_snoc. simpl. lia.
    + apply Forall_app. split; [done|]. apply Forall_singleton. by intros ?.
  - apply keeps_refl.
  - simpl. rewrite length_app. simpl. lia.
Qed.

Lemma step_of_ptr_Inv s p :
  Inv s → ∃ s', step (SpOfPtr p) s = Some s' ∧ Inv s' ∧ keeps (st_heap s) (st_heap s') ∧
               length (st_live s') = S (length (st_live s)).
Proof.
  intros (Hc & Ho & Hl & Hlen). destruct s as [h l]. simpl in *.
  eexists. split; [unfold step, on_heap, shared_ptr_of_ptr; simpl; reflexivity|].
  simpl. rewrite Hlen.
  set (n := length (counters h)).
  assert (keeps h (mkHeap (counters h ++ [mkCounter 1 false p]) (deleters h ++ [false]) (log h)))
    as Hkeep.
  { intros i k Hk. exists k. split; [|done]. simpl. by apply lookup_app_l_Some. }
  split; [|split; [done|]].
  - split_and!; simpl.
    + intros i k Hk. destruct (decide (i = n)) as [->|Hne].
      * rewrite lookup_app_r in Hk by done. rewrite Nat.sub_diag in Hk.
        injection Hk as <-. exists false. simpl.
        split; [by rewrite lookup_app_r, Hlen, Nat.sub_diag by lia|].
        assert (events_of n (log h) = []) as Hev.
        { apply events_of_none. intros e He. destruct (about n e) eqn:Ha; [|done].
          specialize (Hl n e He Ha). unfold n in Hl. lia. }
        rewrite sharers_snoc, (sharers_fresh h l n Ho) by done.
        unfold shares. simpl. rewrite Nat.eqb_refl, Hev.
        destruct (is_null p); simpl; done.
      * assert (i < n)%nat as Hi.
        { apply lookup_lt_Some in Hk. rewrite length_app in Hk. simpl in Hk. unfold n. lia. }
        rewrite lookup_app_l in Hk by done.
        eapply counter_ok_other; [by apply Hc|..]; simpl.
        -- apply lookup_app_l. rewrite Hlen. done.
        -- done.
        -- rewrite sharers_snoc. unfold shares. simpl.
           replace (n =? i)%nat with false by (symmetry; apply Nat.eqb_neq; lia).
           rewrite andb_false_r. simpl. lia.
    + apply Forall_app. split.
      * eapply Forall_impl; [|exact Ho]. intros x. by apply object_ok_keeps.
      * apply Forall_singleton. intros Hp. exists n, (mkCounter 1 false p). simpl.
        split_and!; try done. by rewrite lookup_app_r, Nat.sub_diag.
    + intros i e He Ha. specialize (Hl i e He Ha). rewrite length_app. simpl. lia.
    + rewrite !length_app. simpl. lia.
  - rewrite length_app. simpl. lia.
Qed.

(** *** Evaluation of the counter operations *)

Lemma deref_live h i k :
  counters h !! i = Some k → freed k = false → deref (Addr (S i)) h = Some (i, k).
Proof. intros Hi Hf. unfold deref. by rewrite Hi, Hf. Qed.

Lemma incr_eval h i k :
  counters h !! i = Some k → freed k = false →
  incr (Addr (S i)) h =
    Some (long_wrap (value k + 1),
          store i (mkCounter (long_wrap (value k + 1)) false (made_for k)) h).
Proof. intros Hi Hf. unfold incr. by rewrite (deref_live h i k). Qed.

Lemma decr_eval h i k :
  counters h !! i = Some k → freed k = false →
  decr (Addr (S i)) h =
    Some (long_wrap (value k - 1),
          store i (mkCounter (long_wrap (value k - 1)) false (made_for k)) h).
Proof. intros Hi Hf. unfold decr. by rewrite (deref_live h i k). Qed.

Lemma read_eval h i k :
  counters h !! i = Some k → freed k = false → read (Addr (S i)) h = Some (value k, h).
Proof. intros Hi Hf. unfold read. by rewrite (deref_live h i k). Qed.

Lemma det_cases x : determinate x ∨ indeterminate x.
Proof.
  unfold determinate, indeterminate. destruct (_ref_count x), (_deleter x); eauto.
Qed.

Lemma det_not_indet x : determinate x → indeterminate x → False.
Proof. intros (c & d & Hc & Hd) [H|H]; congruence. Qed.

Lemma shared_ptr_copy_indet h x : indeterminate x → shared_ptr_copy x h = None.
Proof.
  unfold shared_ptr_copy, mbind, cmd_bind, bind, read_member.
  intros [H|H]; rewrite H; [done|]. by destruct (_ref_count x).
Qed.

Lemma shared_ptr_move_indet h x : indeterminate x → shared_ptr_move x h = None.
Proof.
  unfold shared_ptr_move, mbind, cmd_bind, bind, read_member.
  intros [H|H]; rewrite H; [done|]. by destruct (_ref_count x).
Qed.

Lemma shared_ptr_swap_indet h x y :
  indeterminate x ∨ indeterminate y → shared_ptr_swap x y h = None.
Proof.
  unfold shared_ptr_swap, indeterminate, mbind, cmd_bind, bind, read_member.
  destruct (_ref_count x), (_ref_count y), (_deleter x), (_deleter y); try done;
    intros [[?|?]|[?|?]]; done.
Qed.

Lemma shared_ptr_move_det h x :
  determinate x →
  shared_ptr_move x h = Some ((x, mkShared nullptr (Addr 0) (Addr 0)), h).
Proof.
  intros (c & d & Hc & Hd). unfold shared_ptr_move, mbind, cmd_bind, bind, read_member.
  rewrite Hc, Hd. unfold mret, cmd_ret, ret. by rewrite <- Hc, <- Hd, min_shared_ptr_eta.
Qed.

Lemma shared_ptr_swap_det h x y :
  determinate x → determinate y → shared_ptr_swap x y h = Some ((y, x), h).
Proof.
  intros (c1 & d1 & Hc1 & Hd1) (c2 & d2 & Hc2 & Hd2).
  unfold shared_ptr_swap, mbind, cmd_bind, bind, read_member.
  rewrite Hc1, Hd1, Hc2, Hd2. unfold mret, cmd_ret, ret.
  by rewrite <- Hc1, <- Hd1, <- Hc2, <- Hd2, !min_shared_ptr_eta.
Qed.

Lemma shared_ptr_copy_eval h x i k :
  is_null (_ptr x) = false → _ref_count x = Addr (S i) → determinate x →
  counters h !! i = Some k → freed k = false → value k + 1 ≤ LONG_MAX → 0 ≤ value k →
  shared_ptr_copy x h = Some (x, store i (mkCounter (value k + 1) false (made_for k)) h).
Proof.
  intros Hp Hc (c & d & Hc' & Hd) Hi Hf Hmax Hmin.
  unfold shared_ptr_copy, mbind, cmd_bind, bind, read_member. rewrite Hc, Hd.
  cbn [_ptr _ref_count _deleter]. rewrite Hp. rewrite (incr_eval h i k Hi Hf).
  rewrite long_wrap_id by (unfold in_long, LONG_MIN, LONG_MAX in *; lia).
  unfold mret, cmd_ret, ret. by rewrite <- Hc, <- Hd, min_shared_ptr_eta.
Qed.

Lemma shared_ptr_copy_null h x :
  is_null (_ptr x) = true → determinate x → shared_ptr_copy x h = Some (x, h).
Proof.
  intros Hp (c & d & Hc & Hd). unfold shared_ptr_copy, mbind, cmd_bind, bind, read_member.
  rewrite Hc, Hd. cbn [_ptr]. rewrite Hp.
  unfold mret, cmd_ret, ret. by rewrite <- Hc, <- Hd, min_shared_ptr_eta.
Qed.

Lemma shared_ptr_dtor_null h x :
  is_null (_ptr x) = true → shared_ptr_dtor x h = Some (tt, h).
Proof. intros Hp. unfold shared_ptr_dtor. by rewrite Hp. Qed.

Lemma shared_ptr_dtor_more h x i k :
  is_null (_ptr x) = false → _ref_count x = Addr (S i) →
  counters h !! i = Some k → freed k = false → 1 < value k ≤ LONG_MAX →
  shared_ptr_dtor x h = Some (tt, store i (mkCounter (value k - 1) false (made_for k)) h).
Proof.
  intros Hp Hc Hi Hf Hv. unfold shared_ptr_dtor. rewrite Hp, Hc.
  unfold mbind, cmd_bind, bind. rewrite (decr_eval h i k Hi Hf).
  rewrite long_wrap_id by (unfold in_long, LONG_MIN, LONG_MAX in *; lia).
  replace (value k - 1 =? 0) with false by (symmetry; apply Z.eqb_neq; lia). done.
Qed.

Lemma shared_ptr_dtor_last h x i k :
  is_null (_ptr x) = false → _ref_count x = Addr (S i) → _deleter x = Addr (S i) →
  counters h !! i = Some k → freed k = false → value k = 1 →
  deleters h !! i = Some false →
  shared_ptr_dtor x h =
    Some (tt, mkHeap (<[i := mkCounter 0 true (made_for k)]> (counters h))
                (<[i := true]> (deleters h)) (log h ++ teardown i (_ptr x))).
Proof.
  intros Hp Hc Hd Hi Hf Hv Hdl. unfold shared_ptr_dtor. rewrite Hp, Hc, Hd.
  unfold mbind, cmd_bind, bind. rewrite (decr_eval h i k Hi Hf), Hv. simpl.
  unfold delete_counter, deref, store. simpl.
  rewrite list_lookup_insert_eq by (by eapply lookup_lt_Some). simpl.
  unfold call_deleter, deref_deleter. simpl. rewrite Hdl.
  unfold delete_deleter, deref_deleter. simpl. rewrite Hdl.
  rewrite list_insert_insert_eq. unfold teardown. by rewrite <- !app_assoc.
Qed.

(** *** The invariant under a change of one counter *)

Lemma Inv_store h l l' i0 k :
  Inv (mkState h l) → counters h !! i0 = Some k → is_null (made_for k) = false →
  sharers i0 l ≠ 0 → sharers i0 l' ≠ 0 →
  (∀ i, i ≠ i0 → sharers i l' = sharers i l) →
  Forall (object_ok h) l' →
  Inv (mkState (store i0 (mkCounter (sharers i0 l') false (made_for k)) h) l').
Proof.
  intros (Hc & Ho & Hl & Hlen) Hi0 Hm Hn Hn' Hoth Ho'. simpl in *.
  split_and!; simpl.
  - intros i k' Hk'. destruct (decide (i = i0)) as [->|Hne].
    + rewrite list_lookup_insert_eq in Hk' by (by eapply lookup_lt_Some).
      injection Hk' as <-. destruct (Hc i0 k Hi0) as (dl & Hdl & Hk).
      rewrite Hm in Hk. destruct Hk as (_ & _ & -> & Hev).
      apply Z.eqb_neq in Hn, Hn'. rewrite Hn in Hdl, Hev.
      exists false. simpl. rewrite Hm, Hn'. done.
    + rewrite list_lookup_insert_ne in Hk' by done.
      eapply counter_ok_other; [by apply Hc|done|done|by apply Hoth].
  - eapply Forall_impl; [|exact Ho']. intros x. apply object_ok_keeps.
    by eapply keeps_store.
  - intros i e He Ha. rewrite length_insert. by eapply Hl.
  - by rewrite length_insert.
Qed.

Lemma Inv_teardown h l l' i0 k :
  Inv (mkState h l) → counters h !! i0 = Some k → is_null (made_for k) = false →
  sharers i0 l ≠ 0 → sharers i0 l' = 0 →
  (∀ i, i ≠ i0 → sharers i l' = sharers i l) →
  Forall (object_ok h) l' →
  Inv (mkState (mkHeap (<[i0 := mkCounter 0 true (made_for k)]> (counters h))
                  (<[i0 := true]> (deleters h)) (log h ++ teardown i0 (made_for k))) l').
Proof.
  intros (Hc & Ho & Hl & Hlen) Hi0 Hm Hn Hn' Hoth Ho'. simpl in *.
  split_and!; simpl.
  - intros i k' Hk'. destruct (decide (i = i0)) as [->|Hne].
    + rewrite list_lookup_insert_eq in Hk' by (by eapply lookup_lt_Some).
      injection Hk' as <-. destruct (Hc i0 k Hi0) as (dl & Hdl & Hk).
      rewrite Hm in Hk. destruct Hk as (_ & _ & -> & Hev).
      apply Z.eqb_neq in Hn. rewrite Hn in Hdl, Hev.
      exists true. simpl. rewrite Hm.
      split; [by rewrite list_lookup_insert_eq by (by eapply lookup_lt_Some)|].
      rewrite Hn'. simpl. split_and!; try done.
      by rewrite events_of_app, Hev, events_of_teardown.
    + rewrite list_lookup_insert_ne in Hk' by done.
      eapply counter_ok_other; [by apply Hc|..]; simpl.
      * by rewrite list_lookup_insert_ne.
      * rewrite events_of_app, (events_of_none i (teardown _ _)), app_nil_r; [done|].
        intros e He. rewrite (about_teardown i i0 _ e He). apply Nat.eqb_neq. lia.
      * by apply Hoth.
  - eapply Forall_impl; [|exact Ho']. intros x. apply object_ok_keeps.
    intros j kj Hj. simpl. destruct (decide (i0 = j)) as [->|Hne].
    + eexists. rewrite list_lookup_insert_eq by (by eapply lookup_lt_Some).
      split; [done|]. simpl. congruence.
    + exists kj. by rewrite list_lookup_insert_ne.
  - intros i e He Ha. rewrite length_insert. apply elem_of_app in He as [He|He].
    + by eapply Hl.
    + rewrite (about_teardown i i0 _ e He) in Ha. apply Nat.eqb_eq in Ha as <-.
      by eapply lookup_lt_Some.
  - by rewrite !length_insert.
Qed.

Lemma Inv_same_heap h l l' :
  Inv (mkState h l) → (∀ i, sharers i l' = sharers i l) → Forall (object_ok h) l' →
  Inv (mkState h l').
Proof.
  intros (Hc & Ho & Hl & Hlen) Hs Ho'. split_and!; simpl in *; try done.
  intros i k Hk. eapply counter_ok_other; [by apply Hc|done|done|by apply Hs].
Qed.

Lemma step_post_skip s : Inv s → step_post s s.
Proof. intros HI. split; [done|]. split; [apply keeps_refl|lia]. Qed.

(** What the invariant says of an object in scope that holds a pointer. *)
Lemma Inv_object h l j x :
  Inv (mkState h l) → l !! j = Some x → is_null (_ptr x) = false →
  ∃ i k, _ref_count x = Addr (S i) ∧ _deleter x = Addr (S i) ∧
         counters h !! i = Some k ∧ made_for k = _ptr x ∧
         value k = sharers i l ∧ freed k = false ∧ deleters h !! i = Some false ∧
         1 ≤ sharers i l ∧ shares i x = true.
Proof.
  intros (Hc & Ho & Hl & Hlen) Hj Hp. simpl in *.
  pose proof (list_elem_of_lookup_2 _ _ _ Hj) as Hin.
  rewrite list.Forall_forall in Ho. destruct (Ho x Hin Hp) as (i & k & Hrc & Hd & Hi & Hm).
  assert (shares i x = true) as Hsh by (by apply shares_true).
  pose proof (sharers_elem i l x Hin Hsh) as Hn.
  destruct (Hc i k Hi) as (dl & Hdl & Hk). rewrite Hm, Hp in Hk.
  destruct Hk as (Hv & Hf & -> & _).
  replace (sharers i l =? 0) with false in * by (symmetry; apply Z.eqb_neq; lia).
  exists i, k. split_and!; done.
Qed.


(** *** Copy, move, swap, destructor *)

Lemma Inv_copy h l j x :
  Inv (mkState h l) → Z.of_nat (length l) < LONG_MAX →
  l !! j = Some x → determinate x →
  ∃ h1, shared_ptr_copy x h = Some (x, h1) ∧ Inv (mkState h1 (l ++ [x])) ∧ keeps h h1.
Proof.
  intros HI Hb Hj Hdet.
  pose proof HI as (Hc & Ho & Hl & Hlen). simpl in Hc, Ho, Hl, Hlen.
  assert (x ∈ l) as Hin by (by eapply list_elem_of_lookup_2).
  assert (object_ok h x) as Hx by (rewrite list.Forall_forall in Ho; by apply Ho).
  destruct (is_null (_ptr x)) eqn:Hp.
  - rewrite (shared_ptr_copy_null h x Hp Hdet). eexists. split; [done|].
    split; [|apply keeps_refl].
    apply (Inv_same_heap h l); [done| |].
    + intros i. rewrite sharers_snoc, (shares_null i x Hp). simpl. lia.
    + apply Forall_app. split; [done|]. by apply Forall_singleton.
  - destruct (Inv_object h l j x HI Hj Hp)
      as (i & k & Hrc & Hd & Hi & Hm & Hv & Hf & Hdl & Hn & Hsh).
    pose proof (sharers_le_length i l) as Hle.
    rewrite (shared_ptr_copy_eval h x i k Hp Hrc Hdet Hi Hf) by lia.
    eexists. split; [done|].
    assert (sharers i (l ++ [x]) = value k + 1) as Hs'.
    { rewrite sharers_snoc, Hsh, Hv. simpl. lia. }
    rewrite <- Hs'. split.
    + apply (Inv_store h l); try done; try lia.
      * by rewrite Hm.
      * intros i' Hne. rewrite sharers_snoc, (shares_other i' i x Hrc Hne). simpl. lia.
      * apply Forall_app. split; [done|]. by apply Forall_singleton.
    + by eapply keeps_store.
Qed.

Lemma Inv_dtor h l j x :
  Inv (mkState h l) → Z.of_nat (length l) ≤ LONG_MAX → l !! j = Some x →
  ∃ h1, shared_ptr_dtor x h = Some (tt, h1) ∧ Inv (mkState h1 (delete j l)) ∧ keeps h h1.
Proof.
  intros HI Hb Hj.
  pose proof HI as (Hc & Ho & Hl & Hlen). simpl in Hc, Ho, Hl, Hlen.
  assert (Forall (object_ok h) (delete j l)) as Ho' by (by apply Forall_delete).
  destruct (is_null (_ptr x)) eqn:Hp.
  - rewrite (shared_ptr_dtor_null h x Hp). eexists. split; [done|].
    split; [|apply keeps_refl].
    apply (Inv_same_heap h l); [done| |done].
    intros i. rewrite (sharers_delete i l j x Hj), (shares_null i x Hp). simpl. lia.
  - destruct (Inv_object h l j x HI Hj Hp)
      as (i & k & Hrc & Hd & Hi & Hm & Hv & Hf & Hdl & Hn & Hsh).
    pose proof (sharers_le_length i l) as Hle.
    assert (sharers i (delete j l) = value k - 1) as Hs'.
    { rewrite (sharers_delete i l j x Hj), Hsh, Hv. simpl. lia. }
    assert (∀ i', i' ≠ i → sharers i' (delete j l) = sharers i' l) as Hoth.
    { intros i' Hne. rewrite (sharers_delete i' l j x Hj), (shares_other i' i x Hrc Hne).
      simpl. lia. }
    destruct (decide (value k = 1)) as [H1|H1].
    + rewrite (shared_ptr_dtor_last h x i k Hp Hrc Hd Hi Hf H1 Hdl). rewrite <- Hm.
      eexists. split; [done|]. split.
      * apply (Inv_teardown h l); try done; try lia. by rewrite Hm.
      * intros i' k' Hk'. simpl in *. destruct (decide (i = i')) as [->|Hne].
        -- eexists. rewrite list_lookup_insert_eq by (by eapply lookup_lt_Some).
           split; [done|]. simpl. congruence.
        -- exists k'. by rewrite list_lookup_insert_ne.
    + rewrite (shared_ptr_dtor_more h x i k Hp Hrc Hi Hf) by lia. rewrite <- Hs'.
      eexists. split; [done|]. split.
      * apply (Inv_store h l); try done; try lia. by rewrite Hm.
      * by eapply keeps_store.
Qed.

Lemma Inv_of_ptr h l p :
  Inv (mkState h l) →
  ∃ new h1, shared_ptr_of_ptr p h = Some (new, h1) ∧ determinate new ∧
            Inv (mkState h1 (l ++ [new])) ∧ keeps h h1.
Proof.
  intros HI. destruct (step_of_ptr_Inv (mkState h l) p HI) as (s' & E & HI' & Hk & _).
  unfold step, on_heap in E. cbn [st_heap st_live] in E.
  destruct (shared_ptr_of_ptr p h) as [[new h1]|] eqn:Ep; [|done]. injection E as <-.
  exists new, h1. split; [done|]. split; [|done].
  unfold shared_ptr_of_ptr in Ep. simpl in Ep. injection Ep as <- <-. by eexists _, _.
Qed.

(** The temporary [tmp] of an assignment or a reset, after the swap:
    [*this] holds what [tmp] held and [tmp], destroyed, what [*this] held. *)
Lemma Inv_tmp h l tmp i this :
  Inv (mkState h (l ++ [tmp])) → Z.of_nat (length l) < LONG_MAX → l !! i = Some this →
  ∃ h1, shared_ptr_dtor this h = Some (tt, h1) ∧
        Inv (mkState h1 (<[i := tmp]> l)) ∧ keeps h h1.
Proof.
  intros HI Hb Hi. pose proof (lookup_lt_Some _ _ _ Hi) as Hlt.
  pose proof HI as (_ & Ho & _). simpl in Ho. apply Forall_app in Ho as [Ho Ht].
  rewrite Forall_singleton in Ht.
  assert (Inv (mkState h (<[i := tmp]> l ++ [this]))) as HI'.
  { apply (Inv_same_heap h (l ++ [tmp])); [done| |].
    - intros k. rewrite !sharers_snoc, (sharers_insert k l i tmp this Hi). lia.
    - apply Forall_app. split; [by apply Forall_insert|].
      apply Forall_singleton. rewrite list.Forall_forall in Ho. apply Ho.
      by eapply list_elem_of_lookup_2. }
  destruct (Inv_dtor h (<[i := tmp]> l ++ [this]) (length l) this HI') as (h1 & E & HI1 & Hk).
  { rewrite length_app, length_insert. simpl. lia. }
  { rewrite lookup_app_r; rewrite length_insert; [|lia]. by rewrite Nat.sub_diag. }
  exists h1. split; [done|]. split; [|done].
  assert (delete (length l) (<[i := tmp]> l ++ [this]) = <[i := tmp]> l) as Hdel.
  { rewrite <- (length_insert l i tmp) at 1. by rewrite delete_middle, app_nil_r. }
  by rewrite Hdel in HI1.
Qed.

(** *** One statement *)

Lemma step_length o s s' :
  step o s = Some s' → (length (st_live s') ≤ S (length (st_live s)))%nat.
Proof.
  destruct s as [h l]. unfold step, on_heap. cbn [st_live st_heap].
  destruct o; intros Hs; repeat case_match; simplify_eq; cbn [st_live];
    rewrite ?length_app, ?length_insert; try (rewrite length_delete by eauto);
    simpl; lia.
Qed.

Lemma determinate_moved_from : determinate (mkShared nullptr (Addr 0) (Addr 0)).
Proof. by eexists _, _. Qed.

Lemma Inv_add_empty h l x :
  Inv (mkState h l) → is_null (_ptr x) = true → Inv (mkState h (l ++ [x])).
Proof.
  intros HI Hp. pose proof HI as (_ & Ho & _). simpl in Ho.
  apply (Inv_same_heap h l); [done| |].
  - intros i. rewrite sharers_snoc, (shares_null i x Hp). simpl. lia.
  - apply Forall_app. split; [done|]. apply Forall_singleton. intros ?. congruence.
Qed.

Lemma Inv_move h l j x :
  Inv (mkState h l) → l !! j = Some x →
  Inv (mkState h (<[j := mkShared nullptr (Addr 0) (Addr 0)]> l ++ [x])).
Proof.
  intros HI Hj. pose proof HI as (_ & Ho & _). simpl in Ho.
  apply (Inv_same_heap h l); [done| |].
  - intros i. rewrite sharers_snoc, (sharers_insert i l j _ x Hj).
    rewrite (shares_null i (mkShared nullptr _ _)) by done. simpl. lia.
  - apply Forall_app. split.
    + apply Forall_insert; [done|]. by intros ?.
    + apply Forall_singleton. rewrite list.Forall_forall in Ho. apply Ho.
      by eapply list_elem_of_lookup_2.
Qed.

Lemma Inv_swap h l a b x y :
  Inv (mkState h l) → l !! a = Some x → l !! b = Some y →
  Inv (mkState h (<[a := y]> (<[b := x]> l))).
Proof.
  intros HI Ha Hb. pose proof HI as (_ & Ho & _). simpl in Ho.
  rewrite list.Forall_forall in Ho.
  assert (object_ok h x) as Hx by (apply Ho; by eapply list_elem_of_lookup_2).
  assert (object_ok h y) as Hy by (apply Ho; by eapply list_elem_of_lookup_2).
  apply (Inv_same_heap h l); [done| |].
  - intros i.
    assert (<[b := x]> l !! a = Some x) as Ha'.
    { destruct (decide (a = b)) as [->|Hne].
      - rewrite list_lookup_insert_eq; [done|by eapply lookup_lt_Some].
      - by rewrite list_lookup_insert_ne. }
    rewrite (sharers_insert i _ a _ x Ha'), (sharers_insert i l b _ y Hb). lia.
  - apply Forall_insert; [|done]. apply Forall_insert; [|done]. by apply list.Forall_forall.
Qed.

(** A statement keeps the invariant, or it is undefined because it reads a
    pointer member that was never initialised. *)
Lemma min_step_inv o s :
  Inv s → Z.of_nat (length (st_live s)) < LONG_MAX →
  match step o s with
  | Some s' => Inv s' ∧ keeps (st_heap s) (st_heap s')
  | None => reads_indeterminate o s
  end.
Proof.
  intros HI Hb. destruct s as [h l]. cbn [st_live st_heap] in *.
  assert (Inv (mkState h l) ∧ keeps h h) as Hskip by (split; [done|apply keeps_refl]).
  destruct o as [|p|j|j|i j|i j|i|i p|a b|j]; unfold step; cbn [st_live st_heap].
  - destruct (step_default_Inv (mkState h l) HI) as (s' & E & HI' & Hk & _).
    unfold step in E. cbn [st_live st_heap] in E. injection E as <-. done.
  - destruct (step_of_ptr_Inv (mkState h l) p HI) as (s' & E & HI' & Hk & _).
    unfold step in E. cbn [st_live st_heap] in E. rewrite E. done.
  - (* copy *)
    destruct (l !! j) as [x|] eqn:Hj; [|done]. unfold on_heap. cbn [st_heap].
    destruct (det_cases x) as [Hdet|Hind].
    + destruct (Inv_copy h l j x HI Hb Hj Hdet) as (h1 & E & HI1 & Hk). by rewrite E.
    + rewrite (shared_ptr_copy_indet h x Hind). exists j, x.
      split; [apply list_elem_of_here|done].
  - (* move *)
    destruct (l !! j) as [x|] eqn:Hj; [|done]. unfold on_heap. cbn [st_heap].
    destruct (det_cases x) as [Hdet|Hind].
    + rewrite (shared_ptr_move_det h x Hdet). cbn [fst snd].
      split; [by apply Inv_move|apply keeps_refl].
    + rewrite (shared_ptr_move_indet h x Hind). exists j, x.
      split; [apply list_elem_of_here|done].
  - (* copy assignment *)
    destruct (l !! i) as [this|] eqn:Hi; [|done].
    destruct (l !! j) as [sp|] eqn:Hj; [|done]. unfold on_heap. cbn [st_heap].
    unfold shared_ptr_assign, mbind, cmd_bind, bind.
    destruct (det_cases sp) as [Hds|Hind].
    2:{ rewrite (shared_ptr_copy_indet h sp Hind). exists j, sp.
        split; [apply list_elem_of_further, list_elem_of_here|done]. }
    destruct (Inv_copy h l j sp HI Hb Hj Hds) as (h1 & E & HI1 & Hk1). rewrite E.
    destruct (det_cases this) as [Hdt|Hind].
    2:{ rewrite (shared_ptr_swap_indet h1 sp this (or_intror Hind)). exists i, this.
        split; [apply list_elem_of_here|done]. }
    rewrite (shared_ptr_swap_det h1 sp this Hds Hdt). cbn [fst snd].
    destruct (Inv_tmp h1 l sp i this HI1 Hb Hi) as (h2 & E2 & HI2 & Hk2). rewrite E2.
    split; [done|by eapply keeps_trans].
  - (* move assignment *)
    destruct (l !! i) as [this|] eqn:Hi; [|done].
    destruct (l !! j) as [sp|] eqn:Hj; [|done].
    destruct (decide (i = j)) as [->|Hne]; unfold on_heap; cbn [st_heap].
    + assert (this = sp) as -> by congruence.
      unfold shared_ptr_move_assign_self, mbind, cmd_bind, bind.
      destruct (det_cases sp) as [Hds|Hind].
      2:{ rewrite (shared_ptr_move_indet h sp Hind). exists j, sp.
          split; [apply list_elem_of_here|done]. }
      rewrite (shared_ptr_move_det h sp Hds). cbn [fst snd].
      rewrite (shared_ptr_swap_det h sp _ Hds determinate_moved_from). cbn [fst snd].
      rewrite (shared_ptr_dtor_null h (mkShared nullptr (Addr 0) (Addr 0))) by done.
      unfold mret, cmd_ret, ret. by rewrite list_insert_id.
    + unfold shared_ptr_move_assign, mbind, cmd_bind, bind.
      destruct (det_cases sp) as [Hds|Hind].
      2:{ rewrite (shared_ptr_move_indet h sp Hind). exists j, sp.
          split; [apply list_elem_of_further, list_elem_of_here|done]. }
      rewrite (shared_ptr_move_det h sp Hds). cbn [fst snd].
      destruct (det_cases this) as [Hdt|Hind].
      2:{ rewrite (shared_ptr_swap_indet h sp this (or_intror Hind)). exists i, this.
          split; [apply list_elem_of_here|done]. }
      rewrite (shared_ptr_swap_det h sp this Hds Hdt). cbn [fst snd].
      set (e := mkShared nullptr (Addr 0) (Addr 0)).
      destruct (Inv_tmp h (<[j := e]> l) sp i this) as (h2 & E2 & HI2 & Hk2).
      { by apply Inv_move. }
      { by rewrite length_insert. }
      { by rewrite list_lookup_insert_ne. }
      rewrite E2. unfold mret, cmd_ret, ret. cbn [fst snd]. done.
  - (* reset() *)
    destruct (l !! i) as [this|] eqn:Hi; [|done]. unfold on_heap. cbn [st_heap].
    unfold shared_ptr_reset, shared_ptr_value_init, mbind, cmd_bind, bind.
    destruct (det_cases this) as [Hdt|Hind].
    2:{ rewrite (shared_ptr_swap_indet h _ this (or_intror Hind)). exists i, this.
        split; [apply list_elem_of_here|done]. }
    rewrite (shared_ptr_swap_det h _ this determinate_moved_from Hdt). cbn [fst snd].
    destruct (Inv_tmp h l (mkShared nullptr (Addr 0) (Addr 0)) i this) as (h2 & E2 & HI2 & Hk2);
      [by apply Inv_add_empty|done|done|].
    rewrite E2. done.
  - (* reset(p) *)
    destruct (l !! i) as [this|] eqn:Hi; [|done]. unfold on_heap. cbn [st_heap].
    unfold shared_ptr_reset_ptr, mbind, cmd_bind, bind.
    destruct (Inv_of_ptr h l p HI) as (new & h1 & E & Hdn & HI1 & Hk1). rewrite E.
    destruct (det_cases this) as [Hdt|Hind].
    2:{ rewrite (shared_ptr_swap_indet h1 new this (or_intror Hind)). exists i, this.
        split; [apply list_elem_of_here|done]. }
    rewrite (shared_ptr_swap_det h1 new this Hdn Hdt). cbn [fst snd].
    destruct (Inv_tmp h1 l new i this HI1 Hb Hi) as (h2 & E2 & HI2 & Hk2). rewrite E2.
    split; [done|by eapply keeps_trans].
  - (* swap *)
    destruct (l !! a) as [x|] eqn:Ha; [|done].
    destruct (l !! b) as [y|] eqn:Hb'; [|done]. unfold on_heap. cbn [st_heap].
    destruct (det_cases x) as [Hdx|Hind].
    2:{ rewrite (shared_ptr_swap_indet h x y (or_introl Hind)). exists a, x.
        split; [apply list_elem_of_here|done]. }
    destruct (det_cases y) as [Hdy|Hind].
    2:{ rewrite (shared_ptr_swap_indet h x y (or_intror Hind)). exists b, y.
        split; [apply list_elem_of_further, list_elem_of_here|done]. }
    rewrite (shared_ptr_swap_det h x y Hdx Hdy). cbn [fst snd].
    split; [by apply Inv_swap|apply keeps_refl].
  - (* destructor *)
    destruct (l !! j) as [x|] eqn:Hj; [|done]. unfold on_heap. cbn [st_heap].
    destruct (Inv_dtor h l j x HI) as (h1 & E & HI1 & Hk); [lia|done|]. by rewrite E.
Qed.

Lemma min_step_post o s :
  Inv s → Z.of_nat (length (st_live s)) < LONG_MAX →
  match step o s with
  | Some s' => step_post s s'
  | None => reads_indeterminate o s
  end.
Proof.
  intros HI Hb. pose proof (min_step_inv o s HI Hb) as H.
  destruct (step o s) as [s'|] eqn:E; [|done]. destruct H as [HI' Hk].
  split; [done|]. split; [done|]. by eapply step_length.
Qed.

Lemma min_run_cons o ops s :
  run (o :: ops) s = match step o s with Some s' => run ops s' | None => None end.
Proof. done. Qed.

Lemma min_run_app ops1 ops2 s :
  run (ops1 ++ ops2) s = match run ops1 s with Some s' => run ops2 s' | None => None end.
Proof.
  revert s. induction ops1 as [|o ops1 IH]; intros s; [done|].
  simpl. destruct (step o s); [apply IH|done].
Qed.

(** A program short enough for a [long] to count its objects runs to its
    end, or up to a statement that reads a pointer member that was never
    initialised. *)
Lemma min_run_from ops s :
  Inv s → Z.of_nat (length (st_live s) + length ops) ≤ LONG_MAX →
  match run ops s with
  | Some s' =>
      Inv s' ∧ keeps (st_heap s) (st_heap s') ∧
      (length (st_live s') ≤ length (st_live s) + length ops)%nat
  | None =>
      ∃ pre o post s0, ops = pre ++ o :: post ∧ run pre s = Some s0 ∧
                       reads_indeterminate o s0
  end.
Proof.
  revert s. induction ops as [|o ops IH]; intros s HI Hb.
  - simpl. split; [done|]. split; [apply keeps_refl|lia].
  - simpl in Hb. rewrite min_run_cons.
    pose proof (min_step_post o s HI) as Hstep.
    destruct (step o s) as [s1|] eqn:E1.
    + destruct Hstep as (HI1 & Hk1 & Hl1); [lia|].
      specialize (IH s1 HI1). destruct (run ops s1) as [s'|] eqn:E.
      * destruct IH as (HI' & Hk & Hl); [lia|].
        split; [done|]. split; [by eapply keeps_trans|simpl; lia].
      * destruct IH as (pre & o' & post & s0 & -> & Hpre & Hind); [lia|].
        exists (o :: pre), o', post, s0. split; [done|].
        split; [by rewrite min_run_cons, E1|done].
    + exists [], o, ops, s. split; [done|]. split; [done|]. apply Hstep. lia.
Qed.

(** *** Programs without uninitialised members *)

Lemma shared_ptr_copy_ret_det h x y h' : shared_ptr_copy x h = Some (y, h') → determinate y.
Proof.
  intros E. destruct (det_cases x) as [Hd|Hi]; [|by rewrite shared_ptr_copy_indet in E].
  destruct Hd as (c & d & Hc & Hd). revert E.
  unfold shared_ptr_copy, mbind, cmd_bind, bind, read_member. rewrite Hc, Hd.
  cbn [_ptr _ref_count _deleter]. unfold mret, cmd_ret, ret.
  destruct (is_null (_ptr x)); [|destruct (incr _ h) as [[? ?]|]]; intros [= <- <-];
    by eexists _, _.
Qed.

Lemma shared_ptr_move_ret_det h x r h' :
  shared_ptr_move x h = Some (r, h') → determinate r.1 ∧ determinate r.2.
Proof.
  intros E. destruct (det_cases x) as [Hd|Hi]; [|by rewrite shared_ptr_move_indet in E].
  rewrite (shared_ptr_move_det h x Hd) in E. injection E as <- <-.
  split; [done|apply determinate_moved_from].
Qed.

Lemma shared_ptr_swap_ret_det h x y r h' :
  shared_ptr_swap x y h = Some (r, h') → determinate r.1 ∧ determinate r.2.
Proof.
  intros E. destruct (det_cases x) as [Hdx|Hi];
    [|by rewrite (shared_ptr_swap_indet h x y (or_introl Hi)) in E].
  destruct (det_cases y) as [Hdy|Hi];
    [|by rewrite (shared_ptr_swap_indet h x y (or_intror Hi)) in E].
  rewrite (shared_ptr_swap_det h x y Hdx Hdy) in E. by injection E as <- <-.
Qed.

Lemma step_determinate o s s' :
  o ≠ SpDefault → Forall determinate (st_live s) → step o s = Some s' →
  Forall determinate (st_live s').
Proof.
  intros Ho HF. destruct s as [h l]. unfold step, on_heap. cbn [st_live st_heap] in *.
  destruct o as [|p|j|j|i j|i j|i|i p|a b|j]; try done; intros E.
  - unfold shared_ptr_of_ptr in E. simpl in E. injection E as <-. simpl.
    apply Forall_app. split; [done|]. apply Forall_singleton. by eexists _, _.
  - destruct (l !! j) as [x|]; [|by injection E as <-].
    destruct (shared_ptr_copy x h) as [[y h']|] eqn:Ec; [|done]. injection E as <-. simpl.
    apply Forall_app. split; [done|]. apply Forall_singleton.
    by eapply shared_ptr_copy_ret_det.
  - destruct (l !! j) as [x|]; [|by injection E as <-].
    destruct (shared_ptr_move x h) as [[r h']|] eqn:Ec; [|done]. injection E as <-. simpl.
    destruct (shared_ptr_move_ret_det h x r h' Ec) as [H1 H2].
    apply Forall_app. split; [by apply Forall_insert|by apply Forall_singleton].
  - destruct (l !! i) as [this|]; [|by injection E as <-].
    destruct (l !! j) as [sp|]; [|by injection E as <-].
    unfold shared_ptr_assign, mbind, cmd_bind, bind in E.
    destruct (shared_ptr_copy sp h) as [[tmp h1]|]; [|done].
    destruct (shared_ptr_swap tmp this h1) as [[r h2]|] eqn:Es; [|done].
    destruct (shared_ptr_dtor r.1 h2) as [[[] h3]|]; [|done].
    injection E as <-. simpl. apply Forall_insert; [done|].
    by destruct (shared_ptr_swap_ret_det h1 tmp this r h2 Es).
  - destruct (l !! i) as [this|]; [|by injection E as <-].
    destruct (l !! j) as [sp|]; [|by injection E as <-].
    destruct (decide (i = j)) as [->|Hne].
    + unfold shared_ptr_move_assign_self, mbind, cmd_bind, bind in E.
      destruct (shared_ptr_move this h) as [[m h1]|]; [|done].
      destruct (shared_ptr_swap m.1 m.2 h1) as [[r h2]|] eqn:Es; [|done].
      destruct (shared_ptr_dtor r.1 h2) as [[[] h3]|]; [|done].
      injection E as <-. simpl. apply Forall_insert; [done|].
      by destruct (shared_ptr_swap_ret_det h1 _ _ r h2 Es).
    + unfold shared_ptr_move_assign, mbind, cmd_bind, bind in E.
      destruct (shared_ptr_move sp h) as [[m h1]|] eqn:Em; [|done].
      destruct (shared_ptr_swap m.1 this h1) as [[r h2]|] eqn:Es; [|done].
      destruct (shared_ptr_dtor r.1 h2) as [[[] h3]|]; [|done].
      injection E as <-. simpl.
      destruct (shared_ptr_move_ret_det h sp m h1 Em) as [_ Hm2].
      destruct (shared_ptr_swap_ret_det h1 _ _ r h2 Es) as [_ Hr2].
      apply Forall_insert; [|done]. by apply Forall_insert.
  - destruct (l !! i) as [this|]; [|by injection E as <-].
    unfold shared_ptr_reset, mbind, cmd_bind, bind in E.
    destruct (shared_ptr_swap shared_ptr_value_init this h) as [[r h2]|] eqn:Es; [|done].
    destruct (shared_ptr_dtor r.1 h2) as [[[] h3]|]; [|done].
    injection E as <-. simpl. apply Forall_insert; [done|].
    by destruct (shared_ptr_swap_ret_det h _ _ r h2 Es).
  - destruct (l !! i) as [this|]; [|by injection E as <-].
    unfold shared_ptr_reset_ptr, mbind, cmd_bind, bind in E.
    destruct (shared_ptr_of_ptr p h) as [[tmp h1]|]; [|done].
    destruct (shared_ptr_swap tmp this h1) as [[r h2]|] eqn:Es; [|done].
    destruct (shared_ptr_dtor r.1 h2) as [[[] h3]|]; [|done].
    injection E as <-. simpl. apply Forall_insert; [done|].
    by destruct (shared_ptr_swap_ret_det h1 _ _ r h2 Es).
  - destruct (l !! a) as [x|]; [|by injection E as <-].
    destruct (l !! b) as [y|]; [|by injection E as <-].
    destruct (shared_ptr_swap x y h) as [[r h2]|] eqn:Es; [|done].
    injection E as <-. simpl.
    destruct (shared_ptr_swap_ret_det h _ _ r h2 Es) as [Hr1 Hr2].
    apply Forall_insert; [|done]. by apply Forall_insert.
  - destruct (l !! j) as [x|]; [|by injection E as <-].
    destruct (shared_ptr_dtor x h) as [[[] h1]|]; [|done].
    injection E as <-. simpl. by apply Forall_delete.
Qed.

Lemma run_determinate ops s s' :
  SpDefault ∉ ops → Forall determinate (st_live s) → run ops s = Some s' →
  Forall determinate (st_live s').
Proof.
  revert s. induction ops as [|o ops IH]; intros s Ho HF E.
  - by injection E as <-.
  - rewrite min_run_cons in E. destruct (step o s) as [s1|] eqn:E1; [|done].
    apply not_elem_of_cons in Ho as [Ho1 Ho2].
    eapply IH; [done| |exact E]. eapply step_determinate; [|done|exact E1]. congruence.
Qed.
End minimal_facts.

(** ** The minimal shared_ptr: what its programs do *)

Lemma min_run_reach (ops : list minimal.op) (s : minimal.state) :
  Z.of_nat (length ops) ≤ LONG_MAX →
  minimal.run ops minimal.init_state = Some s →
  minimal.Inv s ∧ (length (minimal.st_live s) ≤ length ops)%nat.
Proof.
  intros Hb Hrun.
  pose proof (min_run_from ops minimal.init_state Inv_init_state) as H.
  rewrite Hrun in H. destruct H as (HI & _ & Hl); [simpl; lia|].
  split; [done|]. simpl in Hl. lia.
Qed.

(** What is known of the counter that [shared_ptr(p)] allocates in the
    middle of a program. *)
Lemma min_counter_of_ptr (ops1 ops2 : list minimal.op) (p : ptr) (s1 s2 : minimal.state) :
  Z.of_nat (length ops1 + length ops2) < LONG_MAX →
  minimal.run ops1 minimal.init_state = Some s1 →
  minimal.run (minimal.SpOfPtr p :: ops2) s1 = Some s2 →
  minimal.Inv s2 ∧
  ∃ k, minimal.counters (minimal.st_heap s2) !! length (minimal.counters (minimal.st_heap s1))
         = Some k ∧ minimal.made_for k = p.
Proof.
  intros Hb H1 H2. destruct (min_run_reach ops1 s1) as [HI1 Hl1]; [lia|done|].
  rewrite min_run_cons in H2.
  destruct (step_of_ptr_Inv s1 p HI1) as (s1' & E & HI1' & _ & Hl1'). rewrite E in H2.
  pose proof (min_run_from ops2 s1' HI1') as H. rewrite H2 in H.
  destruct H as (HI2 & Hk & _); [lia|]. split; [done|].
  unfold minimal.step, minimal.on_heap, minimal.shared_ptr_of_ptr in E. simpl in E.
  injection E as <-. simpl in Hk.
  destruct (Hk (length (minimal.counters (minimal.st_heap s1)))
              (minimal.mkCounter 1 false p)) as (k & Hk1 & Hk2).
  { simpl. by rewrite lookup_app_r, Nat.sub_diag. }
  by exists k.
Qed.

Lemma min_events_of_cases (s : minimal.state) (i : nat) :
  minimal.Inv s →
  minimal.events_of i (minimal.log (minimal.st_heap s)) = [] ∨
  ∃ p, p ≠ nullptr ∧
       minimal.events_of i (minimal.log (minimal.st_heap s)) = minimal.teardown i p.
Proof.
  intros (Hc & _ & Hl & _).
  destruct (minimal.counters (minimal.st_heap s) !! i) as [k|] eqn:Hk.
  - destruct (Hc i k Hk) as (dl & _ & Hok).
    destruct (is_null (minimal.made_for k)) eqn:Hn.
    + left. by destruct Hok as (_ & _ & _ & ?).
    + destruct Hok as (_ & _ & _ & Hev).
      destruct (minimal.sharers i (minimal.st_live s) =? 0); [|by left].
      right. exists (minimal.made_for k). split; [|done].
      intros E. rewrite E in Hn. done.
  - left. apply events_of_none. intros e He. destruct (minimal.about i e) eqn:Ha; [|done].
    specialize (Hl i e He Ha). apply lookup_ge_None in Hk. lia.
Qed.

(** X13. A program of at most [LONG_MAX] statements over the minimal
    shared_ptr either runs to its end, or it is undefined at a statement
    that copies, moves or swaps (as such, or inside an assignment or a
    reset) an object whose [_ref_count] and [_deleter] were never
    initialised, that is an object made by [shared_ptr<T> s;], which leaves
    these members indeterminate. Nothing else is undefined: no statement
    dereferences or deletes a counter or a deleter through a null or
    dangling pointer. So a program that declares no such object runs to its
    end. In the state reached, the log holds for every allocation either
    nothing or [delete _ref_count], one deleter call on a non-null pointer
    and [delete _deleter], once each and in this order: no counter and no
    deleter object is deleted twice, and no deleter is called twice. *)
Theorem minimal_shared_ptr_no_bad_access (ops : list minimal.op) :
  Z.of_nat (length ops) ≤ LONG_MAX →
  match minimal.run ops minimal.init_state with
  | Some s =>
      ∀ i, minimal.events_of i (minimal.log (minimal.st_heap s)) = [] ∨
           ∃ p, p ≠ nullptr ∧
                minimal.events_of i (minimal.log (minimal.st_heap s))
                  = minimal.teardown i p
  | None =>
      ∃ pre o post s0,
        ops = pre ++ o :: post ∧
        minimal.run pre minimal.init_state = Some s0 ∧
        minimal.reads_indeterminate o s0
  end ∧
  (minimal.SpDefault ∉ ops → is_Some (minimal.run ops minimal.init_state)).
Proof.
  intros Hb.
  pose proof (min_run_from ops minimal.init_state Inv_init_state) as H. simpl in H.
  destruct (minimal.run ops minimal.init_state) as [s|] eqn:E.
  - split; [|by eexists]. destruct H as (HI & _); [lia|].
    intros i. by apply min_events_of_cases.
  - destruct H as (pre & o & post & s0 & -> & Hpre & Hind); [lia|].
    split; [by exists pre, o, post, s0|]. intros Hno. exfalso.
    apply not_elem_of_app in Hno as [Hno _].
    pose proof (run_determinate pre minimal.init_state s0 Hno (Forall_nil_2 _) Hpre) as HF.
    destruct Hind as (i & x & _ & Hx & Hi).
    rewrite list.Forall_forall in HF.
    apply (det_not_indet x); [|done]. apply HF. by eapply list_elem_of_lookup_2.
Qed.

Lemma minimal_shared_ptr_no_bad_access_witness :
  is_Some (minimal.run [minimal.SpOfPtr 5%N; minimal.SpCopy 0; minimal.SpOfPtr 7%N;
                        minimal.SpAssign 0 2; minimal.SpReset 2; minimal.SpMoveAssign 1 0;
                        minimal.SpSwap 0 1; minimal.SpDestroy 0; minimal.SpDestroy 0;
                        minimal.SpDestroy 0] minimal.init_state) ∧
  ∃ pre o post s0,
    [minimal.SpDefault; minimal.SpOfPtr 5%N; minimal.SpAssign 0 1] = pre ++ o :: post ∧
    minimal.run pre minimal.init_state = Some s0 ∧
    minimal.reads_indeterminate o s0.
Proof.
  split.
  - apply (minimal_shared_ptr_no_bad_access
             [minimal.SpOfPtr 5%N; minimal.SpCopy 0; minimal.SpOfPtr 7%N;
              minimal.SpAssign 0 2; minimal.SpReset 2; minimal.SpMoveAssign 1 0;
              minimal.SpSwap 0 1; minimal.SpDestroy 0; minimal.SpDestroy 0;
              minimal.SpDestroy 0]).
    + simpl. unfold LONG_MAX. lia.
    + intros Hin. repeat (apply elem_of_cons in Hin as [Hin|Hin]; [discriminate|]).
      by apply not_elem_of_nil in Hin.
  - exact (proj1 (minimal_shared_ptr_no_bad_access
                    [minimal.SpDefault; minimal.SpOfPtr 5%N; minimal.SpAssign 0 1]
                    ltac:(simpl; unfold LONG_MAX; lia))).
Defined.

(** X14. In every state a program reaches, [use_count()] of an object that holds
    a pointer is the number of objects in scope that hold a pointer and
    share its counter, and [unique()] says whether that number is 1; for an
    object that holds no pointer [use_count()] is 0. *)
Theorem minimal_use_count_counts_sharers (ops : list minimal.op) (s : minimal.state)
    (x : minimal.shared_ptr) :
  Z.of_nat (length ops) ≤ LONG_MAX →
  minimal.run ops minimal.init_state = Some s →
  x ∈ minimal.st_live s →
  if is_null (minimal._ptr x)
  then minimal.shared_ptr_use_count x (minimal.st_heap s) = Some (0, minimal.st_heap s)
  else ∃ i, minimal._ref_count x = minimal.Addr (S i) ∧
            minimal.shared_ptr_use_count x (minimal.st_heap s)
              = Some (minimal.sharers i (minimal.st_live s), minimal.st_heap s) ∧
            minimal.shared_ptr_unique x (minimal.st_heap s)
              = Some (minimal.sharers i (minimal.st_live s) =? 1, minimal.st_heap s).
Proof.
  intros Hb Hrun Hx. destruct (min_run_reach ops s Hb Hrun) as [HI _].
  destruct s as [h l]. simpl in *. apply list_elem_of_lookup in Hx as [j Hj].
  destruct (is_null (minimal._ptr x)) eqn:Hp.
  - unfold minimal.shared_ptr_use_count. by rewrite Hp.
  - destruct (Inv_object h l j x HI Hj Hp)
      as (i & k & Hrc & Hd & Hi & Hm & Hv & Hf & Hdl & Hn & Hsh).
    exists i. split; [done|].
    assert (minimal.shared_ptr_use_count x h = Some (minimal.sharers i l, h)) as E.
    { unfold minimal.shared_ptr_use_count. rewrite Hp, Hrc, (read_eval h i k Hi Hf).
      by rewrite Hv. }
    split; [done|]. unfold minimal.shared_ptr_unique, mbind, minimal.cmd_bind, minimal.bind.
    by rewrite E.
Qed.

Lemma minimal_use_count_counts_sharers_witness :
  ∃ h, minimal.shared_ptr_use_count
         (minimal.mkShared 5%N (minimal.Addr 1) (minimal.Addr 1)) h = Some (2, h).
Proof.
  eexists.
  pose proof (minimal_use_count_counts_sharers
                [minimal.SpOfPtr 5%N; minimal.SpCopy 0; minimal.SpDefault] _
                (minimal.mkShared 5%N (minimal.Addr 1) (minimal.Addr 1))
                ltac:(simpl; unfold LONG_MAX; lia) eq_refl
                ltac:(apply list_elem_of_here)) as H.
  simpl in H. destruct H as (i & Hi & Hu & _). injection Hi as <-. exact Hu.
Defined.

(** X15. Let [shared_ptr(p)] with a non-null [p] allocate a counter in the middle
    of a program. Whatever follows, every object that shares the counter
    holds [p]; as long as one does, the log has nothing about the counter;
    once none does (so also when no object is left at all), the log has
    exactly [delete _ref_count], the deleter call on [p] and
    [delete _deleter], once each and in this order. *)
Theorem minimal_last_owner_deletes_once (ops1 ops2 : list minimal.op) (p : ptr)
    (s1 s2 : minimal.state) :
  Z.of_nat (length ops1 + length ops2) < LONG_MAX →
  minimal.run ops1 minimal.init_state = Some s1 →
  minimal.run (minimal.SpOfPtr p :: ops2) s1 = Some s2 →
  p ≠ nullptr →
  let i := length (minimal.counters (minimal.st_heap s1)) in
  (∀ x, x ∈ minimal.st_live s2 → minimal.shares i x = true → minimal._ptr x = p) ∧
  minimal.events_of i (minimal.log (minimal.st_heap s2)) =
    (if minimal.sharers i (minimal.st_live s2) =? 0 then minimal.teardown i p else []) ∧
  (minimal.st_live s2 = [] →
   minimal.events_of i (minimal.log (minimal.st_heap s2)) = minimal.teardown i p).
Proof.
  intros Hb H1 H2 Hp i.
  destruct (min_counter_of_ptr ops1 ops2 p s1 s2 Hb H1 H2) as (HI & k & Hk & Hm).
  fold i in Hk. pose proof HI as (Hc & Ho & _).
  assert (is_null p = false) as Hnn.
  { unfold is_null. apply N.eqb_neq. exact Hp. }
  destruct (Hc i k Hk) as (dl & _ & Hok). rewrite Hm, Hnn in Hok.
  destruct Hok as (_ & _ & _ & Hev). split; [|split; [done|]].
  - intros x Hx Hsh. apply shares_true in Hsh as [Hpx Hrc].
    rewrite list.Forall_forall in Ho. destruct (Ho x Hx Hpx) as (i' & k' & Hrc' & _ & Hk' & Hm').
    rewrite Hrc in Hrc'. injection Hrc' as <-. congruence.
  - intros Hl. rewrite Hev, Hl. done.
Qed.

Lemma minimal_last_owner_deletes_once_witness :
  minimal.events_of 0
    [minimal.DeleteCounter 1; minimal.CallDeleter 1 5%N; minimal.DeleteDeleter 1]
  = minimal.teardown 0 5%N.
Proof.
  pose proof (minimal_last_owner_deletes_once
                [] [minimal.SpCopy 0; minimal.SpDestroy 0; minimal.SpDestroy 0] 5%N _ _
                ltac:(simpl; unfold LONG_MAX; lia) eq_refl eq_refl
                ltac:(unfold nullptr; discriminate)) as (_ & _ & H).
  exact (H eq_refl).
Defined.

(** X16. Let [shared_ptr(p)] be called with a null [p] of pointer type. It still
    allocates a counter and a deleter object; whatever follows, neither is
    ever deleted, also when no object is left, the log has nothing about
    them, and [use_count()] of every object that holds this counter is 0. *)
Theorem minimal_null_pointer_counter_stays (ops1 ops2 : list minimal.op)
    (s1 s2 : minimal.state) :
  Z.of_nat (length ops1 + length ops2) < LONG_MAX →
  minimal.run ops1 minimal.init_state = Some s1 →
  minimal.run (minimal.SpOfPtr nullptr :: ops2) s1 = Some s2 →
  let i := length (minimal.counters (minimal.st_heap s1)) in
  (∃ k, minimal.counters (minimal.st_heap s2) !! i = Some k ∧
        minimal.freed k = false ∧ minimal.value k = 1) ∧
  minimal.deleters (minimal.st_heap s2) !! i = Some false ∧
  minimal.events_of i (minimal.log (minimal.st_heap s2)) = [] ∧
  (∀ x, x ∈ minimal.st_live s2 → minimal._ref_count x = minimal.Addr (S i) →
        minimal.shared_ptr_use_count x (minimal.st_heap s2)
          = Some (0, minimal.st_heap s2)).
Proof.
  intros Hb H1 H2 i.
  destruct (min_counter_of_ptr ops1 ops2 nullptr s1 s2 Hb H1 H2) as (HI & k & Hk & Hm).
  fold i in Hk. pose proof HI as (Hc & Ho & _).
  destruct (Hc i k Hk) as (dl & Hdl & Hok). rewrite Hm in Hok.
  change (is_null nullptr) with true in Hok. cbn iota in Hok.
  destruct Hok as (Hv & Hf & -> & Hev). split_and!; try done.
  - by exists k.
  - intros x Hx Hrc. unfold minimal.shared_ptr_use_count.
    destruct (is_null (minimal._ptr x)) eqn:Hpx; [done|]. exfalso.
    rewrite list.Forall_forall in Ho.
    destruct (Ho x Hx Hpx) as (i' & k' & Hrc' & _ & Hk' & Hm').
    rewrite Hrc in Hrc'. injection Hrc' as <-.
    assert (k' = k) as -> by congruence. rewrite Hm in Hm'. by rewrite <- Hm' in Hpx.
Qed.

Lemma minimal_null_pointer_counter_stays_witness :
  ∃ s2, minimal.run [minimal.SpOfPtr nullptr; minimal.SpCopy 0; minimal.SpDestroy 0;
                     minimal.SpDestroy 0] minimal.init_state = Some s2 ∧
        minimal.st_live s2 = [] ∧
        minimal.deleters (minimal.st_heap s2) !! 0%nat = Some false ∧
        minimal.events_of 0 (minimal.log (minimal.st_heap s2)) = [].
Proof.
  eexists. split; [reflexivity|]. split; [reflexivity|].
  pose proof (minimal_null_pointer_counter_stays
                [] [minimal.SpCopy 0; minimal.SpDestroy 0; minimal.SpDestroy 0] _ _
                ltac:(simpl; unfold LONG_MAX; lia) eq_refl eq_refl) as (_ & Hd & He & _).
  split; [exact Hd|exact He].
Defined.

(** ** The minimal unique_ptr against sp::unique_ptr *)

Lemma in_step_step (o : minimal_unique.op) (s : minimal_unique.state) (su : ustate) :
  in_step s su →
  ∃ su', ustep (as_sp_op o) su = Some su' ∧ in_step (minimal_unique.step o s) su'.
Proof.
  intros (Hl & He & Hc). destruct s as [l del], su as [[cs ev] ul tk gv].
  simpl in Hl, He, Hc. subst ul ev cs.
  destruct o as [|p|i|i p|i j|i]; simpl; unfold in_step; simpl.
  - eexists. split; [done|]. by rewrite fmap_app.
  - eexists. split; [done|]. by rewrite fmap_app.
  - rewrite list_lookup_fmap. destruct (l !! i) as [[q]|] eqn:Hi; simpl.
    + eexists. split; [done|]. simpl. by rewrite list_fmap_insert.
    + eexists. split; [done|]. done.
  - rewrite list_lookup_fmap. destruct (l !! i) as [[q]|] eqn:Hi; simpl.
    + unfold on_log, unique_ptr_reset_ptr, minimal_unique.unique_ptr_dtor,
        mbind, M_bind, bind, mret, M_ret, ret, emit. simpl.
      destruct (is_null q); simpl; eexists; (split; [done|]); simpl;
        rewrite list_fmap_insert, ?fmap_app, ?app_nil_r; done.
    + eexists. split; [done|]. done.
  - rewrite !list_lookup_fmap. destruct (l !! i) as [[q]|] eqn:Hi; simpl;
      [|eexists; split; [done|]; done].
    destruct (l !! j) as [[r]|] eqn:Hj; simpl; [|eexists; split; [done|]; done].
    eexists. split; [done|]. simpl. by rewrite !list_fmap_insert.
  - rewrite list_lookup_fmap. destruct (l !! i) as [[q]|] eqn:Hi; simpl.
    + unfold on_log, unique_ptr_dtor, minimal_unique.unique_ptr_dtor,
        mbind, M_bind, bind, mret, M_ret, ret, emit. simpl.
      destruct (is_null q); simpl; eexists; (split; [done|]); simpl;
        rewrite list_fmap_delete, ?fmap_app, ?app_nil_r; done.
    + eexists. split; [done|]. done.
Qed.

Lemma in_step_run (ops : list minimal_unique.op) (s : minimal_unique.state) (su : ustate) :
  in_step s su →
  ∃ su', urun (as_sp_op <$> ops) su = Some su' ∧ in_step (minimal_unique.run ops s) su'.
Proof.
  revert s su. induction ops as [|o ops IH]; intros s su Hs; [by exists su|].
  destruct (in_step_step o s su Hs) as (su1 & E1 & H1).
  destruct (IH _ _ H1) as (su' & E & H'). exists su'. simpl. rewrite E1. done.
Qed.

(** X17. The minimal unique_ptr does what [sp::unique_ptr<T>] with
    [default_delete] does: run over both classes, a program of
    constructions, [release()], [reset(p)], [swap] and destructions leaves
    the same pointers in the same objects and deletes the same pointers in
    the same order. In particular [reset], written there with a temporary
    and a swap, deletes the old pointer (when it is not null) and nothing
    else. *)
Theorem minimal_unique_ptr_matches_sp_unique_ptr (ops : list minimal_unique.op) :
  ∃ su, urun (as_sp_op <$> ops) uinit = Some su ∧
        minimal_unique.unique_ptr_get <$>
          minimal_unique.st_live (minimal_unique.run ops minimal_unique.init_state)
          = unique_ptr_get <$> us_live su ∧
        events (us_mem su) =
          EvUniqueDestroy default_delete <$>
            minimal_unique.st_deleted (minimal_unique.run ops minimal_unique.init_state).
Proof.
  destruct (in_step_run ops minimal_unique.init_state uinit) as (su & E & Hl & He & _);
    [done|].
  exists su. split; [done|]. split; [|done].
  rewrite Hl, <- list_fmap_compose. apply list_fmap_ext. by intros ? [].
Qed.
